(** * Verification of the lightcone cutout pipeline (cosmo-cutout)

    A shallow embedding of [src/util.cpp] (vector and matrix helpers, the
    Rodrigues rotation) and of [src/processLC.cpp] (the two cutout
    pipelines: fixed angular window and halo-centred window).

    Numeric conventions of the embedding.
    - [float] and [double] values are idealised as real numbers: every
      arithmetic operation of the source is the exact operation on [R], and
      the libm functions [sqrt], [acos], [atan], [sin], [cos] are the
      functions of the same name of the real-number library.  Rounding,
      overflow, underflow and NaN are outside the model.
    - [int] values are integers reduced to 32 bits after every addition.
    - A [std::vector<int>] that the code indexes after [clear()] is modelled
      with its reported size and its backing storage kept apart.

    The process group.  [processLC] is run by every rank; the collectives
    ([MPI_Barrier], [MPI_Allgather], the collective file open) keep the ranks
    in step, so the model advances all ranks together through one iteration
    of the step loop.  In the step function the ranks write one after the
    other in rank order; [write_order_irrelevant] and
    [id_word_under_any_interleaving] cover the other orders.  The snapshot
    reader is an input; the discovery of the step directories
    ([getLCSteps], [getLCFile]) works on directory listings. *)

From Stdlib Require Import String Ascii DecimalString.
From Stdlib Require DecimalPos Sorted Permutation.
From Stdlib Require Import Reals Machin RNsatz Lra Lia ZArith List Bool Psatz.
Import ListNotations.

(** ** Idealised floating point *)

Abbreviation float := R (only parsing).

(** [a > b] and [a < b] on floats, as the boolean the [if] consumes. *)
Definition fgt (a b : float) : bool := if Rlt_dec b a then true else false.
Definition flt (a b : float) : bool := if Rlt_dec a b then true else false.
(** [a == b] on floats. *)
Definition feq (a b : float) : bool := if Req_dec_T a b then true else false.

(** Modelled from the spec: the macros [PI] and [ARCSEC] come from a header
    that is not part of the sources; the spec fixes [ARCSEC = 3600] and uses
    [PI] as the circle constant. *)
Definition ARCSEC : float := 3600%R.

(** ** util.cpp: matrix and vector operations *)

Module Util.
Local Open Scope R_scope.

Definition vec := list float.
Definition mat := list (list float).

(** Unchecked element reads [v[i]] and [m[n][k]]. *)
Definition at1 (v : vec) (i : nat) : float := nth i v 0.
Definition at2 (m : mat) (n k : nat) : float := nth k (nth n m []) 0.

(** [std::inner_product(v1.begin(), v1.end(), v2.begin(), init)] *)
Definition inner_product (v1 v2 : vec) (init : float) : float :=
  fold_left (fun acc i => acc + at1 v1 i * at1 v2 i) (seq 0 (length v1)) init.

Definition scalarMultiply (matrix : mat) (scalar : float) : mat :=
  let rows := length matrix in
  let cols := length (nth 0 matrix []) in
  map (fun n => map (fun m => at2 matrix n m * scalar) (seq 0 cols)) (seq 0 rows).

Definition squareMat (matrix : mat) : mat :=
  let rows := length matrix in
  let cols := length (nth 0 matrix []) in
  map (fun n =>
         map (fun m =>
                fold_left (fun acc y => acc + at2 matrix n y * at2 matrix y m)
                          (seq 0 rows) 0)
             (seq 0 cols))
      (seq 0 rows).

(** [None] stands for the [MPI_Abort] taken on a dimension mismatch. *)
Definition matVecMul (matrix : mat) (v : vec) : option vec :=
  let vecSize := length v in
  let rows := length matrix in
  let cols := length (nth 0 matrix []) in
  if negb (Nat.eqb vecSize rows) then None
  else Some (map (fun n =>
                    fold_left (fun acc m => acc + at2 matrix n m * at1 v m)
                              (seq 0 cols) 0)
                 (seq 0 rows)).

Definition vecPairAngle (v1 v2 : vec) : float :=
  let v1dv2 := inner_product v1 v2 0 in
  let mag_v1 := sqrt (inner_product v1 v1 0) in
  let mag_v2 := sqrt (inner_product v2 v2 0) in
  acos (v1dv2 / (mag_v1 * mag_v2)).

Definition dot (v1 v2 : vec) : option float :=
  let n1 := length v1 in
  let n2 := length v2 in
  if negb (Nat.eqb n1 n2) then None
  else Some (fold_left (fun d i => d + at1 v1 i * at1 v2 i) (seq 0 n1) 0).

(** [cross] pushes the three components onto the vector it is handed. *)
Definition cross (v1 v2 v1xv2 : vec) : option vec :=
  let n1 := length v1 in
  let n2 := length v2 in
  if negb (Nat.eqb n1 n2) then None
  else Some (v1xv2 ++
             [ at1 v1 1 * at1 v2 2 - at1 v1 2 * at1 v2 1;
               - (at1 v1 0 * at1 v2 2 - at1 v1 2 * at1 v2 0);
               at1 v1 0 * at1 v2 1 - at1 v1 1 * at1 v2 0 ]).

Definition normCross (a b k : vec) : option vec :=
  let na := length a in
  let nb := length b in
  if negb (Nat.eqb na nb) then None
  else
    match cross a b [] with
    | None => None
    | Some axb =>
        let mag_axb := sqrt (inner_product axb axb 0) in
        Some (k ++ map (fun i => if feq mag_axb 0 then 0 else at1 axb i / mag_axb)
                       (seq 0 na))
    end.

Definition cross_prod_matrix (k : vec) (K : mat) : mat :=
  K ++ [ [ 0; - at1 k 2; at1 k 1 ];
         [ at1 k 2; 0; - at1 k 0 ];
         [ - at1 k 1; at1 k 0; 0 ] ].

(** The [rank] argument of the source is not used by the body. *)
Definition rotation_matrix (rank : Z) (K : mat) (B : float) (R : mat) : mat :=
  let K2 := squareMat K in
  let Ksin := scalarMultiply K (sin B) in
  let K2cos := scalarMultiply K2 (1 - cos B) in
  R ++ [ [ 1 + at2 Ksin 0 0 + at2 K2cos 0 0; at2 Ksin 0 1 + at2 K2cos 0 1;
           at2 Ksin 0 2 + at2 K2cos 0 2 ];
         [ at2 Ksin 1 0 + at2 K2cos 1 0; 1 + at2 Ksin 1 1 + at2 K2cos 1 1;
           at2 Ksin 1 2 + at2 K2cos 1 2 ];
         [ at2 Ksin 2 0 + at2 K2cos 2 0; at2 Ksin 2 1 + at2 K2cos 2 1;
           1 + at2 Ksin 2 2 + at2 K2cos 2 2 ] ].

(** Modelled from the spec: [rotate(k, B, v, v_rot)] is called by
    processLC.cpp but its body is not part of the sources.  The spec gives
    [v' = v cosB + (k x v) sinB + k (k . v) (1 - cosB)]; the model computes
    this formula component by component with [cross] and [dot] of util.cpp
    and pushes the three components onto [v_rot].  [None] is the abort that
    [cross] and [dot] take on vectors of different lengths. *)
Definition rotate (k : vec) (B : float) (v : vec) (v_rot : vec) : option vec :=
  match cross k v [] with
  | None => None
  | Some kxv =>
      match dot k v with
      | None => None
      | Some kdv =>
          Some (v_rot ++
                map (fun i => at1 v i * cos B + at1 kxv i * sin B
                              + at1 k i * kdv * (1 - cos B))
                    (seq 0 3))
      end
  end.

End Util.

(** ** 32-bit [int] and [std::vector<int>] *)

Definition INT_MAX : Z := 2147483647.

(** Reduction of an integer to the range of a 32-bit signed [int]. *)
Definition wrap32 (z : Z) : Z := ((z + 2147483648) mod 4294967296 - 2147483648)%Z.

Definition int_add (a b : Z) : Z := wrap32 (a + b).

(** A [std::vector<int>]: the size it reports and the cells of its
    allocation.  [clear()] resets the size and keeps the allocation;
    [operator[]] is unchecked and addresses the allocation directly.  An
    index at or beyond the reported size is out of bounds in the source;
    [vsize] and the [access] records are what the statements about bounds
    use. *)
Record ivec := { vsize : nat; vstore : list Z }.

Definition iv_empty : ivec := {| vsize := 0; vstore := [] |}.

Definition iv_resize (n : nat) (v : ivec) : ivec :=
  {| vsize := n;
     vstore := firstn (Nat.min n (vsize v)) (vstore v)
               ++ repeat 0%Z (n - vsize v)
               ++ skipn n (vstore v) |}.

Definition iv_clear (v : ivec) : ivec := {| vsize := 0; vstore := vstore v |}.

(** Overwrite cell [i] of a list; nothing happens outside the list (the
    pipelines never index beyond the [numranks] cells they allocated). *)
Fixpoint list_set {A : Type} (i : nat) (x : A) (l : list A) : list A :=
  match l, i with
  | [], _ => []
  | _ :: t, O => x :: t
  | h :: t, S j => h :: list_set j x t
  end.

Definition iv_get (i : nat) (v : ivec) : Z := nth i (vstore v) 0%Z.

Definition iv_set (i : nat) (x : Z) (v : ivec) : ivec :=
  {| vsize := vsize v; vstore := list_set i x (vstore v) |}.

(** Raw copy of [src] into the cells from index [i] on, as a receive buffer
    handed over by address is filled. *)
Fixpoint iv_blit (i : nat) (src : list Z) (v : ivec) : ivec :=
  match src with
  | [] => v
  | x :: rest => iv_blit (S i) rest (iv_set i x v)
  end.

(** One indexed access, with the size the vector reported at that moment. *)
Inductive which_vec := NpCount | NpOffset.
Record access := { acc_vec : which_vec; acc_index : nat; acc_size : nat }.

Definition in_bounds (a : access) : bool := Nat.ltb (acc_index a) (acc_size a).

(** ** Output files *)

(** Every seek offset and every write length of the pipelines is a multiple
    of four bytes, so a file is a sequence of four-byte words.  An eight-byte
    id occupies two consecutive words, the half that comes first in memory
    and the half that comes second. *)
Inductive word :=
| W_hole
| W_float (x : float)
| W_int (i : Z)
| W_id_fst (i : Z)
| W_id_snd (i : Z).

Definition file := list word.

Definition image_float (l : list float) : list word := map W_float l.
Definition image_int (l : list Z) : list word := map W_int l.
Definition image_id (l : list Z) : list word :=
  flat_map (fun i => [W_id_fst i; W_id_snd i]) l.

Inductive MPI_Datatype := MPI_FLOAT | MPI_INT64_T.

Definition sizeof_type (t : MPI_Datatype) : Z :=
  match t with MPI_FLOAT => 4 | MPI_INT64_T => 8 end.

(** Modelled from the spec: [POSVEL_T] and [ID_T] are declared in a header
    that is not part of the sources; the spec gives float32 positions and
    velocities and a 64-bit integer id. *)
Definition sizeof_POSVEL_T : Z := 4.
Definition sizeof_ID_T : Z := 8.

(** Write [ws] at byte offset [off]; a gap past the end of the file reads as
    holes; a write of nothing leaves the file as it is. *)
Definition pwrite (off : Z) (ws : list word) (f : file) : file :=
  match ws with
  | [] => f
  | _ :: _ =>
      let i := Z.to_nat (off / 4) in
      firstn i (f ++ repeat W_hole (i - length f)) ++ ws
      ++ skipn (i + length ws) f
  end.

(** [MPI_File_seek(fh, off)] followed by
    [MPI_File_iwrite(fh, buf, count, type)] and [MPI_Wait]: the first
    [count * sizeof(type)] bytes of the memory image of [buf] go to the file
    at [off]. *)
Definition seek_iwrite (off : Z) (buf : list word) (count : nat)
           (t : MPI_Datatype) (f : file) : file :=
  pwrite off (firstn (count * Z.to_nat (sizeof_type t / 4)) buf) f.

(** ** File system: directories holding named files *)

Fixpoint assoc_get {A : Type} (k : string) (l : list (string * A)) : option A :=
  match l with
  | [] => None
  | (k', v) :: t => if String.eqb k k' then Some v else assoc_get k t
  end.

Fixpoint assoc_set {A : Type} (k : string) (v : A) (l : list (string * A))
  : list (string * A) :=
  match l with
  | [] => [(k, v)]
  | (k', v') :: t =>
      if String.eqb k k' then (k, v) :: t else (k', v') :: assoc_set k v t
  end.

Definition directory := list (string * file).
Definition filesystem := list (string * directory).

Inductive result (A : Type) :=
| Ok (a : A)
| Throw (msg : string).
Arguments Ok {A} a.
Arguments Throw {A} msg.

(** ** libc helpers *)

Definition is_space (c : ascii) : bool :=
  match nat_of_ascii c with
  | 32 | 9 | 10 | 11 | 12 | 13 => true
  | _ => false
  end.

Definition digit_of (c : ascii) : option Z :=
  let n := Z.of_nat (nat_of_ascii c) in
  if ((48 <=? n) && (n <=? 57))%Z then Some (n - 48)%Z else None.

Fixpoint atoi_digits (s : string) (acc : Z) : Z :=
  match s with
  | EmptyString => acc
  | String c s' =>
      match digit_of c with
      | Some d => atoi_digits s' (10 * acc + d)%Z
      | None => acc
      end
  end.

Fixpoint skip_spaces (s : string) : string :=
  match s with
  | EmptyString => EmptyString
  | String c s' => if is_space c then skip_spaces s' else s
  end.

Definition atoi (s : string) : Z :=
  match skip_spaces s with
  | String "-"%char r => wrap32 (- atoi_digits r 0)
  | String "+"%char r => wrap32 (atoi_digits r 0)
  | s1 => wrap32 (atoi_digits s1 0)
  end.

(** [stream << step] for an [int]. *)
Definition print_int (z : Z) : string := NilZero.string_of_int (Z.to_int z).

(** ** processLC.cpp: buffers *)

Module ProcessLC.
Import Util.
Local Open Scope R_scope.

(** Columns read from one lightcone step (struct of arrays). *)
Record Buffers_read := {
  r_x : list float;
  r_y : list float;
  r_z : list float;
  r_vx : list float;
  r_vy : list float;
  r_vz : list float;
  r_a : list float;
  r_id : list Z;
  r_step : list Z;
  r_rotation : list Z;
  r_replication : list Z
}.

(** Columns of the cutout, and the two vectors of the write layout. *)
Record Buffers_write := {
  w_x : list float;
  w_y : list float;
  w_z : list float;
  w_vx : list float;
  w_vy : list float;
  w_vz : list float;
  w_a : list float;
  w_id : list Z;
  w_step : list Z;
  w_rotation : list Z;
  w_replication : list Z;
  w_theta : list float;
  w_phi : list float;
  np_count : ivec;
  np_offset : ivec
}.

(** A freshly declared [Buffers_write w]. *)
Definition Buffers_write_new : Buffers_write :=
  {| w_x := []; w_y := []; w_z := []; w_vx := []; w_vy := []; w_vz := [];
     w_a := []; w_id := []; w_step := []; w_rotation := [];
     w_replication := []; w_theta := []; w_phi := [];
     np_count := iv_empty; np_offset := iv_empty |}.

(** [w.np_count.resize(numranks); w.np_offset.resize(numranks);] *)
Definition setup_layout (numranks : nat) (w : Buffers_write) : Buffers_write :=
  {| w_x := w_x w; w_y := w_y w; w_z := w_z w;
     w_vx := w_vx w; w_vy := w_vy w; w_vz := w_vz w;
     w_a := w_a w; w_id := w_id w; w_step := w_step w;
     w_rotation := w_rotation w; w_replication := w_replication w;
     w_theta := w_theta w; w_phi := w_phi w;
     np_count := iv_resize numranks (np_count w);
     np_offset := iv_resize numranks (np_offset w) |}.

(** The block of twelve [push_back] calls for record [n]. *)
Definition push_back_record (r : Buffers_read) (n : nat) (theta phi : float)
           (w : Buffers_write) : Buffers_write :=
  {| w_theta := w_theta w ++ [theta];
     w_phi := w_phi w ++ [phi];
     w_x := w_x w ++ [nth n (r_x r) 0];
     w_y := w_y w ++ [nth n (r_y r) 0];
     w_z := w_z w ++ [nth n (r_z r) 0];
     w_vx := w_vx w ++ [nth n (r_vx r) 0];
     w_vy := w_vy w ++ [nth n (r_vy r) 0];
     w_vz := w_vz w ++ [nth n (r_vz r) 0];
     w_a := w_a w ++ [nth n (r_a r) 0];
     w_id := w_id w ++ [nth n (r_id r) 0%Z];
     w_step := w_step w;
     w_rotation := w_rotation w ++ [nth n (r_rotation r) 0%Z];
     w_replication := w_replication w ++ [nth n (r_replication r) 0%Z];
     np_count := np_count w;
     np_offset := np_offset w |}.

(** ** The cut *)

(** [r.x[n] > 0.0 && r.y[n] > 0.0 && r.z[n] > 0.0] *)
Definition first_octant (r : Buffers_read) (n : nat) : bool :=
  fgt (nth n (r_x r) 0) 0 && fgt (nth n (r_y r) 0) 0 && fgt (nth n (r_z r) 0) 0.

(** The spherical coordinate transformation, in arcseconds. *)
Definition theta_arcsec (x y z : float) : float :=
  let r_halo := sqrt (x * x + y * y + z * z) in
  acos (z / r_halo) * 180 / PI * ARCSEC.

Definition phi_arcsec (x y : float) : float :=
  atan (y / x) * 180 / PI * ARCSEC.

(** [theta > theta_cut[0] && theta < theta_cut[1] &&
     phi > phi_cut[0] && phi < phi_cut[1]] *)
Definition inside_cut (theta_cut phi_cut : vec) (theta phi : float) : bool :=
  fgt theta (at1 theta_cut 0) && flt theta (at1 theta_cut 1) &&
  fgt phi (at1 phi_cut 0) && flt phi (at1 phi_cut 1).

(** Angles of record [n] in the fixed-window pipeline: from the raw position. *)
Definition angles_raw (r : Buffers_read) (n : nat) : float * float :=
  let x := nth n (r_x r) 0 in
  let y := nth n (r_y r) 0 in
  let z := nth n (r_z r) 0 in
  (theta_arcsec x y z, phi_arcsec x y).

(** Angles of record [n] in the halo pipeline: from the rotated position.
    [None] is the abort of a dimension mismatch inside [rotate]. *)
Definition angles_rotated (k : vec) (B : float) (r : Buffers_read) (n : nat)
  : option (float * float) :=
  let v := [nth n (r_x r) 0; nth n (r_y r) 0; nth n (r_z r) 0] in
  match rotate k B v [] with
  | None => None
  | Some v_rot =>
      Some (theta_arcsec (at1 v_rot 0) (at1 v_rot 1) (at1 v_rot 2),
            phi_arcsec (at1 v_rot 0) (at1 v_rot 1))
  end.

(** Body of the loop [for (int n=0; n<Np; ++n)], fixed window. *)
Definition cut_record (theta_cut phi_cut : vec) (r : Buffers_read) (n : nat)
           (w : Buffers_write) : Buffers_write :=
  if first_octant r n then
    let '(theta, phi) := angles_raw r n in
    if inside_cut theta_cut phi_cut theta phi
    then push_back_record r n theta phi w
    else w
  else w.

(** Body of the same loop in the halo pipeline. *)
Definition cut_record_halo (k : vec) (B : float) (theta_cut phi_cut : vec)
           (r : Buffers_read) (n : nat) (w : Buffers_write)
  : option Buffers_write :=
  if first_octant r n then
    match angles_rotated k B r n with
    | None => None
    | Some (v_theta, v_phi) =>
        if inside_cut theta_cut phi_cut v_theta v_phi
        then Some (push_back_record r n v_theta v_phi w)
        else Some w
    end
  else Some w.

Definition do_cutting (theta_cut phi_cut : vec) (r : Buffers_read) (Np : nat)
           (w : Buffers_write) : option Buffers_write :=
  Some (fold_left (fun acc n => cut_record theta_cut phi_cut r n acc) (seq 0 Np) w).

Definition do_cutting_halo (k : vec) (B : float) (theta_cut phi_cut : vec)
           (r : Buffers_read) (Np : nat) (w : Buffers_write)
  : option Buffers_write :=
  fold_left (fun acc n =>
               match acc with
               | None => None
               | Some w' => cut_record_halo k B theta_cut phi_cut r n w'
               end)
            (seq 0 Np) (Some w).

(** ** Setup of the halo pipeline: rotation and window *)

Record halo_setup := {
  hs_k : vec;
  hs_B : float;
  hs_theta_cut : vec;
  hs_phi_cut : vec
}.

Definition halo_radius (halo_pos : vec) : float :=
  sqrt (at1 halo_pos 0 * at1 halo_pos 0 +
        at1 halo_pos 1 * at1 halo_pos 1 +
        at1 halo_pos 2 * at1 halo_pos 2).

Definition halo_prepare (halo_pos : vec) (boxLength : float) : option halo_setup :=
  let halo_r := halo_radius halo_pos in
  let rotated_pos := [halo_r; 0; 0] in
  match normCross halo_pos rotated_pos [] with
  | None => None
  | Some k =>
      let B := vecPairAngle halo_pos rotated_pos in
      let halfBoxLength := boxLength / 2 in
      let dtheta := atan (halfBoxLength / halo_r) in
      let dphi := dtheta in
      let theta_cut := [ (PI / 2 - dtheta) * 180 / PI * ARCSEC;
                         (PI / 2 + dtheta) * 180 / PI * ARCSEC ] in
      let phi_cut := [ (0 - dphi) * 180 / PI * ARCSEC;
                       (0 + dphi) * 180 / PI * ARCSEC ] in
      Some {| hs_k := k; hs_B := B;
              hs_theta_cut := theta_cut; hs_phi_cut := phi_cut |}
  end.

(** ** Write layout: counts and offsets *)

(** [int cutout_size = int(w.a.size());] *)
Definition cutout_size (w : Buffers_write) : Z :=
  wrap32 (Z.of_nat (length (w_a w))).

Definition set_layout (c o : ivec) (w : Buffers_write) : Buffers_write :=
  {| w_x := w_x w; w_y := w_y w; w_z := w_z w;
     w_vx := w_vx w; w_vy := w_vy w; w_vz := w_vz w;
     w_a := w_a w; w_id := w_id w; w_step := w_step w;
     w_rotation := w_rotation w; w_replication := w_replication w;
     w_theta := w_theta w; w_phi := w_phi w;
     np_count := c; np_offset := o |}.

(** [w.np_offset[j] = w.np_offset[j-1] + w.np_count[j-1];] with the three
    indexed accesses it makes. *)
Definition offset_loop_body (c : ivec) (st : ivec * list access) (j : nat)
  : ivec * list access :=
  let '(o, tr) := st in
  (iv_set j (int_add (iv_get (j - 1) o) (iv_get (j - 1) c)) o,
   tr ++ [ {| acc_vec := NpOffset; acc_index := j - 1; acc_size := vsize o |};
           {| acc_vec := NpCount; acc_index := j - 1; acc_size := vsize c |};
           {| acc_vec := NpOffset; acc_index := j; acc_size := vsize o |} ]).

(** From [w.np_count.clear()] to the end of the offset loop, on one rank.
    [gathered] is what [MPI_Allgather] delivers: the [cutout_size] of every
    rank, in rank order.  The second component lists the indexed accesses. *)
Definition offset_exchange (numranks : nat) (gathered : list Z)
           (w : Buffers_write) : Buffers_write * list access :=
  let c0 := iv_clear (np_count w) in
  let o0 := iv_clear (np_offset w) in
  let o1 := iv_set 0 0%Z o0 in
  let tr1 := [ {| acc_vec := NpOffset; acc_index := 0; acc_size := vsize o0 |} ] in
  let c1 := iv_blit 0 gathered c0 in
  let tr2 := map (fun j => {| acc_vec := NpCount; acc_index := j;
                              acc_size := vsize c0 |})
                 (seq 0 numranks) in
  let '(o2, tr3) :=
    fold_left (offset_loop_body c1) (seq 1 (numranks - 1)) (o1, tr1 ++ tr2) in
  (set_layout c1 o2 w, tr3).

(** ** Writing *)

Record write_op := {
  op_field : string;
  op_seek : Z;
  op_buf : list word;
  op_count : nat;
  op_type : MPI_Datatype
}.

(** The thirteen seek-and-write pairs of one rank, in program order. *)
Definition write_ops (rank : nat) (w : Buffers_write) : list write_op :=
  let offset_posvel := (sizeof_POSVEL_T * iv_get rank (np_offset w))%Z in
  let offset_id := (sizeof_ID_T * iv_get rank (np_offset w))%Z in
  [ {| op_field := "id"; op_seek := offset_id; op_buf := image_id (w_id w);
       op_count := length (w_id w); op_type := MPI_INT64_T |};
    {| op_field := "x"; op_seek := offset_posvel; op_buf := image_float (w_x w);
       op_count := length (w_x w); op_type := MPI_FLOAT |};
    {| op_field := "y"; op_seek := offset_posvel; op_buf := image_float (w_y w);
       op_count := length (w_y w); op_type := MPI_FLOAT |};
    {| op_field := "z"; op_seek := offset_posvel; op_buf := image_float (w_z w);
       op_count := length (w_z w); op_type := MPI_FLOAT |};
    {| op_field := "vx"; op_seek := offset_posvel; op_buf := image_float (w_vx w);
       op_count := length (w_vx w); op_type := MPI_FLOAT |};
    {| op_field := "vy"; op_seek := offset_posvel; op_buf := image_float (w_vy w);
       op_count := length (w_vy w); op_type := MPI_FLOAT |};
    {| op_field := "vz"; op_seek := offset_posvel; op_buf := image_float (w_vz w);
       op_count := length (w_vz w); op_type := MPI_FLOAT |};
    {| op_field := "theta"; op_seek := offset_posvel;
       op_buf := image_float (w_theta w);
       op_count := length (w_theta w); op_type := MPI_FLOAT |};
    {| op_field := "phi"; op_seek := offset_posvel;
       op_buf := image_float (w_phi w);
       op_count := length (w_phi w); op_type := MPI_FLOAT |};
    {| op_field := "a"; op_seek := offset_posvel; op_buf := image_float (w_a w);
       op_count := length (w_a w); op_type := MPI_FLOAT |};
    {| op_field := "id"; op_seek := offset_posvel; op_buf := image_id (w_id w);
       op_count := length (w_id w); op_type := MPI_FLOAT |};
    {| op_field := "rotation"; op_seek := offset_posvel;
       op_buf := image_int (w_rotation w);
       op_count := length (w_rotation w); op_type := MPI_FLOAT |};
    {| op_field := "replication"; op_seek := offset_posvel;
       op_buf := image_int (w_replication w);
       op_count := length (w_replication w); op_type := MPI_FLOAT |} ].

(** Name of a field file inside the step directory:
    ["/" << field << "." << step << ".bin"]. *)
Definition bin_name (field : string) (step : Z) : string :=
  (field ++ "." ++ print_int step ++ ".bin")%string.

(** Fields in the order their files are opened. *)
Definition opened_fields : list string :=
  [ "id"; "x"; "y"; "z"; "vx"; "vy"; "vz"; "a";
    "rotation"; "replication"; "theta"; "phi" ]%string.

(** [MPI_File_open] with [MPI_MODE_CREATE | MPI_MODE_WRONLY]. *)
Definition file_open (name : string) (d : directory) : directory :=
  match assoc_get name d with
  | Some _ => d
  | None => assoc_set name [] d
  end.

Definition apply_write (step : Z) (d : directory) (op : write_op) : directory :=
  let name := bin_name (op_field op) step in
  match assoc_get name d with
  | Some f => assoc_set name (seek_iwrite (op_seek op) (op_buf op)
                                          (op_count op) (op_type op) f) d
  | None => d
  end.

(** The directory check at the head of every step. *)
Definition open_step_subdir (step_subdir : string) (fs : filesystem)
  : result filesystem :=
  match assoc_get step_subdir fs with
  | Some d =>
      match d with
      | [] => Ok fs
      | _ :: _ =>
          Throw ("Directory " ++ step_subdir ++ " is non-empty")%string
      end
  | None => Ok (assoc_set step_subdir [] fs)
  end.

(** ** The step loop, for the whole process group *)

(** State of the group between steps: the [Buffers_write w] of every rank
    (declared before the loop, so it lives across steps) and the output
    file system. *)
Record group := { g_w : list Buffers_write; g_fs : filesystem }.

Fixpoint sequence {A : Type} (l : list (option A)) : option (list A) :=
  match l with
  | [] => Some []
  | None :: _ => None
  | Some a :: t =>
      match sequence t with
      | None => None
      | Some t' => Some (a :: t')
      end
  end.

Section StepLoop.

(** Prefix of the step directories, output directory, group size. *)
Variables (subdirPrefix out_dir : string) (numranks : nat).

(** The external snapshot reader: for a step string and a rank, the number
    of elements [Np] of the local partition and its columns. *)
Variable reader : string -> nat -> nat * Buffers_read.

(** The cut loop of the pipeline at hand ([do_cutting] or [do_cutting_halo]
    with its setup applied). *)
Variable cutting : Buffers_read -> nat -> Buffers_write -> option Buffers_write.

Definition step_subdir_name (step_string : string) : string :=
  (out_dir ++ subdirPrefix ++ "Cutout" ++ step_string)%string.

(** All ranks write their thirteen buffers; the ranks are taken in
    ascending order, each with its writes in program order. *)
Definition write_out (step : Z) (ws : list Buffers_write) (d : directory)
  : directory :=
  fold_left (fun d' rw => fold_left (apply_write step) (write_ops (fst rw) (snd rw)) d')
            (combine (seq 0 (length ws)) ws) d.

(** One iteration of [for (int i=0; i<step_strings.size(); ++i)].  The
    search for the header file ([getLCFile]) and the read of the snapshot
    are behind [reader]: an iteration in which [getLCFile] aborts or the
    read fails is not among the runs described here. *)
Definition step_iteration (step_string : string) (g : group) : result group :=
  let step := atoi step_string in
  if (step =? 499)%Z then Ok g
  else
    let step_subdir := step_subdir_name step_string in
    match open_step_subdir step_subdir (g_fs g) with
    | Throw msg => Throw msg
    | Ok fs1 =>
        let d1 := fold_left (fun d f => file_open (bin_name f step) d)
                            opened_fields [] in
        let cut := map (fun rw =>
                          let '(Np, r) := reader step_string (fst rw) in
                          cutting r Np (snd rw))
                       (combine (seq 0 (length (g_w g))) (g_w g)) in
        match sequence cut with
        | None => Throw "MPI_Abort"
        | Some ws1 =>
            let gathered := map cutout_size ws1 in
            let ws2 := map (fun w => fst (offset_exchange numranks gathered w)) ws1 in
            let d2 := write_out step ws2 d1 in
            Ok {| g_w := ws2; g_fs := assoc_set step_subdir d2 fs1 |}
        end
    end.

Fixpoint step_loop (step_strings : list string) (g : group) : result group :=
  match step_strings with
  | [] => Ok g
  | s :: rest =>
      match step_iteration s g with
      | Throw msg => Throw msg
      | Ok g' => step_loop rest g'
      end
  end.

(** State of the group on entry to the step loop. *)
Definition group_start (fs : filesystem) : group :=
  {| g_w := repeat (setup_layout numranks Buffers_write_new) numranks;
     g_fs := fs |}.

End StepLoop.

(** Use case 1: custom theta - phi bounds. *)
Definition processLC (subdirPrefix out_dir : string) (numranks : nat)
           (reader : string -> nat -> nat * Buffers_read)
           (step_strings : list string) (theta_cut phi_cut : vec)
           (fs : filesystem) : result group :=
  step_loop subdirPrefix out_dir numranks reader
            (do_cutting theta_cut phi_cut) step_strings
            (group_start numranks fs).

(** Use case 2: custom halo cutout. *)
Definition processLC_halo (subdirPrefix out_dir : string) (numranks : nat)
           (reader : string -> nat -> nat * Buffers_read)
           (step_strings : list string) (halo_pos : vec) (boxLength : float)
           (fs : filesystem) : result group :=
  match halo_prepare halo_pos boxLength with
  | None => Throw "MPI_Abort"
  | Some hs =>
      step_loop subdirPrefix out_dir numranks reader
                (do_cutting_halo (hs_k hs) (hs_B hs)
                                 (hs_theta_cut hs) (hs_phi_cut hs))
                step_strings (group_start numranks fs)
  end.

End ProcessLC.

(** ** util.cpp: the remaining functions *)

Module UtilRest.
Import Util.

(** [for(int j = 0; j < Np; ++j) idxRemap.push_back(j % numranks);]
    ([%] truncates, as [Z.rem] does). *)
Definition comp_rank_scatter (Np : nat) (idxRemap : list Z) (numranks : Z)
  : list Z :=
  idxRemap ++ map (fun j => Z.rem (Z.of_nat j) numranks) (seq 0 Np).

(** [readHaloFile].  The file is handed over as the sequence of its
    whitespace-separated tokens, which is what the two
    [istream_iterator<string>] copies deliver; [strtof] is the libc
    conversion.  [None] is the [MPI_Abort] on a token count that is not a
    multiple of four.  The ids are compacted in place:
    [haloIds[i] = haloIds[i*4]] for [i < size/4], then [resize(size/4)]. *)
Definition compact_ids (haloIds : list string) : list string :=
  firstn (length haloIds / 4)
         (fold_left (fun ids i => list_set i (nth (i * 4) ids EmptyString) ids)
                    (seq 0 (length haloIds / 4)) haloIds).

Definition readHaloFile (strtof : string -> float) (tokens : list string)
           (haloPos : list float) (haloIds : list string)
  : option (list float * list string) :=
  if negb (Nat.eqb (length tokens mod 4) 0) then None
  else
    Some (haloPos ++
          map (fun i => strtof (nth (i + 1 + i / 3) tokens EmptyString))
              (seq 0 (length tokens / 4 * 3)),
          compact_ids (haloIds ++ tokens)).

(** [string(name).find(sub) != string::npos] *)
Fixpoint contains (sub s : string) : bool :=
  if String.prefix sub s then true
  else match s with
       | EmptyString => false
       | String _ rest => contains sub rest
       end.

(** [getLCSubdirs].  [listing] is what [opendir]/[readdir] deliver: [None]
    when the directory cannot be opened, else the names of its entries.
    The result is the returned code and the vector [subdirs]. *)
Definition getLCSubdirs (listing : option (list string)) (errno : Z)
           (subdirs : list string) : Z * list string :=
  match listing with
  | None => (errno, subdirs)
  | Some names => (0%Z, subdirs ++ filter (contains "lc") names)
  end.

(** [getLCFile]: the returned code and the string [file], or the abort. *)
Inductive file_search :=
| Returned (code : Z) (file : string)
| Aborted.

Definition getLCFile (listing : option (list string)) (errno : Z)
           (file : string) : file_search :=
  match listing with
  | None => Returned errno file
  | Some names =>
      let files := filter (fun n => contains "lc" n && negb (contains "#" n))
                          names in
      match files with
      | [] => Aborted
      | f :: [] => Returned 0%Z f
      | _ :: _ :: _ => Aborted
      end
  end.

(** [isdigit] used as a truth value. *)
Definition is_digit (c : ascii) : bool :=
  match digit_of c with
  | Some _ => true
  | None => false
  end.

(** The step number of a subdirectory name: [atoi] of the name from its
    first digit on; nothing is pushed for a name without a digit. *)
Fixpoint step_of_subdir (name : string) : option Z :=
  match name with
  | EmptyString => None
  | String c rest =>
      if is_digit c then Some (atoi name) else step_of_subdir rest
  end.

Definition stepsAvail_of (subdirs : list string) : list Z :=
  flat_map (fun d => match step_of_subdir d with
                     | Some n => [n]
                     | None => []
                     end) subdirs.

(** [std::sort] on a vector of [int]: the ascending arrangement. *)
Fixpoint insert_sorted (x : Z) (l : list Z) : list Z :=
  match l with
  | [] => [x]
  | y :: t => if (x <=? y)%Z then x :: l else y :: insert_sorted x t
  end.

Definition sort_ints (l : list Z) : list Z := fold_right insert_sorted [] l.

(** The loop of [getLCSteps] over [stepsAvail[size - (k+1)]], that is over
    the steps from the largest down, with the flag [hitMaxStep]; the result
    lists the steps it pushes. *)
Fixpoint steps_loop (maxStep minStep : Z) (descending : list Z)
         (hitMaxStep : bool) : list Z :=
  match descending with
  | [] => []
  | x :: rest =>
      if negb hitMaxStep then
        steps_loop maxStep minStep rest (x <? maxStep)%Z
      else
        x :: (if (x <=? minStep)%Z then []
              else steps_loop maxStep minStep rest true)
  end.

Definition getLCSteps (maxStep minStep : Z) (listing : option (list string))
           (errno : Z) (step_strings : list string) : list string :=
  let subdirs := snd (getLCSubdirs listing errno []) in
  let stepsAvail := sort_ints (stepsAvail_of subdirs) in
  step_strings ++
  map print_int (steps_loop maxStep minStep (rev stepsAvail) false).

(** The three helpers taken from vvector.h. *)
Definition determinant_3x3 (m : mat) : float :=
  (at2 m 0 0 * (at2 m 1 1 * at2 m 2 2 - at2 m 1 2 * at2 m 2 1)
   - at2 m 0 1 * (at2 m 1 0 * at2 m 2 2 - at2 m 1 2 * at2 m 2 0)
   + at2 m 0 2 * (at2 m 1 0 * at2 m 2 1 - at2 m 1 1 * at2 m 2 0))%R.

Definition scale_adjoint_3x3 (m : mat) (s : float) : mat :=
  [ [ s * (at2 m 1 1 * at2 m 2 2 - at2 m 1 2 * at2 m 2 1);
      s * (at2 m 0 2 * at2 m 2 1 - at2 m 0 1 * at2 m 2 2);
      s * (at2 m 0 1 * at2 m 1 2 - at2 m 0 2 * at2 m 1 1) ];
    [ s * (at2 m 1 2 * at2 m 2 0 - at2 m 1 0 * at2 m 2 2);
      s * (at2 m 0 0 * at2 m 2 2 - at2 m 0 2 * at2 m 2 0);
      s * (at2 m 0 2 * at2 m 1 0 - at2 m 0 0 * at2 m 1 2) ];
    [ s * (at2 m 1 0 * at2 m 2 1 - at2 m 1 1 * at2 m 2 0);
      s * (at2 m 0 1 * at2 m 2 0 - at2 m 0 0 * at2 m 2 1);
      s * (at2 m 0 0 * at2 m 1 1 - at2 m 0 1 * at2 m 1 0) ] ]%R.

Definition invert_3x3 (m : mat) : mat :=
  let det := determinant_3x3 m in
  let det_inv := (1 / det)%R in
  scale_adjoint_3x3 m det_inv.

(** The cosmology helpers. *)
Local Open Scope R_scope.

(** [floor] of math.h, on the reals. *)
Definition floor (x : R) : Z := (up x - 1)%Z.

Definition aToZ (a : float) : float := 1 / a - 1.

(** [totSteps - 1] is an [int] difference converted to [float]; the value
    of [floor] is stored in an [int] and returned as a [float]. *)
Definition zToStep (z : float) (totSteps : Z) (maxZ : float) : float :=
  let amin := 1 / (maxZ + 1) in
  let amax := 1 in
  let adiff := (amax - amin) / IZR (totSteps - 1) in
  let a := 1 / (1 + z) in
  let step := floor ((a - amin) / adiff) in
  IZR step.

End UtilRest.

(** ** processLC.cpp: the prefix of the step directories *)

(** The loop that looks for the first character [c] of [subdirs[0]] with
    [isdigit(c) == true] and takes the characters before it; [isdigit] is
    the libc function, whose value on a digit is some non-zero [int].
    [None] when no character passes the test. *)
Fixpoint prefix_scan (isdigit : ascii -> Z) (name : string) : option string :=
  match name with
  | EmptyString => None
  | String c rest =>
      if (isdigit c =? 1)%Z then Some EmptyString
      else match prefix_scan isdigit rest with
           | Some p => Some (String c p)
           | None => None
           end
  end.

(** [subdirPrefix] after the loop: it starts out empty. *)
Definition find_subdirPrefix (isdigit : ascii -> Z) (name : string) : string :=
  match prefix_scan isdigit name with
  | Some p => p
  | None => EmptyString
  end.

(** * Vocabulary of the statements *)

Import Util ProcessLC.
Local Open Scope R_scope.

(** The selection condition of the cut, as a proposition. *)
Definition selected (theta_cut phi_cut : vec) (r : Buffers_read) (n : nat)
           (theta phi : float) : Prop :=
  0 < nth n (r_x r) 0 /\ 0 < nth n (r_y r) 0 /\ 0 < nth n (r_z r) 0 /\
  at1 theta_cut 0 < theta /\ theta < at1 theta_cut 1 /\
  at1 phi_cut 0 < phi /\ phi < at1 phi_cut 1.

(** Sum of a list of counts. *)
Definition total (l : list Z) : Z := fold_right Z.add 0%Z l.

(** The accesses the offset phase makes when the vectors report size
    [sz]: [offset[0]], the receive cells [count[0..numranks-1]], and the
    two reads and one write of every turn of the offset loop. *)
Definition offset_phase_accesses (numranks sz : nat) : list access :=
  [ {| acc_vec := NpOffset; acc_index := 0; acc_size := sz |} ]
  ++ map (fun j => {| acc_vec := NpCount; acc_index := j; acc_size := sz |})
         (seq 0 numranks)
  ++ flat_map
       (fun j => [ {| acc_vec := NpOffset; acc_index := j - 1; acc_size := sz |};
                   {| acc_vec := NpCount; acc_index := j - 1; acc_size := sz |};
                   {| acc_vec := NpOffset; acc_index := j; acc_size := sz |} ])
       (seq 1 (numranks - 1)).

(** The test of the fixed-window cut on record [n], and the same test in
    the halo pipeline. *)
Definition keep (theta_cut phi_cut : vec) (r : Buffers_read) (n : nat) : bool :=
  first_octant r n &&
  inside_cut theta_cut phi_cut (fst (angles_raw r n)) (snd (angles_raw r n)).

Definition angles_halo (k : vec) (B : float) (r : Buffers_read) (n : nat)
  : float * float :=
  match angles_rotated k B r n with
  | Some tp => tp
  | None => (0, 0)
  end.

Definition keep_halo (k : vec) (B : float) (theta_cut phi_cut : vec)
           (r : Buffers_read) (n : nat) : bool :=
  first_octant r n &&
  inside_cut theta_cut phi_cut (fst (angles_halo k B r n))
             (snd (angles_halo k B r n)).

(** Appending the records at the indices [idx], in the order of [idx]. *)
Definition push_all (r : Buffers_read) (ang : nat -> float * float)
           (idx : list nat) (w : Buffers_write) : Buffers_write :=
  fold_left (fun acc n => push_back_record r n (fst (ang n)) (snd (ang n)) acc)
            idx w.

(** A window that holds the whole open positive octant: theta between 0
    and 180 degrees, phi between -90 and 90 degrees, in arcseconds. *)
Definition octant_theta_cut : vec := [0; 648000].
Definition octant_phi_cut : vec := [-324000; 324000].

(** A partition with one particle per id, every particle at (1,1,1); the
    two tag columns repeat the id, so that the order of the records shows in
    the integer files. *)
Definition particles_at_111 (ids : list Z) : Buffers_read :=
  {| r_x := map (fun _ => 1) ids;
     r_y := map (fun _ => 1) ids;
     r_z := map (fun _ => 1) ids;
     r_vx := map (fun _ => 0) ids;
     r_vy := map (fun _ => 0) ids;
     r_vz := map (fun _ => 0) ids;
     r_a := map (fun _ => 1) ids;
     r_id := ids;
     r_step := map (fun _ => 0%Z) ids;
     r_rotation := ids;
     r_replication := ids |}.

(** A reader for a one-process run: every step holds one particle, whose id
    is the step number. *)
Definition one_particle_reader (step_string : string) (rank : nat)
  : nat * Buffers_read :=
  (1%nat, particles_at_111 [atoi step_string]).

(** A reader for a two-process run: rank 0 holds ids 1,2,3 and the other
    rank holds ids 4,5,6,7,8. *)
Definition three_five_reader (step_string : string) (rank : nat)
  : nat * Buffers_read :=
  match rank with
  | O => (3%nat, particles_at_111 [1; 2; 3]%Z)
  | S _ => (5%nat, particles_at_111 [4; 5; 6; 7; 8]%Z)
  end.

(** What a run leaves: per rank, the ids of the batch and the cells of the
    count and offset vectors. *)
Definition observed_ranks (res : result group)
  : option (list (list Z * list Z * list Z)) :=
  match res with
  | Ok g => Some (map (fun w => (w_id w, vstore (np_count w), vstore (np_offset w)))
                      (g_w g))
  | Throw _ => None
  end.

(** A file of a run's output, by directory and name. *)
Definition observed_file (dir name : string) (res : result group) : option file :=
  match res with
  | Ok g =>
      match assoc_get dir (g_fs g) with
      | Some d => assoc_get name d
      | None => None
      end
  | Throw _ => None
  end.

(** The cut that keeps every record of the partition. *)
Definition keep_all (r : Buffers_read) (Np : nat) (w : Buffers_write)
  : option Buffers_write :=
  Some (push_all r (angles_raw r) (seq 0 Np) w).

(** Radians to degrees. *)
Definition degrees (x : float) : float := x * 180 / PI.

(** The Rodrigues matrix of axis [k] and angle [B], as util.cpp builds it:
    [R = I + sinB K + (1 - cosB) K^2] with [K] the cross-product matrix. *)
Definition rodrigues_matrix (k : vec) (B : float) : mat :=
  rotation_matrix 0%Z (cross_prod_matrix k []) B [].

(** Length of a three-component vector. *)
Definition norm3 (v : vec) : float :=
  sqrt (at1 v 0 * at1 v 0 + at1 v 1 * at1 v 1 + at1 v 2 * at1 v 2).

(** [v] points the way [q] does. *)
Definition same_direction (v q : vec) : Prop :=
  exists t, 0 < t /\ v = map (Rmult t) q.

(** The axis and angle the halo pipeline computes for halo position [p],
    and, for that axis and angle, the two properties of the Rodrigues
    matrix: it preserves the length of every vector, and it sends [p] onto
    the direction of the pole [(|p|, 0, 0)]. *)
Definition rodrigues_isometry (p : vec) : Prop :=
  let q := [halo_radius p; 0; 0] in
  exists k,
    normCross p q [] = Some k /\
    forall x y z,
    exists v',
      matVecMul (rodrigues_matrix k (vecPairAngle p q)) [x; y; z] = Some v' /\
      norm3 v' = norm3 [x; y; z].

Definition rodrigues_aligns (p : vec) : Prop :=
  let q := [halo_radius p; 0; 0] in
  exists k p',
    normCross p q [] = Some k /\
    matVecMul (rodrigues_matrix k (vecPairAngle p q)) p = Some p' /\
    same_direction p' q.

(** The fields whose file receives one write of four-byte elements per
    rank, and the memory image of the column written to a field. *)
Definition four_byte_fields : list string :=
  [ "x"; "y"; "z"; "vx"; "vy"; "vz"; "theta"; "phi"; "a";
    "rotation"; "replication" ]%string.

Definition column_image (field : string) (w : Buffers_write) : list word :=
  if String.eqb field "x" then image_float (w_x w)
  else if String.eqb field "y" then image_float (w_y w)
  else if String.eqb field "z" then image_float (w_z w)
  else if String.eqb field "vx" then image_float (w_vx w)
  else if String.eqb field "vy" then image_float (w_vy w)
  else if String.eqb field "vz" then image_float (w_vz w)
  else if String.eqb field "theta" then image_float (w_theta w)
  else if String.eqb field "phi" then image_float (w_phi w)
  else if String.eqb field "a" then image_float (w_a w)
  else if String.eqb field "rotation" then image_int (w_rotation w)
  else if String.eqb field "replication" then image_int (w_replication w)
  else if String.eqb field "id" then image_id (w_id w)
  else [].

(** All data columns of a batch have the length of the [a] column. *)
Definition aligned (w : Buffers_write) : Prop :=
  length (w_x w) = length (w_a w) /\ length (w_y w) = length (w_a w) /\
  length (w_z w) = length (w_a w) /\ length (w_vx w) = length (w_a w) /\
  length (w_vy w) = length (w_a w) /\ length (w_vz w) = length (w_a w) /\
  length (w_id w) = length (w_a w) /\
  length (w_rotation w) = length (w_a w) /\
  length (w_replication w) = length (w_a w) /\
  length (w_theta w) = length (w_a w) /\ length (w_phi w) = length (w_a w).

(** One seek-and-write pair applied to the content of its file. *)
Definition run_op (f : file) (op : write_op) : file :=
  seek_iwrite (op_seek op) (op_buf op) (op_count op) (op_type op) f.

(** What the step loop maintains on every rank: aligned columns and
    [numranks] cells in each layout vector; and on the group: one batch per
    rank. *)
Definition rank_ok (numranks : nat) (w : Buffers_write) : Prop :=
  aligned w /\
  length (vstore (np_count w)) = numranks /\
  length (vstore (np_offset w)) = numranks.

Definition group_ok (numranks : nat) (g : group) : Prop :=
  length (g_w g) = numranks /\ Forall (rank_ok numranks) (g_w g).

(** Number of records held by the batches of all ranks. *)
Definition records_held (ws : list Buffers_write) : Z :=
  total (map (fun w => Z.of_nat (length (w_a w))) ws).

(** A cut that appends, in index order, the records an index test keeps. *)
Definition filtering_cut (ang : Buffers_read -> nat -> float * float)
           (kp : Buffers_read -> nat -> bool)
  : Buffers_read -> nat -> Buffers_write -> option Buffers_write :=
  fun r Np w => Some (push_all r (ang r) (filter (kp r) (seq 0 Np)) w).

(** The batch of a rank after the cut of step [s], from the rank number
    and the batch it held before. *)
Definition cut_of (reader : string -> nat -> nat * Buffers_read)
           (ang : Buffers_read -> nat -> float * float)
           (kp : Buffers_read -> nat -> bool)
           (s : string) (rw : nat * Buffers_write) : Buffers_write :=
  push_all (snd (reader s (fst rw))) (ang (snd (reader s (fst rw))))
           (filter (kp (snd (reader s (fst rw))))
                   (seq 0 (fst (reader s (fst rw)))))
           (snd rw).

(** Word index at which the segment of rank [j] starts when the segments
    [segs] of the ranks are laid one after the other. *)
Definition segment_start (segs : list (list word)) (j : nat) : nat :=
  length (concat (firstn j segs)).

(** The writes of the ranks [order], in that order, each rank putting its
    segment at its start. *)
Definition segment_writes (segs : list (list word)) (order : list nat)
           (fl : file) : file :=
  fold_left (fun fl' j => pwrite (4 * Z.of_nat (segment_start segs j))
                                 (nth j segs []) fl')
            order fl.

(** Word [i] of [fl] exists and is the word the rank-major file has there. *)
Definition word_placed (segs : list (list word)) (fl : file) (i : nat) : Prop :=
  (i < length fl)%nat /\ nth i fl W_hole = nth i (concat segs) W_hole.

(** One of the two writes a rank makes to the id file: [(rank, false)] is
    the first one in program order, [(rank, true)] the second. *)
Definition id_write (ws : list Buffers_write) (e : nat * bool) (fl : file)
  : file :=
  let ops := filter (fun op => String.eqb (op_field op) "id")
                    (write_ops (fst e) (nth (fst e) ws Buffers_write_new)) in
  match nth_error ops (if snd e then 1 else 0) with
  | Some op => run_op fl op
  | None => fl
  end.

(** The batches of the two-process scenario after the offset exchange. *)
Definition three_five_batches : list Buffers_write :=
  match processLC "lc" "out/" 2 three_five_reader ["487"]%string
                  octant_theta_cut octant_phi_cut [] with
  | Ok g => g_w g
  | Throw _ => []
  end.

(** ** Vocabulary for the cut loop *)

(** Position of record [n] of the partition. *)
Definition record_position (r : Buffers_read) (n : nat) : vec :=
  [nth n (r_x r) 0; nth n (r_y r) 0; nth n (r_z r) 0].

(** The angles of a position, in arcseconds: the polar angle from the
    z-axis and the azimuth from the x-axis. *)
Definition sky_angles (v : vec) : float * float :=
  (acos (at1 v 2 / sqrt (at1 v 0 * at1 v 0 + at1 v 1 * at1 v 1
                         + at1 v 2 * at1 v 2)) * 180 / PI * 3600,
   atan (at1 v 1 / at1 v 0) * 180 / PI * 3600).

(** [idx] lists, in ascending order and once each, the records below [Np]
    that satisfy [P]. *)
Definition lists_records (Np : nat) (P : nat -> Prop) (idx : list nat)
  : Prop :=
  Sorted.StronglySorted lt idx /\
  forall n, In n idx <-> (n < Np)%nat /\ P n.

(** The batch [w'] is the batch [w] followed by the records [idx] of [r],
    in the order of [idx], each with its angles [ang]; the layout vectors
    are those of [w]. *)
Definition batch_extended (r : Buffers_read) (ang : nat -> float * float)
           (idx : list nat) (w w' : Buffers_write) : Prop :=
  w_theta w' = w_theta w ++ map (fun n => fst (ang n)) idx /\
  w_phi w' = w_phi w ++ map (fun n => snd (ang n)) idx /\
  w_x w' = w_x w ++ map (fun n => nth n (r_x r) 0) idx /\
  w_y w' = w_y w ++ map (fun n => nth n (r_y r) 0) idx /\
  w_z w' = w_z w ++ map (fun n => nth n (r_z r) 0) idx /\
  w_vx w' = w_vx w ++ map (fun n => nth n (r_vx r) 0) idx /\
  w_vy w' = w_vy w ++ map (fun n => nth n (r_vy r) 0) idx /\
  w_vz w' = w_vz w ++ map (fun n => nth n (r_vz r) 0) idx /\
  w_a w' = w_a w ++ map (fun n => nth n (r_a r) 0) idx /\
  w_id w' = w_id w ++ map (fun n => nth n (r_id r) 0%Z) idx /\
  w_rotation w' = w_rotation w ++ map (fun n => nth n (r_rotation r) 0%Z) idx /\
  w_replication w' =
    w_replication w ++ map (fun n => nth n (r_replication r) 0%Z) idx /\
  w_step w' = w_step w /\
  np_count w' = np_count w /\ np_offset w' = np_offset w.

(** The selection of the claim for record [n] with position [v] after the
    rotation, if any: raw position in the open positive octant and the
    angles of [v] strictly inside the window. *)
Definition record_selected (theta_cut phi_cut : vec) (r : Buffers_read)
           (v : nat -> vec) (n : nat) : Prop :=
  selected theta_cut phi_cut r n (fst (sky_angles (v n))) (snd (sky_angles (v n))).

(** ** Vocabulary for util.cpp *)

Import UtilRest.

Definition halo_row : Type := string * string * string * string.
Definition row_tokens (r : halo_row) : list string :=
  let '(id, x, y, z) := r in [id; x; y; z].
Definition row_id (r : halo_row) : string := let '(id, _, _, _) := r in id.
Definition row_position (strtof : string -> float) (r : halo_row) : list float :=
  let '(_, x, y, z) := r in [strtof x; strtof y; strtof z].

(** The characters of a name none of which is a digit. *)
Definition digit_free (s : string) : Prop :=
  Forall (fun c => is_digit c = false) (list_ascii_of_string s).

(** A string that does not go on with a digit. *)
Definition no_leading_digit (s : string) : Prop :=
  match s with
  | EmptyString => True
  | String c _ => is_digit c = false
  end.

(** The step numbers [getLCSteps] finds in a directory listing. *)
Definition steps_available (names : list string) : list Z :=
  stepsAvail_of (filter (contains "lc") names).

(** [top] is the largest available step below [maxStep]. *)
Definition top_step (maxStep : Z) (avail : list Z) (top : Z) : Prop :=
  In top avail /\ (top < maxStep)%Z /\
  forall t, In t avail -> (t < maxStep)%Z -> (t <= top)%Z.

(** The steps [getLCSteps] selects from distinct available ones: those
    below the top step with no available step at or below [minStep]
    between them and the top. *)
Definition step_selected (maxStep minStep : Z) (avail : list Z) (s : Z)
  : Prop :=
  In s avail /\
  exists top, top_step maxStep avail top /\ (s < top)%Z /\
              forall t, In t avail -> (s < t < top)%Z -> (minStep < t)%Z.

(** [sub] occurs in [s]. *)
Definition occurs_in (sub s : string) : Prop :=
  exists a b, s = (a ++ sub ++ b)%string.

(** The names [getLCFile] takes for header files. *)
Definition header_name (n : string) : Prop :=
  occurs_in "lc" n /\ ~ occurs_in "#" n.

(** An [isdigit] whose value on a digit is 1. *)
Definition isdigit_one (c : ascii) : Z := if is_digit c then 1%Z else 0%Z.


(** * Properties *)

(** ** Comparisons *)

Lemma fgt_true (a b : float) : fgt a b = true <-> b < a.
Proof.
  unfold fgt. destruct (Rlt_dec b a); split; intros; auto; discriminate.
Qed.

Lemma flt_true (a b : float) : flt a b = true <-> a < b.
Proof.
  unfold flt. destruct (Rlt_dec a b); split; intros; auto; discriminate.
Qed.

Lemma first_octant_true (r : Buffers_read) (n : nat) :
  first_octant r n = true <->
  0 < nth n (r_x r) 0 /\ 0 < nth n (r_y r) 0 /\ 0 < nth n (r_z r) 0.
Proof.
  unfold first_octant. rewrite !andb_true_iff, !fgt_true. tauto.
Qed.

Lemma inside_cut_true (theta_cut phi_cut : vec) (theta phi : float) :
  inside_cut theta_cut phi_cut theta phi = true <->
  at1 theta_cut 0 < theta /\ theta < at1 theta_cut 1 /\
  at1 phi_cut 0 < phi /\ phi < at1 phi_cut 1.
Proof.
  unfold inside_cut. rewrite !andb_true_iff, !fgt_true, !flt_true. tauto.
Qed.

(** ** The cut appends one record or nothing *)

Lemma push_back_record_grows r n theta phi w :
  length (w_a (push_back_record r n theta phi w)) = S (length (w_a w)).
Proof.
  simpl. rewrite length_app. simpl. lia.
Qed.

Lemma push_back_record_neq r n theta phi w :
  push_back_record r n theta phi w <> w.
Proof.
  intros E. pose proof (push_back_record_grows r n theta phi w) as H.
  rewrite E in H. lia.
Qed.

(** [rotate] does not abort on a three-component axis and position. *)
Lemma rotate_defined k B x y z :
  length k = 3%nat ->
  exists a b c, rotate k B [x; y; z] [] = Some [a; b; c].
Proof.
  intros H. unfold rotate, cross, dot. rewrite H.
  cbn [app length nth Nat.eqb negb seq map].
  do 3 eexists. reflexivity.
Qed.

Lemma angles_rotated_defined k B r n :
  length k = 3%nat ->
  exists theta phi, angles_rotated k B r n = Some (theta, phi).
Proof.
  intros H. unfold angles_rotated.
  destruct (rotate_defined k B (nth n (r_x r) 0) (nth n (r_y r) 0)
                           (nth n (r_z r) 0) H)
    as (a & b & c & E).
  rewrite E. do 2 eexists. reflexivity.
Qed.

Lemma selected_test theta_cut phi_cut r n theta phi :
  selected theta_cut phi_cut r n theta phi <->
  first_octant r n && inside_cut theta_cut phi_cut theta phi = true.
Proof.
  unfold selected.
  rewrite andb_true_iff, first_octant_true, inside_cut_true. tauto.
Qed.

Lemma cut_record_cases theta_cut phi_cut r n w :
  cut_record theta_cut phi_cut r n w =
  if first_octant r n &&
     inside_cut theta_cut phi_cut (fst (angles_raw r n)) (snd (angles_raw r n))
  then push_back_record r n (fst (angles_raw r n)) (snd (angles_raw r n)) w
  else w.
Proof.
  unfold cut_record. destruct (first_octant r n); simpl; [|reflexivity].
  destruct (angles_raw r n) as [theta phi]; reflexivity.
Qed.

Lemma cut_record_halo_cases k B theta_cut phi_cut r n w theta phi :
  angles_rotated k B r n = Some (theta, phi) ->
  cut_record_halo k B theta_cut phi_cut r n w =
  Some (if first_octant r n && inside_cut theta_cut phi_cut theta phi
        then push_back_record r n theta phi w
        else w).
Proof.
  intros E. unfold cut_record_halo. rewrite E.
  destruct (first_octant r n); simpl; [|reflexivity].
  destruct (inside_cut theta_cut phi_cut theta phi); reflexivity.
Qed.

(** ** Cells of a vector *)

Lemma list_set_length {A : Type} (i : nat) (x : A) (l : list A) :
  length (list_set i x l) = length l.
Proof.
  revert i. induction l as [|h t IH]; intros [|i]; simpl; auto.
Qed.

Lemma list_set_nth_same {A : Type} (i : nat) (x d : A) (l : list A) :
  (i < length l)%nat -> nth i (list_set i x l) d = x.
Proof.
  revert i. induction l as [|h t IH]; intros [|i] H; simpl in *; try lia; auto.
  apply IH. lia.
Qed.

Lemma list_set_nth_other {A : Type} (i j : nat) (x d : A) (l : list A) :
  i <> j -> nth j (list_set i x l) d = nth j l d.
Proof.
  revert i j. induction l as [|h t IH]; intros [|i] [|j] H; simpl; auto; try lia.
Qed.

Lemma iv_set_get_same i x v :
  (i < length (vstore v))%nat -> iv_get i (iv_set i x v) = x.
Proof. intros H. unfold iv_get, iv_set. simpl. now apply list_set_nth_same. Qed.

Lemma iv_set_get_other i j x v :
  i <> j -> iv_get j (iv_set i x v) = iv_get j v.
Proof. intros H. unfold iv_get, iv_set. simpl. now apply list_set_nth_other. Qed.

Lemma iv_set_cells i x v :
  length (vstore (iv_set i x v)) = length (vstore v).
Proof. unfold iv_set. simpl. apply list_set_length. Qed.

Lemma iv_blit_cells src : forall i v,
  length (vstore (iv_blit i src v)) = length (vstore v).
Proof.
  induction src as [|x rest IH]; intros i v; simpl; auto.
  rewrite IH. apply iv_set_cells.
Qed.

Lemma iv_blit_size src : forall i v, vsize (iv_blit i src v) = vsize v.
Proof.
  induction src as [|x rest IH]; intros i v; simpl; auto.
  rewrite IH. reflexivity.
Qed.

Lemma iv_blit_get src : forall i v j,
  (i + length src <= length (vstore v))%nat ->
  iv_get j (iv_blit i src v) =
  if (Nat.leb i j && Nat.ltb j (i + length src))%bool
  then nth (j - i) src 0%Z else iv_get j v.
Proof.
  induction src as [|x rest IH]; intros i v j H; simpl in *.
  - destruct (Nat.leb_spec i j), (Nat.ltb_spec j (i + 0)); simpl; auto; lia.
  - rewrite IH by (rewrite iv_set_cells; lia).
    destruct (Nat.eq_dec j i) as [->|Hne].
    + rewrite iv_set_get_same by lia. rewrite Nat.sub_diag.
      destruct (Nat.leb_spec (S i) i), (Nat.ltb_spec i (S i + length rest));
        destruct (Nat.leb_spec i i), (Nat.ltb_spec i (i + S (length rest)));
        simpl; try lia; reflexivity.
    + rewrite iv_set_get_other by lia.
      destruct (Nat.leb_spec (S i) j), (Nat.ltb_spec j (S i + length rest));
        destruct (Nat.leb_spec i j), (Nat.ltb_spec j (i + S (length rest)));
        simpl; try lia; try reflexivity.
      replace (j - i)%nat with (S (j - S i)) by lia. reflexivity.
Qed.

Lemma wrap32_small (z : Z) :
  (- 2147483648 <= z <= INT_MAX)%Z -> wrap32 z = z.
Proof.
  unfold wrap32, INT_MAX. intros H.
  rewrite Z.mod_small by lia. lia.
Qed.

(** ** The offset loop *)

(** The three accesses of one turn of the offset loop, at a reported size. *)
Lemma offset_loop_spec (c : ivec) : forall cnt start o tr,
  (1 <= start)%nat ->
  (start + cnt <= length (vstore o))%nat ->
  exists o',
    fold_left (offset_loop_body c) (seq start cnt) (o, tr) =
    (o', tr ++ flat_map
                 (fun j => [ {| acc_vec := NpOffset; acc_index := j - 1;
                                acc_size := vsize o |};
                             {| acc_vec := NpCount; acc_index := j - 1;
                                acc_size := vsize c |};
                             {| acc_vec := NpOffset; acc_index := j;
                                acc_size := vsize o |} ])
                 (seq start cnt)) /\
    length (vstore o') = length (vstore o) /\
    vsize o' = vsize o /\
    (forall i, (i < start)%nat -> iv_get i o' = iv_get i o) /\
    (forall i, (start <= i < start + cnt)%nat ->
               iv_get i o' = int_add (iv_get (i - 1) o') (iv_get (i - 1) c)).
Proof.
  induction cnt as [|cnt IH]; intros start o tr Hs Hl.
  - exists o. simpl. rewrite app_nil_r. repeat split; auto. intros; lia.
  - simpl.
    destruct (IH (S start)
                 (iv_set start (int_add (iv_get (start - 1) o)
                                        (iv_get (start - 1) c)) o)
                 (tr ++ [ {| acc_vec := NpOffset; acc_index := start - 1;
                             acc_size := vsize o |};
                          {| acc_vec := NpCount; acc_index := start - 1;
                             acc_size := vsize c |};
                          {| acc_vec := NpOffset; acc_index := start;
                             acc_size := vsize o |} ]))
      as (o' & Ef & Hlen & Hsz & Hlow & Hrec).
    { lia. }
    { rewrite iv_set_cells. lia. }
    exists o'. rewrite Ef. rewrite iv_set_cells in Hlen.
    split; [|split; [|split; [|split]]]; auto.
    + f_equal. rewrite <- app_assoc. reflexivity.
    + intros i Hi. rewrite Hlow by lia. apply iv_set_get_other. lia.
    + intros i Hi. destruct (Nat.eq_dec i start) as [->|Hne].
      * rewrite (Hlow start) by lia. rewrite iv_set_get_same by lia.
        rewrite (Hlow (start - 1)%nat) by lia.
        rewrite iv_set_get_other by lia. reflexivity.
      * apply Hrec. lia.
Qed.

Lemma offset_loop_trace (c : ivec) : forall l o tr,
  snd (fold_left (offset_loop_body c) l (o, tr)) =
  tr ++ flat_map
          (fun j => [ {| acc_vec := NpOffset; acc_index := j - 1;
                         acc_size := vsize o |};
                      {| acc_vec := NpCount; acc_index := j - 1;
                         acc_size := vsize c |};
                      {| acc_vec := NpOffset; acc_index := j;
                         acc_size := vsize o |} ]) l.
Proof.
  induction l as [|j l IH]; intros o tr; simpl.
  - now rewrite app_nil_r.
  - rewrite IH. simpl. rewrite <- app_assoc. reflexivity.
Qed.

Lemma offset_exchange_trace numranks gathered w :
  snd (offset_exchange numranks gathered w) = offset_phase_accesses numranks 0.
Proof.
  unfold offset_exchange, offset_phase_accesses. cbv zeta.
  match goal with
  | |- context [fold_left (offset_loop_body ?c) ?l (?o1, ?t1)] =>
      pose proof (offset_loop_trace c l o1 t1) as H;
      destruct (fold_left (offset_loop_body c) l (o1, t1)) as [o2 tr3]
  end.
  simpl in H. simpl. rewrite H.
  rewrite iv_blit_size. simpl. reflexivity.
Qed.

Lemma offset_exchange_layout numranks gathered w :
  (1 <= numranks)%nat ->
  length gathered = numranks ->
  length (vstore (np_count w)) = numranks ->
  length (vstore (np_offset w)) = numranks ->
  let w' := fst (offset_exchange numranks gathered w) in
  (forall i, (i < numranks)%nat -> iv_get i (np_count w') = nth i gathered 0%Z) /\
  iv_get 0 (np_offset w') = 0%Z /\
  (forall i, (0 < i < numranks)%nat ->
             iv_get i (np_offset w') =
             int_add (iv_get (i - 1) (np_offset w')) (iv_get (i - 1) (np_count w'))) /\
  length (vstore (np_count w')) = numranks /\
  length (vstore (np_offset w')) = numranks /\
  vsize (np_count w') = 0%nat /\ vsize (np_offset w') = 0%nat.
Proof.
  intros Hn Hg Hc Ho. unfold offset_exchange.
  destruct (offset_loop_spec (iv_blit 0 gathered (iv_clear (np_count w)))
              (numranks - 1) 1 (iv_set 0 0%Z (iv_clear (np_offset w)))
              ([ {| acc_vec := NpOffset; acc_index := 0;
                    acc_size := vsize (iv_clear (np_offset w)) |} ] ++
               map (fun j => {| acc_vec := NpCount; acc_index := j;
                                acc_size := vsize (iv_clear (np_count w)) |})
                   (seq 0 numranks)))
    as (o' & Ef & Hlen & Hsz & Hlow & Hrec).
  { lia. }
  { rewrite iv_set_cells. simpl. lia. }
  rewrite Ef. cbv zeta. simpl fst. simpl np_count. simpl np_offset.
  rewrite iv_set_cells in Hlen. simpl in Hlen, Hsz.
  split; [|split; [|split; [|split; [|split; [|split]]]]].
  - intros i Hi. rewrite iv_blit_get by (simpl; lia).
    destruct (Nat.leb_spec 0 i), (Nat.ltb_spec i (0 + length gathered));
      simpl; try lia.
    now rewrite Nat.sub_0_r.
  - rewrite Hlow by lia. apply iv_set_get_same. simpl. lia.
  - intros i Hi. apply Hrec. lia.
  - rewrite iv_blit_cells. simpl. exact Hc.
  - lia.
  - rewrite iv_blit_size. reflexivity.
  - exact Hsz.
Qed.

Lemma total_firstn_le (l : list Z) (i : nat) :
  Forall (fun c => 0 <= c)%Z l ->
  (0 <= total (firstn i l) <= total l)%Z.
Proof.
  intros H. revert i. induction H as [|c l Hc Hl IH]; intros [|i]; simpl;
    try lia.
  - specialize (IH 0%nat). simpl in IH. lia.
  - specialize (IH i). lia.
Qed.

Lemma total_firstn_succ (l : list Z) (i : nat) :
  (i < length l)%nat ->
  total (firstn (S i) l) = (total (firstn i l) + nth i l 0)%Z.
Proof.
  revert i. induction l as [|c l IH]; intros [|i] H; simpl in *; try lia.
  specialize (IH i ltac:(lia)). simpl in IH. lia.
Qed.

(** Without overflow the offsets are the exclusive prefix sums. *)
Lemma offset_exchange_prefix numranks gathered w :
  (1 <= numranks)%nat ->
  length gathered = numranks ->
  length (vstore (np_count w)) = numranks ->
  length (vstore (np_offset w)) = numranks ->
  Forall (fun c => 0 <= c)%Z gathered ->
  (total gathered <= INT_MAX)%Z ->
  forall i, (i < numranks)%nat ->
    iv_get i (np_offset (fst (offset_exchange numranks gathered w))) =
    total (firstn i gathered).
Proof.
  intros Hn Hg Hc Ho Hpos Hmax.
  destruct (offset_exchange_layout numranks gathered w Hn Hg Hc Ho)
    as (Hcnt & H0 & Hrec & _).
  induction i as [|i IH]; intros Hi.
  - exact H0.
  - rewrite Hrec by lia. replace (S i - 1)%nat with i by lia.
    rewrite IH by lia. rewrite Hcnt by lia.
    rewrite total_firstn_succ by lia.
    unfold int_add. apply wrap32_small.
    pose proof (total_firstn_le gathered (S i) Hpos) as B.
    rewrite total_firstn_succ in B by lia. unfold INT_MAX in *. lia.
Qed.

(** The cells of the allocation after the offset exchange of a step, on a
    rank whose two layout
    vectors hold [numranks] cells (as set up before the step loop), and with
    counts that are non-negative and sum to at most [INT_MAX]: cell 0 of the
    offsets is 0; every later cell is the previous offset plus the previous
    count; the counts are the gathered ones; both vectors still hold
    [numranks] cells; the offsets are non-decreasing in the rank. *)
Theorem write_layout_invariant :
  forall (numranks : nat) (gathered : list Z) (w : Buffers_write),
    (1 <= numranks)%nat ->
    length gathered = numranks ->
    length (vstore (np_count w)) = numranks ->
    length (vstore (np_offset w)) = numranks ->
    Forall (fun c => 0 <= c)%Z gathered ->
    (total gathered <= INT_MAX)%Z ->
    let w' := fst (offset_exchange numranks gathered w) in
    iv_get 0 (np_offset w') = 0%Z /\
    (forall i, (0 < i < numranks)%nat ->
               iv_get i (np_offset w') =
               (iv_get (i - 1) (np_offset w') + iv_get (i - 1) (np_count w'))%Z) /\
    (forall i, (i < numranks)%nat -> iv_get i (np_count w') = nth i gathered 0%Z) /\
    length (vstore (np_count w')) = numranks /\
    length (vstore (np_offset w')) = numranks /\
    (forall i j, (i <= j < numranks)%nat ->
                 (iv_get i (np_offset w') <= iv_get j (np_offset w'))%Z).
Proof.
  intros numranks gathered w Hn Hg Hc Ho Hpos Hmax w'.
  destruct (offset_exchange_layout numranks gathered w Hn Hg Hc Ho)
    as (Hcnt & H0 & Hrec & Hlc & Hlo & _).
  pose proof (offset_exchange_prefix numranks gathered w Hn Hg Hc Ho Hpos Hmax)
    as Hpre.
  fold w' in Hcnt, H0, Hrec, Hlc, Hlo, Hpre.
  split; [exact H0|]. split; [|split; [exact Hcnt|split; [exact Hlc|split; [exact Hlo|]]]].
  - intros i Hi. rewrite (Hpre i) by lia. rewrite (Hpre (i - 1)%nat) by lia.
    rewrite Hcnt by lia.
    replace i with (S (i - 1)) at 1 by lia.
    apply total_firstn_succ. lia.
  - intros i j Hij. rewrite (Hpre i), (Hpre j) by lia.
    clear - Hij Hpos. destruct Hij as [Hij _].
    induction Hij as [|j Hij IH]; [lia|].
    destruct (Nat.lt_ge_cases j (length gathered)) as [Hlt|Hge].
    + rewrite total_firstn_succ by lia.
      assert (0 <= nth j gathered 0)%Z.
      { rewrite Forall_forall in Hpos. apply Hpos. now apply nth_In. }
      lia.
    + rewrite (@firstn_all2 _ (S j) gathered) by lia.
      rewrite (@firstn_all2 _ j gathered) in IH by lia. exact IH.
Qed.

Lemma write_layout_invariant_witness :
  let w' := fst (offset_exchange 2 [3; 5]%Z (setup_layout 2 Buffers_write_new)) in
  iv_get 0 (np_offset w') = 0%Z /\
  (forall i, (0 < i < 2)%nat ->
             iv_get i (np_offset w') =
             (iv_get (i - 1) (np_offset w') + iv_get (i - 1) (np_count w'))%Z) /\
  (forall i, (i < 2)%nat -> iv_get i (np_count w') = nth i [3; 5]%Z 0%Z) /\
  length (vstore (np_count w')) = 2%nat /\
  length (vstore (np_offset w')) = 2%nat /\
  (forall i j, (i <= j < 2)%nat ->
               (iv_get i (np_offset w') <= iv_get j (np_offset w'))%Z).
Proof.
  apply (write_layout_invariant 2 [3; 5]%Z (setup_layout 2 Buffers_write_new)).
  - lia.
  - reflexivity.
  - reflexivity.
  - reflexivity.
  - repeat constructor; lia.
  - vm_compute. discriminate.
Defined.

Lemma iv_blit_vsize (src : list Z) : forall i v,
  vsize (iv_blit i src v) = vsize v.
Proof.
  induction src as [|x src IH]; intros i v; cbn [iv_blit]; [reflexivity|].
  now rewrite IH.
Qed.

Lemma offset_loop_vsize (c : ivec) (js : list nat) : forall o tr,
  vsize (fst (fold_left (offset_loop_body c) js (o, tr))) = vsize o.
Proof.
  induction js as [|j js IH]; intros o tr; cbn [fold_left]; [reflexivity|].
  unfold offset_loop_body at 2. now rewrite IH.
Qed.

(** C4, what the code does.  The layout vectors after the offset exchange, measured by the size
    they report: [np_count.clear()] and [np_offset.clear()] come first and
    nothing resizes the vectors afterwards, so for every number of ranks
    and whatever counts are gathered both vectors report no entry at all,
    and every index into them, [np_offset[0]] included, lies beyond their
    end. *)
Theorem write_layout_vectors_report_no_entries :
  forall (numranks : nat) (gathered : list Z) (w : Buffers_write),
    let w' := fst (offset_exchange numranks gathered w) in
    vsize (np_count w') = 0%nat /\
    vsize (np_offset w') = 0%nat /\
    forall i,
      in_bounds {| acc_vec := NpCount; acc_index := i;
                   acc_size := vsize (np_count w') |} = false /\
      in_bounds {| acc_vec := NpOffset; acc_index := i;
                   acc_size := vsize (np_offset w') |} = false.
Proof.
  intros numranks gathered w. cbv zeta.
  assert (Hc : vsize (np_count (fst (offset_exchange numranks gathered w)))
               = 0%nat).
  { unfold offset_exchange. cbv zeta.
    destruct (fold_left _ _ _) as [o2 tr3]. cbn [fst set_layout np_count].
    now rewrite iv_blit_vsize. }
  assert (Ho : vsize (np_offset (fst (offset_exchange numranks gathered w)))
               = 0%nat).
  { unfold offset_exchange. cbv zeta.
    destruct (fold_left _ _ _) as [o2 tr3] eqn:E.
    cbn [fst set_layout np_offset].
    replace o2 with (fst (fold_left
      (offset_loop_body (iv_blit 0 gathered (iv_clear (np_count w))))
      (seq 1 (numranks - 1))
      (iv_set 0 0%Z (iv_clear (np_offset w)),
       [{| acc_vec := NpOffset; acc_index := 0;
           acc_size := vsize (iv_clear (np_offset w)) |}]
       ++ map (fun j => {| acc_vec := NpCount; acc_index := j;
                           acc_size := vsize (iv_clear (np_count w)) |})
              (seq 0 numranks)))) by now rewrite E.
    now rewrite offset_loop_vsize. }
  split; [exact Hc|]. split; [exact Ho|].
  intros i. rewrite Hc, Ho. split; reflexivity.
Qed.

(** The layout of the two-process scenario: counts [3,5], offsets [0,3]. *)
Example layout_3_5 :
  let w' := fst (offset_exchange 2 [3; 5]%Z (setup_layout 2 Buffers_write_new)) in
  vstore (np_count w') = [3; 5]%Z /\ vstore (np_offset w') = [0; 3]%Z.
Proof. vm_compute. split; reflexivity. Qed.

(** ** Indexing after [clear()] *)

Lemma offset_phase_accesses_size numranks sz :
  Forall (fun a => acc_size a = sz) (offset_phase_accesses numranks sz).
Proof.
  unfold offset_phase_accesses. rewrite !Forall_app. repeat split.
  - repeat constructor.
  - rewrite Forall_map. apply Forall_forall. intros; reflexivity.
  - rewrite Forall_flat_map. apply Forall_forall. intros j _.
    repeat constructor.
Qed.

(** C5, what the code does.  In the offset phase of every step, on every
    rank and for every group size, each indexed access to the count and
    offset vectors (the write of [offset[0]], the receive cells
    [count[0..numranks-1]], the reads and writes of the offset loop) is made
    while the vector reports size 0, because both vectors were cleared just
    before and are not resized: no access is within the reported bounds. *)
Theorem offset_phase_indexes_cleared_vectors :
  forall (numranks : nat) (gathered : list Z) (w : Buffers_write),
    let tr := snd (offset_exchange numranks gathered w) in
    tr = offset_phase_accesses numranks 0 /\
    In {| acc_vec := NpOffset; acc_index := 0; acc_size := 0 |} tr /\
    Forall (fun a => acc_size a = 0%nat /\ in_bounds a = false) tr.
Proof.
  intros numranks gathered w tr. subst tr.
  rewrite offset_exchange_trace. split; [reflexivity|]. split.
  - unfold offset_phase_accesses. simpl. now left.
  - eapply Forall_impl; [|apply offset_phase_accesses_size].
    intros a Ha. split; [exact Ha|].
    unfold in_bounds. rewrite Ha. apply Nat.ltb_ge. lia.
Qed.

(** Two processes, first step: the vectors hold two cells each, report size
    0, and are indexed at 0 and 1. *)
Example cleared_vectors_two_ranks :
  let w := setup_layout 2 Buffers_write_new in
  vsize (np_offset w) = 2%nat /\
  snd (offset_exchange 2 [3; 5]%Z w) =
  [ {| acc_vec := NpOffset; acc_index := 0; acc_size := 0 |};
    {| acc_vec := NpCount; acc_index := 0; acc_size := 0 |};
    {| acc_vec := NpCount; acc_index := 1; acc_size := 0 |};
    {| acc_vec := NpOffset; acc_index := 0; acc_size := 0 |};
    {| acc_vec := NpCount; acc_index := 0; acc_size := 0 |};
    {| acc_vec := NpOffset; acc_index := 1; acc_size := 0 |} ] /\
  forallb in_bounds (snd (offset_exchange 2 [3; 5]%Z w)) = false.
Proof. vm_compute. repeat split; reflexivity. Qed.

(** ** Association lists and names *)

Lemma assoc_get_set_same {A : Type} (k : string) (v : A) (l : list (string * A)) :
  assoc_get k (assoc_set k v l) = Some v.
Proof.
  induction l as [|[k' v'] t IH]; simpl.
  - now rewrite String.eqb_refl.
  - destruct (String.eqb k k') eqn:E; simpl.
    + now rewrite String.eqb_refl.
    + now rewrite E.
Qed.

Lemma assoc_get_set_other {A : Type} (k k0 : string) (v : A)
      (l : list (string * A)) :
  k0 <> k -> assoc_get k0 (assoc_set k v l) = assoc_get k0 l.
Proof.
  intros N. induction l as [|[k' v'] t IH]; simpl.
  - destruct (String.eqb_spec k0 k); [contradiction|reflexivity].
  - destruct (String.eqb_spec k k') as [->|Hk]; simpl.
    + destruct (String.eqb_spec k0 k'); [contradiction|reflexivity].
    + destruct (String.eqb_spec k0 k'); [reflexivity|exact IH].
Qed.

Lemma append_cancel_l (p s1 s2 : string) :
  (p ++ s1)%string = (p ++ s2)%string -> s1 = s2.
Proof.
  induction p as [|c p IH]; simpl; intros H; [exact H|].
  injection H as H. auto.
Qed.

Lemma step_subdir_name_inj subdirPrefix out_dir s1 s2 :
  step_subdir_name subdirPrefix out_dir s1 =
  step_subdir_name subdirPrefix out_dir s2 -> s1 = s2.
Proof.
  unfold step_subdir_name. intros H.
  apply append_cancel_l in H. apply append_cancel_l in H.
  apply (append_cancel_l "Cutout" s1 s2). exact H.
Qed.

(** ** The step at z = 0 *)

Section Skip.

Variables (subdirPrefix out_dir : string) (numranks : nat).
Variable reader : string -> nat -> nat * Buffers_read.
Variable cutting : Buffers_read -> nat -> Buffers_write -> option Buffers_write.

Lemma step_iteration_skips (s : string) (g : group) :
  atoi s = 499%Z ->
  step_iteration subdirPrefix out_dir numranks reader cutting s g = Ok g.
Proof.
  intros H. unfold step_iteration. rewrite H. reflexivity.
Qed.

(** An iteration touches no directory but the one named after its step. *)
Lemma step_iteration_other_dirs (s : string) (g g' : group) (dir : string) :
  step_iteration subdirPrefix out_dir numranks reader cutting s g = Ok g' ->
  dir <> step_subdir_name subdirPrefix out_dir s ->
  assoc_get dir (g_fs g') = assoc_get dir (g_fs g).
Proof.
  unfold step_iteration. intros H N.
  destruct (atoi s =? 499)%Z.
  - injection H as <-. reflexivity.
  - unfold open_step_subdir in H.
    destruct (assoc_get (step_subdir_name subdirPrefix out_dir s) (g_fs g))
      as [[|e d]|] eqn:E; try discriminate;
      match type of H with
      | match sequence ?c with _ => _ end = _ => destruct (sequence c)
      end; try discriminate; injection H as <-; simpl;
      rewrite !assoc_get_set_other by exact N; reflexivity.
Qed.

Lemma step_loop_skips_dir (s : string) :
  atoi s = 499%Z ->
  forall (steps : list string) (g g' : group),
    step_loop subdirPrefix out_dir numranks reader cutting steps g = Ok g' ->
    assoc_get (step_subdir_name subdirPrefix out_dir s) (g_fs g') =
    assoc_get (step_subdir_name subdirPrefix out_dir s) (g_fs g).
Proof.
  intros Hs. induction steps as [|s' rest IH]; simpl; intros g g' H.
  - injection H as <-. reflexivity.
  - destruct (step_iteration subdirPrefix out_dir numranks reader cutting s' g)
      as [g1|msg] eqn:E; [|discriminate].
    rewrite (IH g1 g' H).
    destruct (Z.eqb_spec (atoi s') 499) as [H499|Hn].
    + rewrite step_iteration_skips in E by exact H499. injection E as <-.
      reflexivity.
    + eapply step_iteration_other_dirs; [exact E|].
      intros C. apply step_subdir_name_inj in C. subst s'. contradiction.
Qed.

Lemma step_loop_filter (steps : list string) : forall g,
  step_loop subdirPrefix out_dir numranks reader cutting steps g =
  step_loop subdirPrefix out_dir numranks reader cutting
            (filter (fun s => negb (atoi s =? 499)%Z) steps) g.
Proof.
  induction steps as [|s rest IH]; intros g; simpl; [reflexivity|].
  destruct (Z.eqb_spec (atoi s) 499) as [H|H]; simpl.
  - rewrite step_iteration_skips by exact H. apply IH.
  - destruct (step_iteration subdirPrefix out_dir numranks reader cutting s g);
      [apply IH|reflexivity].
Qed.

End Skip.

(** C8. A step string that reads as 499, the step at z = 0, is skipped by
    the loop of both pipelines: its iteration returns the state of the group
    unchanged, a run gives the result it gives with such steps struck from
    the list, and after any run that ends normally the directory named after
    that step is as it was before the run (absent if it was absent, and
    holding no new file). *)
Theorem terminal_step_skipped :
  forall (subdirPrefix out_dir : string) (numranks : nat)
         (reader : string -> nat -> nat * Buffers_read) (s : string),
    atoi s = 499%Z ->
    (forall cutting g,
        step_iteration subdirPrefix out_dir numranks reader cutting s g = Ok g) /\
    (forall steps theta_cut phi_cut fs,
        processLC subdirPrefix out_dir numranks reader steps theta_cut phi_cut fs =
        processLC subdirPrefix out_dir numranks reader
                  (filter (fun s' => negb (atoi s' =? 499)%Z) steps)
                  theta_cut phi_cut fs) /\
    (forall steps halo_pos boxLength fs,
        processLC_halo subdirPrefix out_dir numranks reader steps halo_pos boxLength fs =
        processLC_halo subdirPrefix out_dir numranks reader
                       (filter (fun s' => negb (atoi s' =? 499)%Z) steps)
                       halo_pos boxLength fs) /\
    (forall steps theta_cut phi_cut fs g,
        processLC subdirPrefix out_dir numranks reader steps theta_cut phi_cut fs
        = Ok g ->
        assoc_get (step_subdir_name subdirPrefix out_dir s) (g_fs g) =
        assoc_get (step_subdir_name subdirPrefix out_dir s) fs) /\
    (forall steps halo_pos boxLength fs g,
        processLC_halo subdirPrefix out_dir numranks reader steps halo_pos
                       boxLength fs = Ok g ->
        assoc_get (step_subdir_name subdirPrefix out_dir s) (g_fs g) =
        assoc_get (step_subdir_name subdirPrefix out_dir s) fs).
Proof.
  intros subdirPrefix out_dir numranks reader s Hs.
  split; [|split; [|split; [|split]]].
  - intros cutting g. now apply step_iteration_skips.
  - intros. unfold processLC. apply step_loop_filter.
  - intros. unfold processLC_halo.
    destruct (halo_prepare halo_pos boxLength); [|reflexivity].
    apply step_loop_filter.
  - intros steps theta_cut phi_cut fs g H. unfold processLC in H.
    apply (step_loop_skips_dir _ _ _ _ _ s Hs) in H. exact H.
  - intros steps halo_pos boxLength fs g H. unfold processLC_halo in H.
    destruct (halo_prepare halo_pos boxLength); [|discriminate].
    apply (step_loop_skips_dir _ _ _ _ _ s Hs) in H. exact H.
Qed.

Lemma terminal_step_skipped_witness :
  atoi "499" = 499%Z /\
  forall cutting g,
    step_iteration "lc" "out/" 2 (fun _ _ => (0%nat,
      {| r_x := []; r_y := []; r_z := []; r_vx := []; r_vy := []; r_vz := [];
         r_a := []; r_id := []; r_step := []; r_rotation := [];
         r_replication := [] |})) cutting "499" g = Ok g.
Proof.
  split; [reflexivity|].
  apply (terminal_step_skipped "lc" "out/" 2 _ "499"). reflexivity.
Defined.

(** ** The cut is a stable filter *)

Lemma cut_record_keep theta_cut phi_cut r n w :
  cut_record theta_cut phi_cut r n w =
  if keep theta_cut phi_cut r n
  then push_back_record r n (fst (angles_raw r n)) (snd (angles_raw r n)) w
  else w.
Proof. apply cut_record_cases. Qed.

Lemma cut_record_halo_keep k B theta_cut phi_cut r n w :
  length k = 3%nat ->
  cut_record_halo k B theta_cut phi_cut r n w =
  Some (if keep_halo k B theta_cut phi_cut r n
        then push_back_record r n (fst (angles_halo k B r n))
                              (snd (angles_halo k B r n)) w
        else w).
Proof.
  intros Hk.
  destruct (angles_rotated_defined k B r n Hk) as (theta & phi & E).
  rewrite (cut_record_halo_cases k B theta_cut phi_cut r n w theta phi E).
  unfold keep_halo, angles_halo. rewrite E. reflexivity.
Qed.

Lemma do_cutting_filter theta_cut phi_cut r Np w :
  do_cutting theta_cut phi_cut r Np w =
  Some (push_all r (angles_raw r) (filter (keep theta_cut phi_cut r) (seq 0 Np)) w).
Proof.
  unfold do_cutting, push_all. f_equal.
  generalize (seq 0 Np) as l. intros l. revert w.
  induction l as [|n l IH]; intros w; simpl; [reflexivity|].
  rewrite cut_record_keep.
  destruct (keep theta_cut phi_cut r n); simpl; apply IH.
Qed.

Lemma do_cutting_halo_filter k B theta_cut phi_cut r Np w :
  length k = 3%nat ->
  do_cutting_halo k B theta_cut phi_cut r Np w =
  Some (push_all r (angles_halo k B r)
                 (filter (keep_halo k B theta_cut phi_cut r) (seq 0 Np)) w).
Proof.
  intros Hk. unfold do_cutting_halo, push_all.
  generalize (seq 0 Np) as l. intros l. revert w.
  induction l as [|n l IH]; intros w; simpl; [reflexivity|].
  rewrite cut_record_halo_keep by exact Hk.
  destruct (keep_halo k B theta_cut phi_cut r n); simpl; apply IH.
Qed.

(** Columns after appending the records at [idx]. *)
Lemma push_all_columns r ang idx : forall w,
  let w' := push_all r ang idx w in
  w_x w' = w_x w ++ map (fun n => nth n (r_x r) 0) idx /\
  w_y w' = w_y w ++ map (fun n => nth n (r_y r) 0) idx /\
  w_z w' = w_z w ++ map (fun n => nth n (r_z r) 0) idx /\
  w_vx w' = w_vx w ++ map (fun n => nth n (r_vx r) 0) idx /\
  w_vy w' = w_vy w ++ map (fun n => nth n (r_vy r) 0) idx /\
  w_vz w' = w_vz w ++ map (fun n => nth n (r_vz r) 0) idx /\
  w_a w' = w_a w ++ map (fun n => nth n (r_a r) 0) idx /\
  w_id w' = w_id w ++ map (fun n => nth n (r_id r) 0%Z) idx /\
  w_rotation w' = w_rotation w ++ map (fun n => nth n (r_rotation r) 0%Z) idx /\
  w_replication w' =
    w_replication w ++ map (fun n => nth n (r_replication r) 0%Z) idx /\
  w_theta w' = w_theta w ++ map (fun n => fst (ang n)) idx /\
  w_phi w' = w_phi w ++ map (fun n => snd (ang n)) idx /\
  w_step w' = w_step w /\
  np_count w' = np_count w /\ np_offset w' = np_offset w.
Proof.
  unfold push_all. induction idx as [|n idx IH]; intros w; simpl.
  - rewrite !app_nil_r. repeat split; reflexivity.
  - specialize (IH (push_back_record r n (fst (ang n)) (snd (ang n)) w)).
    simpl in IH. rewrite <- !app_assoc in IH. simpl in IH. exact IH.
Qed.

(** ** The cut loop over the partition *)

Lemma filter_seq_sorted (f : nat -> bool) (a n : nat) :
  Sorted.StronglySorted lt (filter f (seq a n)).
Proof.
  revert a. induction n as [|n IH]; intros a; cbn [seq filter];
    [constructor|].
  destruct (f a); [|apply IH].
  constructor; [apply IH|].
  apply Forall_forall. intros m Hm. apply filter_In in Hm.
  destruct Hm as [Hm _]. apply in_seq in Hm. lia.
Qed.

Lemma push_all_ext r (ang1 ang2 : nat -> float * float) idx :
  (forall n, In n idx -> ang1 n = ang2 n) ->
  forall w, push_all r ang1 idx w = push_all r ang2 idx w.
Proof.
  unfold push_all. induction idx as [|n idx IH]; intros Hext w;
    cbn [fold_left]; [reflexivity|].
  rewrite (Hext n (or_introl eq_refl)). apply IH.
  intros m Hm. apply Hext. now right.
Qed.

Lemma push_all_extended r ang idx w :
  batch_extended r ang idx w (push_all r ang idx w).
Proof.
  unfold batch_extended.
  pose proof (push_all_columns r ang idx w) as H. cbv zeta in H. tauto.
Qed.

Lemma angles_raw_sky r n : angles_raw r n = sky_angles (record_position r n).
Proof. reflexivity. Qed.

Lemma keep_selected theta_cut phi_cut r n :
  keep theta_cut phi_cut r n = true <->
  record_selected theta_cut phi_cut r (record_position r) n.
Proof.
  unfold keep, record_selected. rewrite selected_test, angles_raw_sky.
  reflexivity.
Qed.

Lemma angles_halo_sky k B r n v :
  rotate k B (record_position r n) [] = Some v ->
  angles_halo k B r n = sky_angles v.
Proof.
  intros E. unfold angles_halo, angles_rotated.
  change [nth n (r_x r) 0; nth n (r_y r) 0; nth n (r_z r) 0]
    with (record_position r n).
  rewrite E. reflexivity.
Qed.

Lemma selected_strict theta_cut phi_cut r n theta phi :
  theta = at1 theta_cut 0 \/ theta = at1 theta_cut 1 ->
  ~ selected theta_cut phi_cut r n theta phi.
Proof. unfold selected. intros [E|E] H; lra. Qed.

(** C1. The cut loop over the [Np] records of the local partition, in both
    pipelines: the batch after the loop is the batch before it followed by
    the records appended, each once and in the order of the partition, and
    record [n] is among them exactly when its raw position has x, y, z > 0
    and its angles lie strictly between the two theta bounds and the two
    phi bounds.  The angles are those of the raw position in the
    fixed-window pipeline and those of the position that [rotate] returns
    in the halo pipeline (for the three-component axis of the setup); they
    are the values stored with the record.  A record whose theta equals a
    theta bound is not appended. *)
Theorem cut_appends_iff_selected :
  forall (theta_cut phi_cut : vec) (r : Buffers_read) (Np : nat)
         (w : Buffers_write),
    (exists idx w',
        do_cutting theta_cut phi_cut r Np w = Some w' /\
        lists_records Np (record_selected theta_cut phi_cut r
                                          (record_position r)) idx /\
        batch_extended r (fun n => sky_angles (record_position r n)) idx w w' /\
        forall n, fst (sky_angles (record_position r n)) = at1 theta_cut 0 \/
                  fst (sky_angles (record_position r n)) = at1 theta_cut 1 ->
                  ~ In n idx) /\
    (forall (k : vec) (B : float),
        length k = 3%nat ->
        exists rot idx w',
          (forall n, rotate k B (record_position r n) [] = Some (rot n)) /\
          do_cutting_halo k B theta_cut phi_cut r Np w = Some w' /\
          lists_records Np (record_selected theta_cut phi_cut r rot) idx /\
          batch_extended r (fun n => sky_angles (rot n)) idx w w' /\
          forall n, fst (sky_angles (rot n)) = at1 theta_cut 0 \/
                    fst (sky_angles (rot n)) = at1 theta_cut 1 ->
                    ~ In n idx).
Proof.
  intros theta_cut phi_cut r Np w. split.
  - exists (filter (keep theta_cut phi_cut r) (seq 0 Np)).
    eexists. split; [apply do_cutting_filter|].
    assert (Hmem : forall n,
               In n (filter (keep theta_cut phi_cut r) (seq 0 Np)) <->
               (n < Np)%nat /\
               record_selected theta_cut phi_cut r (record_position r) n).
    { intros n. rewrite filter_In, in_seq, keep_selected.
      split; intros [H1 H2]; (split; [lia|exact H2]). }
    split; [split; [apply filter_seq_sorted|exact Hmem]|].
    split.
    + rewrite (push_all_ext r (angles_raw r)
                 (fun n => sky_angles (record_position r n)))
        by (intros; apply angles_raw_sky).
      apply push_all_extended.
    + intros n Hb Hin. apply Hmem in Hin. destruct Hin as [_ Hsel].
      exact (selected_strict _ _ _ _ _ _ Hb Hsel).
  - intros k B Hk.
    set (rot := fun n => match rotate k B (record_position r n) [] with
                         | Some v => v
                         | None => []
                         end).
    assert (Hrot : forall n, rotate k B (record_position r n) [] = Some (rot n)).
    { intros n. unfold rot.
      destruct (rotate_defined k B (nth n (r_x r) 0) (nth n (r_y r) 0)
                               (nth n (r_z r) 0) Hk) as (a & b & c & E).
      unfold record_position. now rewrite E. }
    assert (Hang : forall n, angles_halo k B r n = sky_angles (rot n)).
    { intros n. apply angles_halo_sky, Hrot. }
    exists rot, (filter (keep_halo k B theta_cut phi_cut r) (seq 0 Np)).
    eexists. split; [exact Hrot|].
    split; [apply do_cutting_halo_filter; exact Hk|].
    assert (Hmem : forall n,
               In n (filter (keep_halo k B theta_cut phi_cut r) (seq 0 Np)) <->
               (n < Np)%nat /\ record_selected theta_cut phi_cut r rot n).
    { intros n. rewrite filter_In, in_seq.
      unfold keep_halo, record_selected. rewrite selected_test, Hang.
      split; intros [H1 H2]; (split; [lia|exact H2]). }
    split; [split; [apply filter_seq_sorted|exact Hmem]|].
    split.
    + rewrite (push_all_ext r (angles_halo k B r)
                 (fun n => sky_angles (rot n)))
        by (intros; apply Hang).
      apply push_all_extended.
    + intros n Hb Hin. apply Hmem in Hin. destruct Hin as [_ Hsel].
      exact (selected_strict _ _ _ _ _ _ Hb Hsel).
Qed.

Lemma cut_appends_iff_selected_witness :
  exists rot idx w',
    (forall n, rotate [0; 0; 1] 0 (record_position (particles_at_111 [7%Z]) n) []
               = Some (rot n)) /\
    do_cutting_halo [0; 0; 1] 0 octant_theta_cut octant_phi_cut
                    (particles_at_111 [7%Z]) 1 Buffers_write_new = Some w' /\
    lists_records 1 (record_selected octant_theta_cut octant_phi_cut
                                     (particles_at_111 [7%Z]) rot) idx /\
    batch_extended (particles_at_111 [7%Z]) (fun n => sky_angles (rot n)) idx
                   Buffers_write_new w' /\
    forall n, fst (sky_angles (rot n)) = at1 octant_theta_cut 0 \/
              fst (sky_angles (rot n)) = at1 octant_theta_cut 1 ->
              ~ In n idx.
Proof.
  exact (proj2 (cut_appends_iff_selected octant_theta_cut octant_phi_cut
                  (particles_at_111 [7%Z]) 1 Buffers_write_new)
               [0; 0; 1] 0 eq_refl).
Defined.

(** ** A window that holds the whole positive octant *)

Lemma arcsec_scale_bounds (a lo hi : R) :
  lo * PI < a < hi * PI ->
  lo * 648000 < a * 180 / PI * ARCSEC < hi * 648000.
Proof.
  intros [H1 H2]. pose proof PI_RGT_0 as HP. unfold ARCSEC.
  replace (a * 180 / PI * 3600) with (a / PI * 648000) by (field; lra).
  assert (lo < a / PI).
  { apply Rmult_lt_reg_r with PI; [exact HP|].
    unfold Rdiv. rewrite Rmult_assoc, Rinv_l by lra. lra. }
  assert (a / PI < hi).
  { apply Rmult_lt_reg_r with PI; [exact HP|].
    unfold Rdiv. rewrite Rmult_assoc, Rinv_l by lra. lra. }
  lra.
Qed.

Lemma radius_above_z (x y z : R) :
  0 < x -> 0 < y -> 0 < z -> z < sqrt (x * x + y * y + z * z).
Proof.
  intros Hx Hy Hz.
  rewrite <- (sqrt_square z) at 1 by lra.
  apply sqrt_lt_1_alt. nra.
Qed.

Lemma octant_angles_in_range (x y z : R) :
  0 < x -> 0 < y -> 0 < z ->
  0 < theta_arcsec x y z < 648000 /\ -324000 < phi_arcsec x y < 324000.
Proof.
  intros Hx Hy Hz. unfold theta_arcsec, phi_arcsec. cbv zeta.
  pose proof (radius_above_z x y z Hx Hy Hz) as Hr.
  set (r := sqrt (x * x + y * y + z * z)) in *.
  assert (Hq : -1 < z / r < 1).
  { assert (0 < z / r) by (apply Rdiv_lt_0_compat; lra).
    split; [lra|].
    apply Rmult_lt_reg_r with r; [lra|].
    unfold Rdiv. rewrite Rmult_assoc, Rinv_l by lra. lra. }
  pose proof (acos_bound_lt (z / r) Hq) as Ha.
  pose proof (atan_bound (y / x)) as Hb.
  split.
  - destruct (arcsec_scale_bounds (acos (z / r)) 0 1) as [A B]; lra.
  - destruct (arcsec_scale_bounds (atan (y / x)) (-1/2) (1/2)) as [A B]; lra.
Qed.

(** ** One iteration, with the cut spelled out *)

Lemma sequence_map_Some {A B : Type} (f : A -> B) (l : list A) :
  sequence (map (fun x => Some (f x)) l) = Some (map f l).
Proof.
  induction l as [|a l IH]; simpl; [reflexivity|]. now rewrite IH.
Qed.

(** ** Particles at (1,1,1) under the octant window *)

Lemma nth_map_const {A B : Type} (c d : B) (l : list A) (n : nat) :
  (n < length l)%nat -> nth n (map (fun _ => c) l) d = c.
Proof.
  revert n. induction l as [|a l IH]; intros [|n] H; simpl in *; try lia; auto.
  apply IH. lia.
Qed.

Lemma keep_at_111 (ids : list Z) (n : nat) :
  (n < length ids)%nat ->
  keep octant_theta_cut octant_phi_cut (particles_at_111 ids) n = true.
Proof.
  intros H. unfold keep, first_octant, angles_raw. simpl.
  rewrite !(nth_map_const 1 0 ids n H).
  destruct (octant_angles_in_range 1 1 1) as [[A1 A2] [B1 B2]]; try lra.
  rewrite !andb_true_iff, !fgt_true. split; [repeat split; lra|].
  apply inside_cut_true. unfold octant_theta_cut, octant_phi_cut, at1. simpl.
  repeat split; assumption.
Qed.

Lemma filter_keep_at_111 (ids : list Z) :
  filter (keep octant_theta_cut octant_phi_cut (particles_at_111 ids))
         (seq 0 (length ids)) = seq 0 (length ids).
Proof.
  apply forallb_filter_id. apply forallb_forall. intros n Hn.
  apply in_seq in Hn. apply keep_at_111. lia.
Qed.

Lemma do_cutting_at_111 (ids : list Z) (w : Buffers_write) :
  do_cutting octant_theta_cut octant_phi_cut (particles_at_111 ids) (length ids) w =
  keep_all (particles_at_111 ids) (length ids) w.
Proof.
  rewrite do_cutting_filter, filter_keep_at_111. reflexivity.
Qed.

Section CuttingExt.

Variables (subdirPrefix out_dir : string) (numranks : nat).
Variable reader : string -> nat -> nat * Buffers_read.
Variables cutting1 cutting2
  : Buffers_read -> nat -> Buffers_write -> option Buffers_write.

Hypothesis cutting_agree :
  forall s rank w,
    cutting1 (snd (reader s rank)) (fst (reader s rank)) w =
    cutting2 (snd (reader s rank)) (fst (reader s rank)) w.

Lemma step_iteration_cutting_ext (s : string) (g : group) :
  step_iteration subdirPrefix out_dir numranks reader cutting1 s g =
  step_iteration subdirPrefix out_dir numranks reader cutting2 s g.
Proof.
  unfold step_iteration.
  destruct (atoi s =? 499)%Z; [reflexivity|].
  destruct (open_step_subdir (step_subdir_name subdirPrefix out_dir s) (g_fs g));
    [|reflexivity].
  erewrite map_ext; [reflexivity|].
  intros [rank w]. simpl fst. simpl snd.
  specialize (cutting_agree s rank w).
  destruct (reader s rank) as [Np r]. exact cutting_agree.
Qed.

Lemma step_loop_cutting_ext (steps : list string) : forall g,
  step_loop subdirPrefix out_dir numranks reader cutting1 steps g =
  step_loop subdirPrefix out_dir numranks reader cutting2 steps g.
Proof.
  induction steps as [|s rest IH]; intros g; simpl; [reflexivity|].
  rewrite step_iteration_cutting_ext.
  destruct (step_iteration subdirPrefix out_dir numranks reader cutting2 s g);
    [apply IH|reflexivity].
Qed.

End CuttingExt.

(** ** Runs on concrete inputs *)

Lemma one_particle_reader_cut s rank w :
  do_cutting octant_theta_cut octant_phi_cut
             (snd (one_particle_reader s rank)) (fst (one_particle_reader s rank)) w =
  keep_all (snd (one_particle_reader s rank)) (fst (one_particle_reader s rank)) w.
Proof. apply (do_cutting_at_111 [atoi s]). Qed.

Lemma three_five_reader_cut s rank w :
  do_cutting octant_theta_cut octant_phi_cut
             (snd (three_five_reader s rank)) (fst (three_five_reader s rank)) w =
  keep_all (snd (three_five_reader s rank)) (fst (three_five_reader s rank)) w.
Proof.
  destruct rank as [|rank]; simpl.
  - apply (do_cutting_at_111 [1; 2; 3]%Z).
  - apply (do_cutting_at_111 [4; 5; 6; 7; 8]%Z).
Qed.

(** The count a rank announces is the size of its whole batch: what it held
    before the step plus what the step added. *)
Lemma cutout_size_accumulates r ang idx w :
  cutout_size (push_all r ang idx w) =
  wrap32 (Z.of_nat (length (w_a w) + length idx)).
Proof.
  unfold cutout_size.
  destruct (push_all_columns r ang idx w) as (_ & _ & _ & _ & _ & _ & Ha & _).
  rewrite Ha, length_app, length_map. reflexivity.
Qed.

(** C3, what the code does.  One process, steps 1 and 2, one particle per
    step (its id is the step number), both inside the window.  Step 2
    selects one record, the one with id 2; the count announced in step 2 is
    2, the batch holds ids 1 and 2, and the id file of step 2 holds both:
    the record of step 1 is carried over, because the batch is declared
    before the step loop and never emptied. *)
Theorem batch_carries_previous_steps :
  let run := processLC "lc" "out/" 1 one_particle_reader ["1"; "2"]%string
                       octant_theta_cut octant_phi_cut [] in
  one_particle_reader "2" 0 = (1%nat, particles_at_111 [2%Z]) /\
  observed_ranks run = Some [([1; 2]%Z, [2]%Z, [0]%Z)] /\
  observed_file "out/lcCutout2" "id.2.bin" run =
  Some [W_id_fst 1; W_id_snd 1; W_id_fst 2; W_id_snd 2] /\
  observed_file "out/lcCutout2" "rotation.2.bin" run = Some [W_int 1; W_int 2].
Proof.
  cbv zeta. unfold processLC.
  rewrite (step_loop_cutting_ext "lc" "out/" 1 one_particle_reader
             (do_cutting octant_theta_cut octant_phi_cut) keep_all
             one_particle_reader_cut).
  split; [reflexivity|]. split; [|split]; lazy; reflexivity.
Qed.

(** C2, what the code does.  On every rank the id buffer is written twice
    to the id file: once as [count] eight-byte elements at byte offset
    [8 * offset[rank]], and once more as [count] four-byte elements at byte
    offset [4 * offset[rank]].  With two processes holding ids 1,2,3 and
    4,5,6,7,8 the second write of the second process lands on words 3 to 7
    of the file, so the file is not the sequence of the eight ids. *)
Theorem id_buffer_written_twice :
  (forall (rank : nat) (w : Buffers_write),
      filter (fun op => String.eqb (op_field op) "id") (write_ops rank w) =
      [ {| op_field := "id";
           op_seek := (8 * iv_get rank (np_offset w))%Z;
           op_buf := image_id (w_id w);
           op_count := length (w_id w);
           op_type := MPI_INT64_T |};
        {| op_field := "id";
           op_seek := (4 * iv_get rank (np_offset w))%Z;
           op_buf := image_id (w_id w);
           op_count := length (w_id w);
           op_type := MPI_FLOAT |} ]) /\
  let run := processLC "lc" "out/" 2 three_five_reader ["487"]%string
                       octant_theta_cut octant_phi_cut [] in
  observed_file "out/lcCutout487" "id.487.bin" run =
  Some [ W_id_fst 1; W_id_snd 1; W_id_fst 2; W_id_fst 4;
         W_id_snd 4; W_id_fst 5; W_id_snd 5; W_id_fst 6;
         W_id_fst 5; W_id_snd 5; W_id_fst 6; W_id_snd 6;
         W_id_fst 7; W_id_snd 7; W_id_fst 8; W_id_snd 8 ] /\
  observed_file "out/lcCutout487" "id.487.bin" run <>
  Some (image_id [1; 2; 3; 4; 5; 6; 7; 8]%Z).
Proof.
  split; [intros rank w; reflexivity|].
  cbv zeta. unfold processLC.
  rewrite (step_loop_cutting_ext "lc" "out/" 2 three_five_reader
             (do_cutting octant_theta_cut octant_phi_cut) keep_all
             three_five_reader_cut).
  split; [lazy; reflexivity|]. lazy. discriminate.
Qed.

(** C6, what the code does.  Two processes select 3 and 5 records; counts
    are [3,5] and offsets [0,3] on both ranks.  The rotation file holds the
    eight records in rank-major order.  The id file does not: the third id
    of the first process is gone, and the two words of the first id of the
    second process hold halves of other ids, both overwritten by the
    four-byte rewrite of the id buffer. *)
Theorem id_file_not_rank_major :
  let run := processLC "lc" "out/" 2 three_five_reader ["487"]%string
                       octant_theta_cut octant_phi_cut [] in
  observed_ranks run =
  Some [ ([1; 2; 3]%Z, [3; 5]%Z, [0; 3]%Z);
         ([4; 5; 6; 7; 8]%Z, [3; 5]%Z, [0; 3]%Z) ] /\
  observed_file "out/lcCutout487" "rotation.487.bin" run =
  Some (image_int ([1; 2; 3] ++ [4; 5; 6; 7; 8])%Z) /\
  (exists f, observed_file "out/lcCutout487" "id.487.bin" run = Some f /\
             length f = 16%nat /\
             ~ In (W_id_fst 3) f /\ ~ In (W_id_snd 3) f /\
             nth 6 f W_hole <> W_id_fst 4 /\
             f <> image_id ([1; 2; 3] ++ [4; 5; 6; 7; 8])%Z).
Proof.
  cbv zeta. unfold processLC.
  rewrite (step_loop_cutting_ext "lc" "out/" 2 three_five_reader
             (do_cutting octant_theta_cut octant_phi_cut) keep_all
             three_five_reader_cut).
  split; [lazy; reflexivity|]. split; [lazy; reflexivity|].
  eexists. split; [lazy; reflexivity|].
  split; [reflexivity|].
  split; [|split; [|split]].
  - simpl. intros H. repeat (destruct H as [H|H]; [discriminate|]). exact H.
  - simpl. intros H. repeat (destruct H as [H|H]; [discriminate|]). exact H.
  - simpl. discriminate.
  - simpl. discriminate.
Qed.

(** ** The window of the halo pipeline *)

Lemma halo_prepare_cuts halo_pos boxLength hs :
  halo_prepare halo_pos boxLength = Some hs ->
  let dtheta := atan (boxLength / 2 / halo_radius halo_pos) in
  hs_theta_cut hs = [ (PI / 2 - dtheta) * 180 / PI * ARCSEC;
                      (PI / 2 + dtheta) * 180 / PI * ARCSEC ] /\
  hs_phi_cut hs = [ (0 - dtheta) * 180 / PI * ARCSEC;
                    (0 + dtheta) * 180 / PI * ARCSEC ].
Proof.
  unfold halo_prepare. intros H.
  destruct (normCross halo_pos [halo_radius halo_pos; 0; 0] []); [|discriminate].
  injection H as <-. simpl. split; reflexivity.
Qed.

Lemma halo_prepare_axis_length halo_pos boxLength hs :
  halo_prepare halo_pos boxLength = Some hs -> length (hs_k hs) = 3%nat.
Proof.
  unfold halo_prepare, normCross, cross. intros H.
  destruct (Nat.eqb_spec (length halo_pos) (length [halo_radius halo_pos; 0; 0]))
    as [E|E]; simpl in H; [|discriminate].
  injection H as <-. simpl. rewrite length_map, length_seq. exact E.
Qed.

(** C7. In the halo pipeline, with [r] the length of the halo position and
    [dtheta = atan((boxLength/2)/r)], the window is theta in
    (90 deg - dtheta, 90 deg + dtheta) and phi in (-dtheta, dtheta), each
    bound being the angle in degrees times 3600, and the test of the cut is
    the strict test against these four bounds. *)
Theorem halo_window_formula :
  forall (halo_pos : vec) (boxLength : float) (hs : halo_setup),
    halo_prepare halo_pos boxLength = Some hs ->
    let r := sqrt (at1 halo_pos 0 * at1 halo_pos 0 +
                   at1 halo_pos 1 * at1 halo_pos 1 +
                   at1 halo_pos 2 * at1 halo_pos 2) in
    let dtheta := atan (boxLength / 2 / r) in
    hs_theta_cut hs = [ (90 - degrees dtheta) * 3600;
                        (90 + degrees dtheta) * 3600 ] /\
    hs_phi_cut hs = [ (- degrees dtheta) * 3600; degrees dtheta * 3600 ] /\
    (forall theta phi,
        inside_cut (hs_theta_cut hs) (hs_phi_cut hs) theta phi = true <->
        (90 - degrees dtheta) * 3600 < theta < (90 + degrees dtheta) * 3600 /\
        (- degrees dtheta) * 3600 < phi < degrees dtheta * 3600).
Proof.
  intros halo_pos boxLength hs H r dtheta.
  destruct (halo_prepare_cuts halo_pos boxLength hs H) as [Ht Hp].
  fold r in Ht, Hp. unfold halo_radius in Ht, Hp. fold r in Ht, Hp.
  fold dtheta in Ht, Hp.
  pose proof PI_RGT_0 as HP.
  assert (Et : hs_theta_cut hs = [ (90 - degrees dtheta) * 3600;
                                   (90 + degrees dtheta) * 3600 ]).
  { rewrite Ht. unfold degrees, ARCSEC. f_equal; [|f_equal]; field; lra. }
  assert (Ep : hs_phi_cut hs = [ (- degrees dtheta) * 3600;
                                 degrees dtheta * 3600 ]).
  { rewrite Hp. unfold degrees, ARCSEC. f_equal; [|f_equal]; field; lra. }
  split; [exact Et|]. split; [exact Ep|].
  intros theta phi. rewrite inside_cut_true, Et, Ep. unfold at1. simpl. tauto.
Qed.

Lemma halo_at_100_radius : halo_radius [100; 0; 0] = 100.
Proof.
  unfold halo_radius, at1. simpl.
  replace (100 * 100 + 0 * 0 + 0 * 0) with (100 * 100) by ring.
  apply sqrt_square. lra.
Qed.

Lemma halo_prepare_100_2 :
  exists hs, halo_prepare [100; 0; 0] 2 = Some hs.
Proof.
  unfold halo_prepare, normCross, cross. simpl. eexists. reflexivity.
Qed.

Lemma halo_window_formula_witness :
  exists hs,
    halo_prepare [100; 0; 0] 2 = Some hs /\
    hs_theta_cut hs = [ (90 - degrees (atan (2 / 2 / 100))) * 3600;
                        (90 + degrees (atan (2 / 2 / 100))) * 3600 ] /\
    hs_phi_cut hs = [ (- degrees (atan (2 / 2 / 100))) * 3600;
                      degrees (atan (2 / 2 / 100)) * 3600 ].
Proof.
  destruct halo_prepare_100_2 as [hs H]. exists hs. split; [exact H|].
  destruct (halo_window_formula [100; 0; 0] 2 hs H) as (Ht & Hp & _).
  fold (halo_radius [100; 0; 0]) in Ht, Hp.
  rewrite halo_at_100_radius in Ht, Hp. split; assumption.
Defined.

(** *** The numbers of the halo at (100,0,0) with box length 2 *)

Lemma atan_series_bounds (x : R) (N : nat) :
  0 < x < 1 ->
  sum_f_R0 (tg_alt (Ratan_seq x)) (S (2 * N)) <= atan x <=
  sum_f_R0 (tg_alt (Ratan_seq x)) (2 * N).
Proof.
  intros Hx.
  assert (Hx' : 0 <= x <= 1) by lra.
  rewrite atan_eq_ps_atan by exact Hx.
  unfold ps_atan. destruct (Ratan.in_int x) as [Hi|Hn]; [|exfalso; apply Hn; lra].
  destruct (ps_atan_exists_1 x Hi) as [v Pv].
  apply (alternated_series_ineq (Ratan_seq x) v N).
  - apply Ratan_seq_decreasing; exact Hx'.
  - apply Ratan_seq_converging; exact Hx'.
  - exact Pv.
Qed.

Lemma PI_bounds : 3.1415 < PI < 3.1416.
Proof.
  pose proof (PI_2_3_7_ineq 3) as [L U].
  unfold sum_f_R0, tg_alt, PI_2_3_7_tg, Ratan_seq in L, U.
  simpl in L, U.
  split; lra.
Qed.

Lemma atan_hundredth : 0.0099996 < atan (1 / 100) < 0.01.
Proof.
  pose proof (atan_series_bounds (1 / 100) 1 ltac:(lra)) as [L U].
  unfold sum_f_R0, tg_alt, Ratan_seq in L, U. simpl in L, U.
  split; lra.
Qed.

Lemma degrees_atan_hundredth :
  0.5729 < degrees (atan (1 / 100)) < 0.573.
Proof.
  pose proof PI_bounds as [P1 P2]. pose proof atan_hundredth as [A1 A2].
  unfold degrees.
  replace (atan (1 / 100) * 180 / PI) with (atan (1 / 100) * 180 * / PI)
    by (unfold Rdiv; ring).
  assert (I1 : / 3.1416 < / PI) by (apply Rinv_lt_contravar; nra).
  assert (I2 : / PI < / 3.1415) by (apply Rinv_lt_contravar; nra).
  assert (J1 : 0.3183 < / 3.1416).
  { apply Rmult_lt_reg_r with 3.1416; [lra|]. rewrite Rinv_l; lra. }
  assert (J2 : / 3.1415 < 0.31833).
  { apply Rmult_lt_reg_r with 3.1415; [lra|]. rewrite Rinv_l; lra. }
  split; nra.
Qed.

(** The scenario of the spec: halo at (100,0,0), box length 2.  The
    half-angle is [atan(1/100)]; in degrees the theta window lies between
    89.427 and 90.573 and the phi window between -0.573 and 0.573, each
    bound within 0.0001 degree of the stated value. *)
Example halo_window_100_2 :
  exists hs,
    halo_prepare [100; 0; 0] 2 = Some hs /\
    89.427 < at1 (hs_theta_cut hs) 0 / ARCSEC < 89.4271 /\
    90.5729 < at1 (hs_theta_cut hs) 1 / ARCSEC < 90.573 /\
    -0.573 < at1 (hs_phi_cut hs) 0 / ARCSEC < -0.5729 /\
    0.5729 < at1 (hs_phi_cut hs) 1 / ARCSEC < 0.573.
Proof.
  destruct halo_prepare_100_2 as [hs H]. exists hs. split; [exact H|].
  destruct (halo_prepare_cuts [100; 0; 0] 2 hs H) as [Ht Hp].
  rewrite halo_at_100_radius in Ht, Hp.
  rewrite Ht, Hp. unfold at1, ARCSEC. cbn [nth].
  replace (2 / 2 / 100) with (1 / 100) by field.
  pose proof degrees_atan_hundredth as [D1 D2]. pose proof PI_RGT_0 as HP.
  unfold degrees in D1, D2.
  set (a := atan (1 / 100)) in *.
  replace ((PI / 2 - a) * 180 / PI * 3600 / 3600) with (90 - a * 180 / PI)
    by (field; lra).
  replace ((PI / 2 + a) * 180 / PI * 3600 / 3600) with (90 + a * 180 / PI)
    by (field; lra).
  replace ((0 - a) * 180 / PI * 3600 / 3600) with (- (a * 180 / PI))
    by (field; lra).
  replace ((0 + a) * 180 / PI * 3600 / 3600) with (a * 180 / PI)
    by (field; lra).
  repeat split; lra.
Qed.

(** ** The Rodrigues rotation *)

Lemma rodrigues_matrix_apply (k0 k1 k2 B x y z : R) :
  let kv := k0 * x + k1 * y + k2 * z in
  let kk := k0 * k0 + k1 * k1 + k2 * k2 in
  matVecMul (rodrigues_matrix [k0; k1; k2] B) [x; y; z] =
  Some [ x + sin B * (k1 * z - k2 * y) + (1 - cos B) * (k0 * kv - x * kk);
         y + sin B * (k2 * x - k0 * z) + (1 - cos B) * (k1 * kv - y * kk);
         z + sin B * (k0 * y - k1 * x) + (1 - cos B) * (k2 * kv - z * kk) ].
Proof.
  unfold rodrigues_matrix, rotation_matrix, cross_prod_matrix, matVecMul,
    squareMat, scalarMultiply, at2, at1.
  cbn [app length nth Nat.eqb negb seq map fold_left].
  cbv zeta. f_equal. f_equal; [|f_equal; [|f_equal]]; ring.
Qed.

Lemma rotate_apply (k0 k1 k2 B x y z : R) :
  let kv := k0 * x + k1 * y + k2 * z in
  rotate [k0; k1; k2] B [x; y; z] [] =
  Some [ x * cos B + (k1 * z - k2 * y) * sin B + k0 * kv * (1 - cos B);
         y * cos B + (k2 * x - k0 * z) * sin B + k1 * kv * (1 - cos B);
         z * cos B + (k0 * y - k1 * x) * sin B + k2 * kv * (1 - cos B) ].
Proof.
  unfold rotate, cross, dot, at1.
  cbn [app length nth Nat.eqb negb seq map fold_left].
  cbv zeta. f_equal. f_equal; [|f_equal; [|f_equal]]; ring.
Qed.

(** The two forms of the rotation agree for a unit axis. *)
Lemma rotate_is_matrix_for_unit_axis (k0 k1 k2 B x y z : R) :
  k0 * k0 + k1 * k1 + k2 * k2 = 1 ->
  rotate [k0; k1; k2] B [x; y; z] [] =
  matVecMul (rodrigues_matrix [k0; k1; k2] B) [x; y; z].
Proof.
  intros Hk. rewrite rotate_apply, rodrigues_matrix_apply. cbv zeta.
  rewrite Hk. f_equal. f_equal; [|f_equal; [|f_equal]]; ring.
Qed.

Lemma sin_cos_unit (B : R) : sin B * sin B + cos B * cos B = 1.
Proof. pose proof (sin2_cos2 B) as H. unfold Rsqr in H. exact H. Qed.

(** Algebra of the Rodrigues matrix: with a unit axis it preserves the
    squared length. *)
Lemma rodrigues_unit_axis_isometry (k0 k1 k2 s c x y z : R) :
  k0 * k0 + k1 * k1 + k2 * k2 = 1 ->
  s * s + c * c = 1 ->
  let kv := k0 * x + k1 * y + k2 * z in
  let kk := k0 * k0 + k1 * k1 + k2 * k2 in
  let X := x + s * (k1 * z - k2 * y) + (1 - c) * (k0 * kv - x * kk) in
  let Y := y + s * (k2 * x - k0 * z) + (1 - c) * (k1 * kv - y * kk) in
  let Z := z + s * (k0 * y - k1 * x) + (1 - c) * (k2 * kv - z * kk) in
  X * X + Y * Y + Z * Z = x * x + y * y + z * z.
Proof.
  intros Hk Hs kv kk X Y Z. subst kv kk X Y Z. nsatz.
Qed.

(** The axis [normCross] returns for two three-component vectors is the zero
    vector or a unit vector. *)
Lemma normCross_zero_or_unit (a0 a1 a2 b0 b1 b2 : R) :
  exists k0 k1 k2,
    normCross [a0; a1; a2] [b0; b1; b2] [] = Some [k0; k1; k2] /\
    ((k0 = 0 /\ k1 = 0 /\ k2 = 0) \/ k0 * k0 + k1 * k1 + k2 * k2 = 1).
Proof.
  unfold normCross, cross, inner_product, at1.
  cbn [app length nth Nat.eqb negb seq map fold_left].
  set (c0 := a1 * b2 - a2 * b1).
  set (c1 := - (a0 * b2 - a2 * b0)).
  set (c2 := a0 * b1 - a1 * b0).
  set (S := 0 + c0 * c0 + c1 * c1 + c2 * c2).
  unfold feq. destruct (Req_dec_T (sqrt S) 0) as [E|N].
  - do 3 eexists. split; [reflexivity|]. left. repeat split; reflexivity.
  - do 3 eexists. split; [reflexivity|]. right.
    assert (HS : 0 <= S) by (unfold S; nra).
    pose proof (sqrt_sqrt S HS) as Hm.
    set (m := sqrt S) in *.
    assert (E : c0 / m * (c0 / m) + c1 / m * (c1 / m) + c2 / m * (c2 / m)
                = S / (m * m)).
    { unfold S. field. exact N. }
    rewrite E, Hm. apply Rinv_r. rewrite <- Hm. nra.
Qed.

Lemma rodrigues_isometry_any (p0 p1 p2 : R) : rodrigues_isometry [p0; p1; p2].
Proof.
  unfold rodrigues_isometry. cbv zeta.
  destruct (normCross_zero_or_unit p0 p1 p2 (halo_radius [p0; p1; p2]) 0 0)
    as (k0 & k1 & k2 & Hn & Hk).
  exists [k0; k1; k2]. split; [exact Hn|].
  intros x y z. eexists. split; [apply rodrigues_matrix_apply|].
  cbv zeta. unfold norm3, at1. cbn [nth]. f_equal.
  destruct Hk as [(-> & -> & ->)|Hk].
  - ring.
  - apply rodrigues_unit_axis_isometry; [exact Hk|apply sin_cos_unit].
Qed.

Lemma halo_radius_sq (p0 p1 p2 : R) :
  0 <= halo_radius [p0; p1; p2] /\
  halo_radius [p0; p1; p2] * halo_radius [p0; p1; p2] =
  p0 * p0 + p1 * p1 + p2 * p2.
Proof.
  unfold halo_radius, at1. cbn [nth]. split.
  - apply sqrt_pos.
  - apply sqrt_sqrt. nra.
Qed.

Lemma vecPairAngle_pole (p0 p1 p2 r : R) :
  0 < r -> r * r = p0 * p0 + p1 * p1 + p2 * p2 ->
  vecPairAngle [p0; p1; p2] [r; 0; 0] = acos (p0 / r).
Proof.
  intros Hr Hrr. unfold vecPairAngle, inner_product, at1.
  cbn [app length nth Nat.eqb negb seq map fold_left].
  replace (0 + p0 * p0 + p1 * p1 + p2 * p2) with (r * r) by lra.
  replace (0 + r * r + 0 * 0 + 0 * 0) with (r * r) by ring.
  rewrite sqrt_square by lra.
  f_equal. field. lra.
Qed.

Lemma pole_angle_cos_sin (p0 p1 p2 r m : R) :
  0 < r -> r * r = p0 * p0 + p1 * p1 + p2 * p2 ->
  0 <= m -> m * m = p1 * p1 + p2 * p2 ->
  cos (acos (p0 / r)) = p0 / r /\ sin (acos (p0 / r)) = m / r.
Proof.
  intros Hr Hrr Hm Hmm.
  assert (Hc : -1 <= p0 / r <= 1).
  { assert (p0 / r * r = p0) by (field; lra).
    assert (- r <= p0 <= r) by nra.
    split.
    - apply Rmult_le_reg_r with r; [lra|]. lra.
    - apply Rmult_le_reg_r with r; [lra|]. lra. }
  split; [apply cos_acos; exact Hc|].
  rewrite sin_acos by exact Hc.
  replace (1 - (p0 / r)²) with ((m / r) * (m / r)).
  - apply sqrt_square. apply Rmult_le_pos; [lra|].
    apply Rlt_le, Rinv_0_lt_compat. lra.
  - unfold Rsqr. apply Rmult_eq_reg_r with (r * r); [|nra].
    field_simplify; [|lra|lra]. nra.
Qed.

Lemma normCross_pole_off_axis (p0 p1 p2 r m : R) :
  0 < r -> 0 < m -> m * m = p1 * p1 + p2 * p2 ->
  normCross [p0; p1; p2] [r; 0; 0] [] =
  Some [0; p2 / m; - p1 / m].
Proof.
  intros Hr Hm Hmm. unfold normCross, cross, inner_product, at1.
  cbn [app length nth Nat.eqb negb seq map fold_left].
  replace (0 + (p1 * 0 - p2 * 0) * (p1 * 0 - p2 * 0)
           + - (p0 * 0 - p2 * r) * - (p0 * 0 - p2 * r)
           + (p0 * 0 - p1 * r) * (p0 * 0 - p1 * r))
    with ((r * m) * (r * m)) by (rewrite <- Rmult_assoc; nra).
  rewrite sqrt_square by nra.
  unfold feq. destruct (Req_dec_T (r * m) 0) as [E|N]; [nra|].
  f_equal. f_equal; [|f_equal; [|f_equal]]; field; lra.
Qed.

Lemma normCross_pole_on_axis (p0 r : R) :
  normCross [p0; 0; 0] [r; 0; 0] [] = Some [0; 0; 0].
Proof.
  unfold normCross, cross, inner_product, at1.
  cbn [app length nth Nat.eqb negb seq map fold_left].
  replace (0 + (0 * 0 - 0 * 0) * (0 * 0 - 0 * 0)
           + - (p0 * 0 - 0 * r) * - (p0 * 0 - 0 * r)
           + (p0 * 0 - 0 * r) * (p0 * 0 - 0 * r))
    with 0 by ring.
  rewrite sqrt_0. unfold feq.
  destruct (Req_dec_T 0 0) as [E|N]; [reflexivity|contradiction].
Qed.

Lemma rodrigues_maps_to_pole_off_axis (p0 p1 p2 : R) :
  p1 <> 0 \/ p2 <> 0 ->
  let p := [p0; p1; p2] in
  let q := [halo_radius p; 0; 0] in
  exists k,
    normCross p q [] = Some k /\
    matVecMul (rodrigues_matrix k (vecPairAngle p q)) p = Some q.
Proof.
  intros Hp p q. subst p q.
  destruct (halo_radius_sq p0 p1 p2) as [Hr0 Hrr].
  set (r := halo_radius [p0; p1; p2]) in *.
  assert (Hpos : 0 < p1 * p1 + p2 * p2).
  { destruct Hp as [H|H]; nra. }
  assert (Hr : 0 < r) by nra.
  set (m := sqrt (p1 * p1 + p2 * p2)).
  assert (Hm : 0 < m) by (apply sqrt_lt_R0; exact Hpos).
  assert (Hmm : m * m = p1 * p1 + p2 * p2) by (apply sqrt_sqrt; lra).
  exists [0; p2 / m; - p1 / m].
  split; [apply normCross_pole_off_axis; assumption|].
  rewrite (vecPairAngle_pole p0 p1 p2 r Hr Hrr).
  rewrite rodrigues_matrix_apply. cbv zeta.
  destruct (pole_angle_cos_sin p0 p1 p2 r m Hr Hrr (Rlt_le _ _ Hm) Hmm) as [Hc Hs].
  rewrite Hc, Hs.
  f_equal. f_equal; [|f_equal; [|f_equal]].
  all: clearbody r m; (field_simplify_eq; [|split; lra]); clear - Hrr Hmm;
    assert (E1 : m ^ 2 = p1 ^ 2 + p2 ^ 2) by lra;
    assert (E2 : r ^ 2 = p0 ^ 2 + p1 ^ 2 + p2 ^ 2) by lra;
    rewrite ?E1, ?E2; ring.
Qed.

Lemma halo_radius_on_axis (a : R) : halo_radius [a; 0; 0] = Rabs a.
Proof.
  unfold halo_radius, at1. cbn [nth].
  replace (a * a + 0 * 0 + 0 * 0) with (a²) by (unfold Rsqr; ring).
  apply sqrt_Rsqr_abs.
Qed.

(** With the zero axis the Rodrigues matrix is the identity, whatever the
    angle. *)
Lemma rodrigues_zero_axis_apply (B x y z : R) :
  matVecMul (rodrigues_matrix [0; 0; 0] B) [x; y; z] = Some [x; y; z].
Proof.
  rewrite rodrigues_matrix_apply. cbv zeta.
  f_equal. f_equal; [|f_equal; [|f_equal]]; ring.
Qed.

Lemma rodrigues_maps_to_pole_positive_axis (a : R) :
  0 < a ->
  let p := [a; 0; 0] in
  let q := [halo_radius p; 0; 0] in
  normCross p q [] = Some [0; 0; 0] /\
  matVecMul (rodrigues_matrix [0; 0; 0] (vecPairAngle p q)) p = Some q.
Proof.
  intros Ha p q. subst p q. split; [apply normCross_pole_on_axis|].
  rewrite rodrigues_zero_axis_apply, halo_radius_on_axis, Rabs_pos_eq by lra.
  reflexivity.
Qed.

Lemma same_direction_refl (r : R) : same_direction [r; 0; 0] [r; 0; 0].
Proof.
  exists 1. split; [lra|]. simpl. f_equal; [|f_equal; [|f_equal]]; ring.
Qed.

(** What the matrix achieves.  For a halo position [p] other than the
    origin (where the code divides zero by zero), with the axis [k] of
    [normCross] and the angle [B] of
    [vecPairAngle] taken against the pole [q = (|p|, 0, 0)], the Rodrigues
    matrix of [rotation_matrix] preserves the length of every vector; and
    when [p] does not lie on the negative x-axis, it sends [p] onto [q]. *)
Theorem rodrigues_rotation_properties :
  forall p0 p1 p2 : float,
    p0 <> 0 \/ p1 <> 0 \/ p2 <> 0 ->
    rodrigues_isometry [p0; p1; p2] /\
    (0 < p0 \/ p1 <> 0 \/ p2 <> 0 -> rodrigues_aligns [p0; p1; p2]).
Proof.
  intros p0 p1 p2 _. split; [apply rodrigues_isometry_any|].
  intros H. unfold rodrigues_aligns. cbv zeta.
  destruct (Req_dec_T p1 0) as [E1|N1]; [destruct (Req_dec_T p2 0) as [E2|N2]|].
  - subst p1 p2. assert (Hp : 0 < p0) by (destruct H as [H|[H|H]]; lra).
    destruct (rodrigues_maps_to_pole_positive_axis p0 Hp) as [Hk Hm].
    exists [0; 0; 0], [halo_radius [p0; 0; 0]; 0; 0].
    split; [exact Hk|]. split; [exact Hm|]. apply same_direction_refl.
  - destruct (rodrigues_maps_to_pole_off_axis p0 p1 p2 (or_intror N2))
      as (k & Hk & Hm).
    exists k, [halo_radius [p0; p1; p2]; 0; 0].
    split; [exact Hk|]. split; [exact Hm|]. apply same_direction_refl.
  - destruct (rodrigues_maps_to_pole_off_axis p0 p1 p2 (or_introl N1))
      as (k & Hk & Hm).
    exists k, [halo_radius [p0; p1; p2]; 0; 0].
    split; [exact Hk|]. split; [exact Hm|]. apply same_direction_refl.
Qed.

Lemma rodrigues_rotation_properties_witness :
  (3 <> 0 \/ 4 <> 0 \/ 0 <> 0) /\
  rodrigues_isometry [3; 4; 0] /\ rodrigues_aligns [3; 4; 0].
Proof.
  assert (H : 3 <> 0 \/ 4 <> 0 \/ 0 <> 0) by (left; lra).
  split; [exact H|].
  destruct (rodrigues_rotation_properties 3 4 0 H) as [Hi Ha].
  split; [exact Hi|]. apply Ha. left. lra.
Defined.


(** The vector form of the rotation that the spec gives for [rotate] is not
    the matrix form on the zero axis: at angle [PI] it turns (-1,0,0) into
    (1,0,0), where the matrix leaves it. *)
Example rotate_forms_differ_on_zero_axis :
  rotate [0; 0; 0] PI [-1; 0; 0] [] = Some [1; 0; 0] /\
  matVecMul (rodrigues_matrix [0; 0; 0] PI) [-1; 0; 0] = Some [-1; 0; 0].
Proof.
  split; [|apply rodrigues_zero_axis_apply].
  rewrite rotate_apply. cbv zeta. rewrite cos_PI, sin_PI.
  f_equal. f_equal; [|f_equal; [|f_equal]]; ring.
Qed.

(** ** A halo on the positive x-axis *)

Lemma vecPairAngle_positive_axis (a : R) :
  0 < a -> vecPairAngle [a; 0; 0] [halo_radius [a; 0; 0]; 0; 0] = 0.
Proof.
  intros Ha. rewrite halo_radius_on_axis, Rabs_pos_eq by lra.
  rewrite (vecPairAngle_pole a 0 0 a Ha) by ring.
  replace (a / a) with 1 by (field; lra). apply acos_1.
Qed.

Lemma rodrigues_matrix_identity :
  rodrigues_matrix [0; 0; 0] 0 = [[1; 0; 0]; [0; 1; 0]; [0; 0; 1]].
Proof.
  unfold rodrigues_matrix, rotation_matrix, cross_prod_matrix,
    squareMat, scalarMultiply, at2, at1.
  cbn [app length nth seq map fold_left]. rewrite sin_0, cos_0.
  repeat (f_equal; try ring).
Qed.

(** C10. If the halo position is [(a,0,0)] with [a > 0], then the axis
    [normCross] computes is the zero vector, the angle [vecPairAngle]
    computes is 0, the Rodrigues matrix of [rotation_matrix] is the identity
    matrix, and applying it to a position vector returns the vector. *)
Theorem positive_axis_halo_identity :
  forall a : float,
    0 < a ->
    let p := [a; 0; 0] in
    let q := [halo_radius p; 0; 0] in
    normCross p q [] = Some [0; 0; 0] /\
    vecPairAngle p q = 0 /\
    rodrigues_matrix [0; 0; 0] (vecPairAngle p q) =
      [[1; 0; 0]; [0; 1; 0]; [0; 0; 1]] /\
    (forall x y z,
        matVecMul (rodrigues_matrix [0; 0; 0] (vecPairAngle p q)) [x; y; z]
        = Some [x; y; z]).
Proof.
  intros a Ha p q. subst p q.
  rewrite (vecPairAngle_positive_axis a Ha).
  split; [apply normCross_pole_on_axis|]. split; [reflexivity|].
  split; [apply rodrigues_matrix_identity|].
  intros x y z. apply rodrigues_zero_axis_apply.
Qed.

(** The same for [rotate], in the form the spec gives it: with the zero
    axis and the zero angle it returns the position it is given. *)
Lemma rotate_identity_on_positive_axis (a x y z : float) :
  0 < a ->
  rotate [0; 0; 0] (vecPairAngle [a; 0; 0] [halo_radius [a; 0; 0]; 0; 0])
         [x; y; z] [] = Some [x; y; z].
Proof.
  intros Ha. rewrite (vecPairAngle_positive_axis a Ha).
  rewrite rotate_apply. cbv zeta. rewrite sin_0, cos_0.
  f_equal. f_equal; [|f_equal; [|f_equal]]; ring.
Qed.

Lemma positive_axis_halo_identity_witness :
  0 < 100 /\
  normCross [100; 0; 0] [halo_radius [100; 0; 0]; 0; 0] [] = Some [0; 0; 0] /\
  vecPairAngle [100; 0; 0] [halo_radius [100; 0; 0]; 0; 0] = 0.
Proof.
  assert (H : 0 < 100) by lra.
  split; [exact H|].
  destruct (positive_axis_halo_identity 100 H) as (Hk & HB & _).
  split; [exact Hk|exact HB].
Defined.

(** ** Files after the write phase *)

Lemma append_cancel_r (s1 s2 t : string) :
  (s1 ++ t)%string = (s2 ++ t)%string -> s1 = s2.
Proof.
  intros H.
  assert (L : forall a b, String.length (a ++ b)%string
                          = (String.length a + String.length b)%nat).
  { induction a as [|c a IH]; intros b; simpl; [reflexivity|]. now rewrite IH. }
  assert (Hl : String.length s1 = String.length s2).
  { apply (f_equal String.length) in H. rewrite !L in H. lia. }
  revert s2 H Hl. induction s1 as [|c s1 IH]; intros [|c2 s2] H Hl;
    simpl in *; try discriminate; [reflexivity|].
  injection H as -> H. f_equal. apply IH; [exact H|lia].
Qed.

Lemma bin_name_inj (f1 f2 : string) (step : Z) :
  bin_name f1 step = bin_name f2 step -> f1 = f2.
Proof. unfold bin_name. apply append_cancel_r. Qed.

Lemma bin_name_eqb (f1 f2 : string) (step : Z) :
  String.eqb (bin_name f1 step) (bin_name f2 step) = String.eqb f1 f2.
Proof.
  destruct (String.eqb_spec f1 f2) as [->|N].
  - apply String.eqb_refl.
  - apply String.eqb_neq. intros E. apply N. eapply bin_name_inj; eauto.
Qed.

Lemma apply_write_get (step : Z) (d : directory) (op : write_op) (f : string) :
  assoc_get (bin_name f step) (apply_write step d op) =
  if String.eqb (op_field op) f
  then option_map (fun fl => run_op fl op) (assoc_get (bin_name f step) d)
  else assoc_get (bin_name f step) d.
Proof.
  unfold apply_write.
  destruct (String.eqb_spec (op_field op) f) as [->|N].
  - destruct (assoc_get (bin_name f step) d) as [fl|] eqn:E; simpl.
    + apply assoc_get_set_same.
    + exact E.
  - destruct (assoc_get (bin_name (op_field op) step) d) as [fl|]; [|reflexivity].
    apply assoc_get_set_other. intros E. apply N. symmetry.
    eapply bin_name_inj; eauto.
Qed.

Lemma apply_ops_get (step : Z) (f : string) (ops : list write_op) :
  forall d,
    assoc_get (bin_name f step) (fold_left (apply_write step) ops d) =
    option_map (fun fl => fold_left run_op
                            (filter (fun op => String.eqb (op_field op) f) ops) fl)
               (assoc_get (bin_name f step) d).
Proof.
  induction ops as [|op ops IH]; intros d; simpl.
  - destruct (assoc_get (bin_name f step) d); reflexivity.
  - rewrite IH, apply_write_get.
    destruct (String.eqb (op_field op) f); simpl; [|reflexivity].
    destruct (assoc_get (bin_name f step) d); reflexivity.
Qed.

Lemma fold_left_agree {A B : Type} (f g : A -> B -> A) (l : list B) :
  (forall a b, f a b = g a b) ->
  forall a, fold_left f l a = fold_left g l a.
Proof.
  intros H. induction l as [|b l IH]; intros a; simpl; [reflexivity|].
  rewrite H. apply IH.
Qed.

Lemma pwrite_at_end (off : Z) (ws : list word) (f : file) :
  Z.to_nat (off / 4) = length f -> pwrite off ws f = f ++ ws.
Proof.
  intros H. unfold pwrite. destruct ws as [|x ws]; [now rewrite app_nil_r|].
  rewrite H, Nat.sub_diag. cbn [repeat].
  rewrite app_nil_r, firstn_all, skipn_all2 by lia.
  now rewrite app_nil_r.
Qed.

Lemma four_byte_field_write (f : string) (rank : nat) (w : Buffers_write)
      (fl : file) :
  In f four_byte_fields ->
  fold_left run_op
            (filter (fun op => String.eqb (op_field op) f) (write_ops rank w)) fl =
  pwrite (4 * iv_get rank (np_offset w)) (column_image f w) fl.
Proof.
  intros H. unfold four_byte_fields in H. simpl in H.
  repeat (destruct H as [<-|H];
          [ unfold write_ops, run_op, seek_iwrite, column_image,
              image_float, image_int;
            simpl; rewrite Nat.mul_1_r;
            rewrite <- (length_map W_float) || rewrite <- (length_map W_int);
            rewrite firstn_all; reflexivity | ]).
  contradiction.
Qed.

Lemma write_out_get (step : Z) (f : string) (ws : list Buffers_write)
      (d : directory) :
  assoc_get (bin_name f step) (write_out step ws d) =
  option_map
    (fun fl =>
       fold_left
         (fun fl' rw =>
            fold_left run_op
                      (filter (fun op => String.eqb (op_field op) f)
                              (write_ops (fst rw) (snd rw))) fl')
         (combine (seq 0 (length ws)) ws) fl)
    (assoc_get (bin_name f step) d).
Proof.
  unfold write_out. generalize (combine (seq 0 (length ws)) ws) as l.
  intros l. revert d. induction l as [|rw l IH]; intros d; cbn [fold_left].
  - destruct (assoc_get (bin_name f step) d); reflexivity.
  - rewrite IH, apply_ops_get.
    destruct (assoc_get (bin_name f step) d); reflexivity.
Qed.

Lemma file_open_get (name name' : string) (d : directory) :
  assoc_get name (file_open name' d) =
  match assoc_get name d with
  | Some fl => Some fl
  | None => if String.eqb name name' then Some [] else None
  end.
Proof.
  unfold file_open. destruct (assoc_get name' d) as [fl'|] eqn:E'.
  - destruct (assoc_get name d) as [fl|] eqn:E; [reflexivity|].
    destruct (String.eqb_spec name name') as [->|N]; [congruence|reflexivity].
  - destruct (String.eqb_spec name name') as [->|N].
    + rewrite assoc_get_set_same, E'. reflexivity.
    + rewrite assoc_get_set_other by exact N.
      destruct (assoc_get name d); reflexivity.
Qed.

Lemma opened_files_get (step : Z) (f : string) (fields : list string) :
  forall d,
    assoc_get (bin_name f step)
              (fold_left (fun d' g => file_open (bin_name g step) d') fields d) =
    match assoc_get (bin_name f step) d with
    | Some fl => Some fl
    | None => if existsb (String.eqb f) fields then Some [] else None
    end.
Proof.
  induction fields as [|g fields IH]; intros d; simpl.
  - destruct (assoc_get (bin_name f step) d); reflexivity.
  - rewrite IH, file_open_get, bin_name_eqb.
    destruct (assoc_get (bin_name f step) d); [reflexivity|].
    destruct (String.eqb f g); reflexivity.
Qed.

(** Writing the ranks in ascending order, each at the offset that counts
    the elements of the lower ranks, appends the columns one after the
    other. *)
Lemma rank_major_fold (f : string) :
  forall (l pre : list Buffers_write),
    (forall j w, nth_error l j = Some w ->
                 iv_get (length pre + j) (np_offset w) =
                 Z.of_nat (length (concat (map (column_image f)
                                               (pre ++ firstn j l))))) ->
    fold_left
      (fun fl rw => pwrite (4 * iv_get (fst rw) (np_offset (snd rw)))
                           (column_image f (snd rw)) fl)
      (combine (seq (length pre) (length l)) l)
      (concat (map (column_image f) pre)) =
    concat (map (column_image f) (pre ++ l)).
Proof.
  induction l as [|w l IH]; intros pre H.
  - simpl. now rewrite app_nil_r.
  - cbn [length seq combine fold_left fst snd].
    rewrite pwrite_at_end.
    + replace (pre ++ w :: l) with ((pre ++ [w]) ++ l)
        by (rewrite <- app_assoc; reflexivity).
      specialize (IH (pre ++ [w])).
      rewrite length_app, Nat.add_1_r in IH. cbn [length] in IH.
      rewrite map_app, concat_app in IH. cbn [map concat] in IH.
      rewrite app_nil_r in IH. apply IH.
      intros j w' Hj. specialize (H (S j) w' Hj).
      replace (S (length pre) + j)%nat with (length pre + S j)%nat by lia.
      rewrite H. cbn [firstn]. rewrite <- app_assoc. reflexivity.
    + specialize (H 0%nat w eq_refl). rewrite Nat.add_0_r in H. rewrite H.
      cbn [firstn]. rewrite app_nil_r.
      replace (4 * Z.of_nat (length (concat (map (column_image f) pre))) / 4)%Z
        with (Z.of_nat (length (concat (map (column_image f) pre)))).
      * apply Nat2Z.id.
      * rewrite Z.mul_comm, Z.div_mul by lia. reflexivity.
Qed.

(** The files of the four-byte fields after the write phase of a step, when
    every rank's offset counts the elements of the lower ranks: the columns
    of the ranks, one after the other in rank order. *)
Lemma field_file_rank_major (step : Z) (f : string) (ws : list Buffers_write) :
  In f four_byte_fields ->
  (forall j w, nth_error ws j = Some w ->
               iv_get j (np_offset w) =
               Z.of_nat (length (concat (map (column_image f) (firstn j ws))))) ->
  assoc_get (bin_name f step)
            (write_out step ws
               (fold_left (fun d g => file_open (bin_name g step) d)
                          opened_fields [])) =
  Some (concat (map (column_image f) ws)).
Proof.
  intros Hf H. rewrite write_out_get, opened_files_get. simpl assoc_get.
  assert (Ho : existsb (String.eqb f) opened_fields = true).
  { unfold four_byte_fields in Hf. simpl in Hf.
    repeat (destruct Hf as [<-|Hf]; [reflexivity|]). contradiction. }
  rewrite Ho. simpl option_map. f_equal.
  rewrite (fold_left_agree _
             (fun fl rw => pwrite (4 * iv_get (fst rw) (np_offset (snd rw)))
                                  (column_image f (snd rw)) fl)).
  - apply (rank_major_fold f ws []). exact H.
  - intros fl rw. apply four_byte_field_write. exact Hf.
Qed.

(** ** What the step loop maintains *)

Lemma group_start_ok (numranks : nat) (fs : filesystem) :
  group_ok numranks (group_start numranks fs).
Proof.
  unfold group_ok, group_start. simpl. split; [apply repeat_length|].
  apply Forall_forall. intros w Hw. apply repeat_spec in Hw. subst w.
  unfold rank_ok, aligned, setup_layout, iv_resize. simpl.
  rewrite !length_app, !repeat_length, firstn_nil, skipn_nil. simpl.
  repeat split; lia.
Qed.

Lemma push_all_ok numranks r ang idx w :
  rank_ok numranks w -> rank_ok numranks (push_all r ang idx w).
Proof.
  intros (Ha & Hc & Ho).
  destruct (push_all_columns r ang idx w)
    as (Ex & Ey & Ez & Evx & Evy & Evz & Ea & Eid & Erot & Erep & Eth & Eph
        & _ & Ec & Eo).
  unfold rank_ok, aligned in *.
  rewrite Ex, Ey, Ez, Evx, Evy, Evz, Ea, Eid, Erot, Erep, Eth, Eph, Ec, Eo.
  rewrite !length_app, !length_map. intuition lia.
Qed.

Lemma offset_exchange_data numranks gathered w :
  exists c o, fst (offset_exchange numranks gathered w) = set_layout c o w.
Proof.
  unfold offset_exchange. cbv zeta.
  match goal with
  | |- context [fold_left ?f ?l ?a] => destruct (fold_left f l a) as [o2 tr3]
  end.
  do 2 eexists. reflexivity.
Qed.

Lemma offset_exchange_column numranks gathered w f :
  column_image f (fst (offset_exchange numranks gathered w)) = column_image f w.
Proof.
  destruct (offset_exchange_data numranks gathered w) as (c & o & ->).
  reflexivity.
Qed.

Lemma offset_exchange_ok numranks gathered w :
  (1 <= numranks)%nat -> length gathered = numranks ->
  rank_ok numranks w ->
  rank_ok numranks (fst (offset_exchange numranks gathered w)).
Proof.
  intros Hn Hg (Ha & Hc & Ho).
  destruct (offset_exchange_layout numranks gathered w Hn Hg Hc Ho)
    as (_ & _ & _ & Hlc & Hlo & _).
  split; [|split; assumption].
  destruct (offset_exchange_data numranks gathered w) as (c & o & ->).
  exact Ha.
Qed.

Lemma four_byte_column_length f w :
  In f four_byte_fields -> aligned w ->
  length (column_image f w) = length (w_a w).
Proof.
  intros Hf (Hx & Hy & Hz & Hvx & Hvy & Hvz & Hid & Hrot & Hrep & Hth & Hph).
  unfold four_byte_fields in Hf. simpl in Hf.
  repeat (destruct Hf as [<-|Hf];
          [ unfold column_image, image_float, image_int; simpl;
            rewrite length_map; congruence | ]).
  contradiction.
Qed.

Lemma records_held_concat f (ws : list Buffers_write) :
  In f four_byte_fields -> Forall aligned ws ->
  records_held ws = Z.of_nat (length (concat (map (column_image f) ws))).
Proof.
  intros Hf H. unfold records_held.
  induction H as [|w ws Hw Hws IH]; simpl; [reflexivity|].
  rewrite length_app, Nat2Z.inj_add, <- IH.
  rewrite (four_byte_column_length f w Hf Hw). reflexivity.
Qed.

Lemma do_cutting_is_filtering theta_cut phi_cut r Np w :
  do_cutting theta_cut phi_cut r Np w =
  filtering_cut angles_raw (keep theta_cut phi_cut) r Np w.
Proof. apply do_cutting_filter. Qed.

Lemma do_cutting_halo_is_filtering k B theta_cut phi_cut r Np w :
  length k = 3%nat ->
  do_cutting_halo k B theta_cut phi_cut r Np w =
  filtering_cut (angles_halo k B) (keep_halo k B theta_cut phi_cut) r Np w.
Proof. apply do_cutting_halo_filter. Qed.

Lemma total_nonneg (l : list Z) :
  Forall (fun c => 0 <= c)%Z l -> (0 <= total l)%Z.
Proof.
  intros H. pose proof (total_firstn_le l (length l) H) as B.
  rewrite firstn_all in B. lia.
Qed.

Lemma total_bounds_each (l : list Z) :
  Forall (fun c => 0 <= c)%Z l ->
  Forall (fun c => 0 <= c <= total l)%Z l.
Proof.
  intros H. induction H as [|c l Hc Hl IH]; simpl; constructor.
  - pose proof (total_nonneg l Hl). lia.
  - eapply Forall_impl; [|exact IH]. simpl. intros a Ha. lia.
Qed.

Lemma gathered_counts (ws : list Buffers_write) :
  (records_held ws <= INT_MAX)%Z ->
  map cutout_size ws = map (fun w => Z.of_nat (length (w_a w))) ws.
Proof.
  unfold records_held. intros H.
  assert (Hn : Forall (fun c => 0 <= c)%Z
                      (map (fun w => Z.of_nat (length (w_a w))) ws)).
  { apply Forall_map. apply Forall_forall. intros; lia. }
  pose proof (total_bounds_each _ Hn) as Hb.
  rewrite Forall_map in Hb. rewrite Forall_forall in Hb.
  apply map_ext_in. intros w Hw. specialize (Hb w Hw). simpl in Hb.
  unfold cutout_size. apply wrap32_small. unfold INT_MAX in *. lia.
Qed.

Section StepOutput.

Variables (subdirPrefix out_dir : string) (numranks : nat).
Variable reader : string -> nat -> nat * Buffers_read.
Variable ang : Buffers_read -> nat -> float * float.
Variable kp : Buffers_read -> nat -> bool.

Lemma step_iteration_filtering s g :
  (atoi s =? 499)%Z = false ->
  step_iteration subdirPrefix out_dir numranks reader (filtering_cut ang kp) s g =
  match open_step_subdir (step_subdir_name subdirPrefix out_dir s) (g_fs g) with
  | Throw msg => Throw msg
  | Ok fs1 =>
      let ws1 := map (cut_of reader ang kp s)
                     (combine (seq 0 (length (g_w g))) (g_w g)) in
      let ws2 := map (fun w => fst (offset_exchange numranks
                                                    (map cutout_size ws1) w)) ws1 in
      Ok {| g_w := ws2;
            g_fs := assoc_set (step_subdir_name subdirPrefix out_dir s)
                      (write_out (atoi s) ws2
                         (fold_left (fun d f => file_open (bin_name f (atoi s)) d)
                                    opened_fields []))
                      fs1 |}
  end.
Proof.
  intros H. unfold step_iteration. rewrite H.
  destruct (open_step_subdir (step_subdir_name subdirPrefix out_dir s) (g_fs g));
    [|reflexivity].
  rewrite (map_ext _ (fun rw => Some (cut_of reader ang kp s rw))).
  - rewrite sequence_map_Some. reflexivity.
  - intros [rank w]. unfold cut_of, filtering_cut. simpl.
    destruct (reader s rank) as [Np r]. reflexivity.
Qed.

Lemma cut_of_ok s rw :
  rank_ok numranks (snd rw) -> rank_ok numranks (cut_of reader ang kp s rw).
Proof. apply push_all_ok. Qed.

(** After an iteration that is not skipped and whose batches hold at most
    [INT_MAX] records in all: every rank holds the batch it held before
    with the kept records of its partition appended in partition order; the
    count and offset cells are the batch sizes and their exclusive prefix
    sums; and the file of every four-byte field holds the columns of the
    ranks one after the other, in rank order. *)
Lemma step_output s g g' :
  (1 <= numranks)%nat ->
  group_ok numranks g ->
  (atoi s =? 499)%Z = false ->
  step_iteration subdirPrefix out_dir numranks reader (filtering_cut ang kp) s g
  = Ok g' ->
  (records_held (g_w g') <= INT_MAX)%Z ->
  group_ok numranks g' /\
  (forall f, map (column_image f) (g_w g') =
             map (fun rw => column_image f (cut_of reader ang kp s rw))
                 (combine (seq 0 numranks) (g_w g))) /\
  (forall w' i,
      In w' (g_w g') -> (i < numranks)%nat ->
      iv_get i (np_count w') =
        nth i (map (fun w => Z.of_nat (length (w_a w))) (g_w g')) 0%Z /\
      iv_get i (np_offset w') =
        total (firstn i (map (fun w => Z.of_nat (length (w_a w))) (g_w g')))) /\
  (forall f, In f four_byte_fields ->
             exists d,
               assoc_get (step_subdir_name subdirPrefix out_dir s) (g_fs g')
               = Some d /\
               assoc_get (bin_name f (atoi s)) d =
               Some (concat (map (column_image f) (g_w g')))).
Proof.
  intros Hn [Hlen Hok] Hs Hstep Hmax.
  rewrite step_iteration_filtering in Hstep by exact Hs.
  destruct (open_step_subdir (step_subdir_name subdirPrefix out_dir s) (g_fs g))
    as [fs1|msg]; [|discriminate].
  cbv zeta in Hstep. injection Hstep as <-. cbn [g_w g_fs] in *.
  set (ws1 := map (cut_of reader ang kp s)
                  (combine (seq 0 (length (g_w g))) (g_w g))) in *.
  set (ws2 := map (fun w => fst (offset_exchange numranks
                                                 (map cutout_size ws1) w)) ws1) in *.
  assert (L1 : length ws1 = numranks).
  { unfold ws1. rewrite length_map, length_combine, length_seq. lia. }
  assert (Ok1 : Forall (rank_ok numranks) ws1).
  { unfold ws1. apply Forall_map. apply Forall_forall. intros [j w] Hin.
    apply cut_of_ok. simpl. apply in_combine_r in Hin.
    rewrite Forall_forall in Hok. now apply Hok. }
  assert (Hg : length (map cutout_size ws1) = numranks)
    by (rewrite length_map; exact L1).
  assert (Ok2 : Forall (rank_ok numranks) ws2).
  { unfold ws2. apply Forall_map. eapply Forall_impl; [|exact Ok1].
    intros w Hw. now apply offset_exchange_ok. }
  assert (Hcol : forall f, map (column_image f) ws2 = map (column_image f) ws1).
  { intros f. unfold ws2. rewrite map_map. apply map_ext.
    intros w. apply offset_exchange_column. }
  assert (Ha : map (fun w => Z.of_nat (length (w_a w))) ws2 =
               map (fun w => Z.of_nat (length (w_a w))) ws1).
  { unfold ws2. rewrite map_map. apply map_ext. intros w.
    destruct (offset_exchange_data numranks (map cutout_size ws1) w)
      as (c & o & ->). reflexivity. }
  assert (Hheld : (records_held ws1 <= INT_MAX)%Z).
  { unfold records_held in *. rewrite <- Ha. exact Hmax. }
  pose proof (gathered_counts ws1 Hheld) as Hgc.
  assert (Hpos : Forall (fun c => 0 <= c)%Z (map cutout_size ws1)).
  { rewrite Hgc. apply Forall_map. apply Forall_forall. intros; lia. }
  assert (Htot : (total (map cutout_size ws1) <= INT_MAX)%Z).
  { rewrite Hgc. exact Hheld. }
  assert (Hlay : forall w' i,
             In w' ws2 -> (i < numranks)%nat ->
             iv_get i (np_count w') = nth i (map cutout_size ws1) 0%Z /\
             iv_get i (np_offset w') = total (firstn i (map cutout_size ws1))).
  { intros w' i Hin Hi. unfold ws2 in Hin. apply in_map_iff in Hin.
    destruct Hin as (w & <- & Hw).
    rewrite Forall_forall in Ok1. destruct (Ok1 w Hw) as (_ & Hc & Ho).
    destruct (offset_exchange_layout numranks (map cutout_size ws1) w
                                     Hn Hg Hc Ho) as (Hcnt & _).
    split; [apply Hcnt; exact Hi|].
    apply offset_exchange_prefix; assumption. }
  unfold group_ok. cbn [g_w g_fs].
  split; [|split; [|split]].
  - split; [unfold ws2; rewrite length_map; exact L1|exact Ok2].
  - intros f. rewrite Hcol. unfold ws1. rewrite map_map, Hlen. reflexivity.
  - intros w' i Hin Hi. rewrite Ha, <- Hgc. now apply Hlay.
  - intros f Hf. eexists. split; [apply assoc_get_set_same|].
    apply field_file_rank_major; [exact Hf|].
    intros j w Hj.
    assert (Hjn : (j < numranks)%nat).
    { assert (Hj' : nth_error ws2 j <> None) by congruence.
      apply nth_error_Some in Hj'. unfold ws2 in Hj'.
      rewrite length_map in Hj'. lia. }
    destruct (Hlay w j (nth_error_In _ _ Hj) Hjn) as [_ Hoff].
    rewrite Hoff, Hgc, <- Ha, firstn_map.
    apply (records_held_concat f (firstn j ws2) Hf).
    rewrite <- (firstn_skipn j ws2) in Ok2. apply Forall_app in Ok2.
    eapply Forall_impl; [|exact (proj1 Ok2)]. intros a Hr. apply Hr.
Qed.

End StepOutput.

(** ** Every step of both pipelines *)

Section EveryStep.

Variables (subdirPrefix out_dir : string) (numranks : nat).
Variable reader : string -> nat -> nat * Buffers_read.
Variable cutting : Buffers_read -> nat -> Buffers_write -> option Buffers_write.
Variable ang : Buffers_read -> nat -> float * float.
Variable kp : Buffers_read -> nat -> bool.

Hypothesis cutting_filters :
  forall r Np w, cutting r Np w = filtering_cut ang kp r Np w.

Lemma step_iteration_as_filtering s g :
  step_iteration subdirPrefix out_dir numranks reader cutting s g =
  step_iteration subdirPrefix out_dir numranks reader (filtering_cut ang kp) s g.
Proof. apply step_iteration_cutting_ext. intros; apply cutting_filters. Qed.

Lemma step_iteration_keeps_group_ok s g g' :
  (1 <= numranks)%nat ->
  group_ok numranks g ->
  step_iteration subdirPrefix out_dir numranks reader cutting s g = Ok g' ->
  group_ok numranks g'.
Proof.
  intros Hn Hg H. rewrite step_iteration_as_filtering in H.
  destruct (atoi s =? 499)%Z eqn:Hs.
  - unfold step_iteration in H. rewrite Hs in H. injection H as <-. exact Hg.
  - rewrite step_iteration_filtering in H by exact Hs.
    destruct (open_step_subdir (step_subdir_name subdirPrefix out_dir s) (g_fs g));
      [|discriminate].
    cbv zeta in H. injection H as <-. destruct Hg as [Hlen Hok].
    unfold group_ok. cbn [g_w].
    split.
    + rewrite !length_map, length_combine, length_seq. lia.
    + apply Forall_map. apply Forall_map. apply Forall_forall.
      intros [j w] Hin. apply offset_exchange_ok.
      * exact Hn.
      * rewrite !length_map, length_combine, length_seq. lia.
      * apply cut_of_ok. simpl. apply in_combine_r in Hin.
        rewrite Forall_forall in Hok. now apply Hok.
Qed.

Lemma step_loop_keeps_group_ok (steps : list string) : forall g g',
  (1 <= numranks)%nat ->
  group_ok numranks g ->
  step_loop subdirPrefix out_dir numranks reader cutting steps g = Ok g' ->
  group_ok numranks g'.
Proof.
  induction steps as [|s rest IH]; intros g g' Hn Hg H; simpl in H.
  - injection H as <-. exact Hg.
  - destruct (step_iteration subdirPrefix out_dir numranks reader cutting s g)
      as [g1|msg] eqn:E; [|discriminate].
    apply (IH g1 g' Hn); [|exact H].
    eapply step_iteration_keeps_group_ok; eauto.
Qed.

End EveryStep.

(** The positive part of C6 and the layout cells in the pipelines.  In
    both pipelines, from any state the step loop can be in, an iteration
    that is not skipped and ends normally with at most [INT_MAX] records
    held leaves: on every rank the batch it held with the records kept from
    its partition appended in partition order (a stable filter); count and
    offset cells equal to the batch sizes and their exclusive prefix sums;
    and, in the file of every four-byte field, the columns of the ranks one
    after the other in rank order. *)
Theorem step_output_both_pipelines :
  forall (subdirPrefix out_dir : string) (numranks : nat)
         (reader : string -> nat -> nat * Buffers_read)
         (theta_cut phi_cut k : vec) (B : float) (halo : bool)
         (s : string) (g g' : group),
    (1 <= numranks)%nat ->
    group_ok numranks g ->
    (atoi s =? 499)%Z = false ->
    length k = 3%nat ->
    step_iteration subdirPrefix out_dir numranks reader
                   (if halo then do_cutting_halo k B theta_cut phi_cut
                    else do_cutting theta_cut phi_cut) s g = Ok g' ->
    (records_held (g_w g') <= INT_MAX)%Z ->
    let ang := if halo then angles_halo k B else angles_raw in
    let kp := if halo then keep_halo k B theta_cut phi_cut
              else keep theta_cut phi_cut in
    group_ok numranks g' /\
    (forall f, map (column_image f) (g_w g') =
               map (fun rw => column_image f (cut_of reader ang kp s rw))
                   (combine (seq 0 numranks) (g_w g))) /\
    (forall w' i,
        In w' (g_w g') -> (i < numranks)%nat ->
        iv_get i (np_count w') =
          nth i (map (fun w => Z.of_nat (length (w_a w))) (g_w g')) 0%Z /\
        iv_get i (np_offset w') =
          total (firstn i (map (fun w => Z.of_nat (length (w_a w))) (g_w g')))) /\
    (forall f, In f four_byte_fields ->
               exists d,
                 assoc_get (step_subdir_name subdirPrefix out_dir s) (g_fs g')
                 = Some d /\
                 assoc_get (bin_name f (atoi s)) d =
                 Some (concat (map (column_image f) (g_w g')))).
Proof.
  intros subdirPrefix out_dir numranks reader theta_cut phi_cut k B halo
         s g g' Hn Hg Hs Hk Hstep Hmax ang kp.
  apply (step_output subdirPrefix out_dir numranks reader ang kp s g g'
                     Hn Hg Hs); [|exact Hmax].
  rewrite <- Hstep. symmetry. apply step_iteration_cutting_ext.
  intros s' rank w. subst ang kp. destruct halo.
  - apply do_cutting_halo_is_filtering. exact Hk.
  - apply do_cutting_is_filtering.
Qed.

(** A halo on the positive x-axis gives the zero axis and the zero angle
    in the setup of the halo pipeline. *)
Lemma halo_prepare_positive_axis (a boxLength : float) (hs : halo_setup) :
  0 < a ->
  halo_prepare [a; 0; 0] boxLength = Some hs ->
  hs_k hs = [0; 0; 0] /\ hs_B hs = 0.
Proof.
  intros Ha H. unfold halo_prepare in H.
  rewrite normCross_pole_on_axis in H. injection H as <-. simpl.
  split; [reflexivity|]. apply vecPairAngle_positive_axis. exact Ha.
Qed.

(** ** The order of the writes does not matter *)

Lemma pwrite_length (off : Z) (ws : list word) (f : file) :
  length (pwrite off ws f) =
  match ws with
  | [] => length f
  | _ :: _ => Nat.max (length f) (Z.to_nat (off / 4) + length ws)
  end.
Proof.
  unfold pwrite. destruct ws as [|x ws]; [reflexivity|].
  remember (x :: ws) as l eqn:El. clear El x ws.
  rewrite !length_app, length_firstn, length_app, repeat_length, length_skipn.
  lia.
Qed.

Lemma pwrite_nth (off : Z) (ws : list word) (f : file) (i : nat) :
  nth i (pwrite off ws f) W_hole =
  if (Nat.leb (Z.to_nat (off / 4)) i
      && Nat.ltb i (Z.to_nat (off / 4) + length ws))%bool
  then nth (i - Z.to_nat (off / 4)) ws W_hole
  else nth i f W_hole.
Proof.
  unfold pwrite. set (k := Z.to_nat (off / 4)).
  destruct ws as [|x ws].
  - destruct (Nat.leb_spec k i), (Nat.ltb_spec i (k + length (@nil word)));
      simpl in *; try reflexivity; lia.
  - remember (x :: ws) as l eqn:El. clear El x ws.
    assert (Lk : length (firstn k (f ++ repeat W_hole (k - length f))) = k).
    { rewrite length_firstn, length_app, repeat_length. lia. }
    destruct (Nat.leb_spec k i) as [Hki|Hki]; cbn [andb].
    + rewrite app_nth2 by lia. rewrite Lk.
      destruct (Nat.ltb_spec i (k + length l)) as [Hil|Hil].
      * apply app_nth1. lia.
      * rewrite app_nth2 by lia. rewrite nth_skipn. f_equal. lia.
    + rewrite app_nth1 by lia. rewrite nth_firstn.
      destruct (Nat.ltb_spec i k); [|lia].
      destruct (Nat.lt_ge_cases i (length f)).
      * apply app_nth1. assumption.
      * rewrite app_nth2 by lia. rewrite (nth_overflow f) by lia.
        apply nth_repeat.
Qed.

Lemma segment_split (segs : list (list word)) (j : nat) :
  (j < length segs)%nat ->
  concat segs = concat (firstn j segs) ++ nth j segs [] ++ concat (skipn (S j) segs).
Proof.
  revert j. induction segs as [|sg segs IH]; intros [|j] H; simpl in *; try lia.
  - reflexivity.
  - rewrite <- app_assoc. f_equal. apply IH. lia.
Qed.

Lemma segment_nth (segs : list (list word)) (j t : nat) :
  (j < length segs)%nat -> (t < length (nth j segs []))%nat ->
  nth (segment_start segs j + t) (concat segs) W_hole = nth t (nth j segs []) W_hole.
Proof.
  intros Hj Ht. rewrite (segment_split segs j Hj) at 1. unfold segment_start.
  rewrite app_nth2_plus. apply app_nth1. exact Ht.
Qed.

Lemma segment_end (segs : list (list word)) (j : nat) :
  (j < length segs)%nat ->
  (segment_start segs j + length (nth j segs []) <= length (concat segs))%nat.
Proof.
  intros Hj. unfold segment_start.
  pose proof (f_equal (@length word) (segment_split segs j Hj)) as E.
  rewrite !length_app in E. lia.
Qed.

Lemma segment_cover (segs : list (list word)) : forall i,
  (i < length (concat segs))%nat ->
  exists j t, (j < length segs)%nat /\ (t < length (nth j segs []))%nat /\
              i = (segment_start segs j + t)%nat.
Proof.
  induction segs as [|sg segs IH]; intros i Hi; simpl in Hi; [lia|].
  rewrite length_app in Hi.
  destruct (Nat.lt_ge_cases i (length sg)) as [Hlt|Hge].
  - exists 0%nat, i. unfold segment_start. simpl.
    split; [lia|]. split; [exact Hlt|reflexivity].
  - destruct (IH (i - length sg)%nat ltac:(lia)) as (j & t & Hj & Ht & E).
    exists (S j), t. unfold segment_start in *. simpl.
    split; [lia|]. split; [exact Ht|].
    rewrite length_app. lia.
Qed.

Lemma segment_offset_words (segs : list (list word)) (j : nat) :
  Z.to_nat (4 * Z.of_nat (segment_start segs j) / 4) = segment_start segs j.
Proof.
  rewrite Z.mul_comm, Z.div_mul by lia. apply Nat2Z.id.
Qed.

Lemma segment_write_step (segs : list (list word)) (j : nat) (fl : file) :
  (j < length segs)%nat ->
  (length fl <= length (concat segs))%nat ->
  let fl' := pwrite (4 * Z.of_nat (segment_start segs j)) (nth j segs []) fl in
  (length fl' <= length (concat segs))%nat /\
  (forall i, word_placed segs fl i -> word_placed segs fl' i) /\
  (forall t, (t < length (nth j segs []))%nat ->
             word_placed segs fl' (segment_start segs j + t)).
Proof.
  intros Hj Hl fl'. pose proof (segment_end segs j Hj) as He.
  assert (Hlen : (length fl <= length fl')%nat /\
                 (length fl' <= length (concat segs))%nat /\
                 (nth j segs [] <> [] ->
                  segment_start segs j + length (nth j segs []) <= length fl')%nat).
  { unfold fl'. rewrite pwrite_length, segment_offset_words.
    destruct (nth j segs []); simpl in *; repeat split; try lia. congruence. }
  destruct Hlen as (H1 & H2 & H3).
  split; [exact H2|]. split.
  - intros i [Hi Hv]. split; [lia|]. unfold fl'.
    rewrite pwrite_nth, segment_offset_words.
    destruct (Nat.leb_spec (segment_start segs j) i) as [Hki|Hki]; simpl;
      [|exact Hv].
    destruct (Nat.ltb_spec i (segment_start segs j + length (nth j segs [])))
      as [Hil|Hil]; [|exact Hv].
    rewrite <- (segment_nth segs j (i - segment_start segs j)) by lia.
    f_equal. lia.
  - intros t Ht. split.
    + assert (nth j segs [] <> []) by (destruct (nth j segs []); simpl in *;
                                       [lia|congruence]).
      specialize (H3 H). lia.
    + unfold fl'. rewrite pwrite_nth, segment_offset_words.
      destruct (Nat.leb_spec (segment_start segs j) (segment_start segs j + t));
        [|lia].
      destruct (Nat.ltb_spec (segment_start segs j + t)
                             (segment_start segs j + length (nth j segs [])));
        [|lia].
      simpl. rewrite segment_nth by assumption. f_equal. lia.
Qed.

Lemma segment_writes_inv (segs : list (list word)) (order : list nat) :
  forall fl,
    Forall (fun j => j < length segs)%nat order ->
    (length fl <= length (concat segs))%nat ->
    let fl' := segment_writes segs order fl in
    (length fl' <= length (concat segs))%nat /\
    (forall i, word_placed segs fl i -> word_placed segs fl' i) /\
    (forall j t, In j order -> (t < length (nth j segs []))%nat ->
                 word_placed segs fl' (segment_start segs j + t)).
Proof.
  unfold segment_writes.
  induction order as [|j order IH]; intros fl Ho Hl; simpl.
  - split; [exact Hl|]. split; [intros i Hi; exact Hi|]. intros j t [].
  - inversion Ho as [|? ? Hj Ho']; subst.
    destruct (segment_write_step segs j fl Hj Hl) as (S1 & S2 & S3).
    destruct (IH _ Ho' S1) as (I1 & I2 & I3).
    split; [exact I1|]. split.
    + intros i Hi. apply I2, S2, Hi.
    + intros j' t [<-|Hin] Ht.
      * apply I2, S3, Ht.
      * apply I3; assumption.
Qed.

(** Whatever the order in which the ranks' writes reach the file of a
    field, as long as every rank has written its segment at its start, the
    file is the sequence of the segments in rank order. *)
Theorem write_order_irrelevant :
  forall (segs : list (list word)) (order : list nat),
    Forall (fun j => j < length segs)%nat order ->
    (forall j, (j < length segs)%nat -> In j order) ->
    segment_writes segs order [] = concat segs.
Proof.
  intros segs order Ho Hall.
  destruct (segment_writes_inv segs order [] Ho ltac:(simpl; lia))
    as (I1 & _ & I3).
  set (fl := segment_writes segs order []) in *.
  assert (P : forall i, (i < length (concat segs))%nat -> word_placed segs fl i).
  { intros i Hi. destruct (segment_cover segs i Hi) as (j & t & Hj & Ht & ->).
    apply I3; [apply Hall; exact Hj|exact Ht]. }
  assert (L : length fl = length (concat segs)).
  { destruct (Nat.eq_dec (length (concat segs)) 0) as [E|N]; [lia|].
    destruct (P (length (concat segs) - 1)%nat ltac:(lia)) as [Hlt _]. lia. }
  apply (nth_ext _ _ W_hole W_hole L).
  intros i Hi. apply P. lia.
Qed.

Lemma column_image_new (f : string) : column_image f Buffers_write_new = [].
Proof.
  unfold column_image.
  repeat match goal with
         | |- context [String.eqb f ?c] => destruct (String.eqb f c)
         end; reflexivity.
Qed.

Lemma field_writes_as_segments (f : string) (ws : list Buffers_write)
      (order : list nat) :
  (forall j, (j < length ws)%nat ->
             iv_get j (np_offset (nth j ws Buffers_write_new)) =
             Z.of_nat (length (concat (map (column_image f) (firstn j ws))))) ->
  Forall (fun j => j < length ws)%nat order ->
  forall fl,
    fold_left (fun fl' j =>
                 pwrite (4 * iv_get j (np_offset (nth j ws Buffers_write_new)))
                        (column_image f (nth j ws Buffers_write_new)) fl')
              order fl =
    segment_writes (map (column_image f) ws) order fl.
Proof.
  intros H Ho. unfold segment_writes.
  induction Ho as [|j order Hj Ho IH]; intros fl; cbn [fold_left];
    [reflexivity|].
  rewrite IH. f_equal.
  rewrite (H j Hj). unfold segment_start. rewrite firstn_map.
  f_equal. rewrite <- (map_nth (column_image f) ws Buffers_write_new j).
  rewrite column_image_new. reflexivity.
Qed.

(** The files of the four-byte fields do not depend on the order in which
    the ranks write: with offsets that count the elements of the lower
    ranks, any order that lets every rank write gives the rank-major file. *)
Corollary field_file_any_order (f : string) (ws : list Buffers_write)
          (order : list nat) :
  (forall j, (j < length ws)%nat ->
             iv_get j (np_offset (nth j ws Buffers_write_new)) =
             Z.of_nat (length (concat (map (column_image f) (firstn j ws))))) ->
  Forall (fun j => j < length ws)%nat order ->
  (forall j, (j < length ws)%nat -> In j order) ->
  fold_left (fun fl j =>
               pwrite (4 * iv_get j (np_offset (nth j ws Buffers_write_new)))
                      (column_image f (nth j ws Buffers_write_new)) fl)
            order [] =
  concat (map (column_image f) ws).
Proof.
  intros H Ho Hall.
  rewrite (field_writes_as_segments f ws order H Ho).
  apply write_order_irrelevant; rewrite length_map; assumption.
Qed.

(** ** The id file under any interleaving of the two processes *)

Lemma image_id_length (ids : list Z) : length (image_id ids) = (length ids * 2)%nat.
Proof.
  unfold image_id. induction ids as [|i ids IH]; simpl; [reflexivity|].
  rewrite IH. reflexivity.
Qed.

Lemma id_write_first (ws : list Buffers_write) (j : nat) (fl : file) :
  id_write ws (j, false) fl =
  pwrite (8 * iv_get j (np_offset (nth j ws Buffers_write_new)))
         (image_id (w_id (nth j ws Buffers_write_new))) fl.
Proof.
  unfold id_write, run_op, seek_iwrite. simpl.
  rewrite <- image_id_length, firstn_all. reflexivity.
Qed.

Lemma id_write_second (ws : list Buffers_write) (j : nat) (fl : file) :
  id_write ws (j, true) fl =
  pwrite (4 * iv_get j (np_offset (nth j ws Buffers_write_new)))
         (firstn (length (w_id (nth j ws Buffers_write_new)))
                 (image_id (w_id (nth j ws Buffers_write_new)))) fl.
Proof.
  unfold id_write, run_op, seek_iwrite. simpl.
  rewrite Nat.mul_1_r. reflexivity.
Qed.

Lemma three_five_batches_layout :
  map (fun w => (w_id w, vstore (np_offset w))) three_five_batches =
  [ ([1; 2; 3]%Z, [0; 3]%Z); ([4; 5; 6; 7; 8]%Z, [0; 3]%Z) ].
Proof.
  unfold three_five_batches, processLC.
  rewrite (step_loop_cutting_ext "lc" "out/" 2 three_five_reader
             (do_cutting octant_theta_cut octant_phi_cut) keep_all
             three_five_reader_cut).
  lazy. reflexivity.
Qed.

(** Whatever the two processes have written to the id file before, and
    whatever the first process writes afterwards, once the second process
    has made its second write the word at index 6, where the first half of
    id 4 belongs, holds the second half of id 5. *)
Lemma id_word_under_any_interleaving (before after : list (nat * bool)) :
  Forall (fun e => fst e = 0%nat) after ->
  nth 6 (fold_left (fun fl e => id_write three_five_batches e fl)
                   (before ++ [(1%nat, true)] ++ after) [])
      W_hole = W_id_snd 5.
Proof.
  intros Ha. pose proof three_five_batches_layout as L.
  destruct three_five_batches as [|b0 [|b1 [|b2 rest]]]; try discriminate.
  simpl in L. injection L as I0 O0 I1 O1.
  rewrite !fold_left_app.
  generalize (fold_left (fun fl e => id_write [b0; b1] e fl) before []) as fl0.
  intros fl0. cbn [fold_left].
  assert (H1 : nth 6 (id_write [b0; b1] (1%nat, true) fl0) W_hole = W_id_snd 5).
  { rewrite id_write_second. cbn [nth]. unfold iv_get. rewrite I1, O1.
    rewrite pwrite_nth. reflexivity. }
  set (fl1 := id_write [b0; b1] (1%nat, true) fl0) in *. clearbody fl1.
  revert fl1 H1. induction Ha as [|[j second] after Hj Ha IH]; intros fl1 H1;
    cbn [fold_left]; [exact H1|].
  apply IH. simpl in Hj. subst j. destruct second.
  - rewrite id_write_second. cbn [nth]. unfold iv_get. rewrite I0, O0.
    rewrite pwrite_nth. exact H1.
  - rewrite id_write_first. cbn [nth]. unfold iv_get. rewrite I0, O0.
    rewrite pwrite_nth. exact H1.
Qed.

(** * Further properties: util.cpp and the output directories *)

(** X1. [comp_rank_scatter]: for a positive number of ranks the call keeps
    the entries already in [idxRemap] and appends [Np] rank numbers, the
    [j]-th of them being [j mod numranks], a valid rank. *)
Theorem comp_rank_scatter_round_robin (Np : nat) (idxRemap : list Z)
        (numranks : Z) (Hranks : (0 < numranks)%Z) :
  let out := comp_rank_scatter Np idxRemap numranks in
  length out = (length idxRemap + Np)%nat /\
  firstn (length idxRemap) out = idxRemap /\
  forall j, (j < Np)%nat ->
    nth (length idxRemap + j) out 0%Z = (Z.of_nat j mod numranks)%Z /\
    (0 <= nth (length idxRemap + j) out 0 < numranks)%Z.
Proof.
  unfold comp_rank_scatter. cbv zeta. split; [|split].
  - now rewrite length_app, length_map, length_seq.
  - rewrite firstn_app, Nat.sub_diag, firstn_all. cbn [firstn].
    now rewrite app_nil_r.
  - intros j Hj.
    rewrite app_nth2 by lia.
    replace (length idxRemap + j - length idxRemap)%nat with j by lia.
    rewrite (nth_indep _ 0%Z (Z.rem (Z.of_nat 0) numranks))
      by now rewrite length_map, length_seq.
    rewrite (map_nth (fun j => Z.rem (Z.of_nat j) numranks)), seq_nth by lia.
    cbn [Nat.add]. rewrite Z.rem_mod_nonneg by lia.
    split; [reflexivity|]. apply Z.mod_pos_bound; lia.
Qed.

Lemma comp_rank_scatter_round_robin_witness :
  let out := comp_rank_scatter 5 [7%Z] 2 in
  length out = (length [7%Z] + 5)%nat /\
  firstn (length [7%Z]) out = [7%Z] /\
  forall j, (j < 5)%nat ->
    nth (length [7%Z] + j) out 0%Z = (Z.of_nat j mod 2)%Z /\
    (0 <= nth (length [7%Z] + j) out 0 < 2)%Z.
Proof. apply (comp_rank_scatter_round_robin 5 [7%Z] 2). reflexivity. Defined.


Lemma comp_rank_scatter_count_step (n N r : nat) :
  (r < n)%nat ->
  (S N / n + (if (r <? S N mod n)%nat then 1 else 0)
   = N / n + (if (r <? N mod n)%nat then 1 else 0)
     + (if Nat.eqb (N mod n) r then 1 else 0))%nat.
Proof.
  intros Hr.
  assert (Hn : n <> 0%nat) by lia.
  pose proof (Nat.div_mod N n Hn) as HN.
  pose proof (Nat.mod_upper_bound N n Hn) as Hm.
  destruct (Nat.eq_dec (S (N mod n)) n) as [E|E].
  - assert (Hq : (S N / n = S (N / n))%nat).
    { symmetry. apply (Nat.div_unique _ _ _ 0%nat); [lia|nia]. }
    assert (H0 : (S N mod n = 0)%nat).
    { symmetry. apply (Nat.mod_unique _ _ (S (N / n))); [lia|nia]. }
    rewrite Hq, H0.
    destruct (Nat.ltb_spec r 0); [lia|].
    destruct (Nat.ltb_spec r (N mod n)), (Nat.eqb_spec (N mod n) r); lia.
  - assert (Hq : (S N / n = N / n)%nat).
    { symmetry. apply (Nat.div_unique _ _ _ (S (N mod n))); [lia|nia]. }
    assert (H0 : (S N mod n = S (N mod n))%nat).
    { symmetry. apply (Nat.mod_unique _ _ (N / n)); [lia|nia]. }
    rewrite Hq, H0.
    destruct (Nat.ltb_spec r (S (N mod n))), (Nat.ltb_spec r (N mod n)),
      (Nat.eqb_spec (N mod n) r); lia.
Qed.

(** X2. [comp_rank_scatter] deals the [Np] entries out evenly: rank [r]
    receives [Np / numranks] of them, and one more when [r] is below the
    remainder, so two ranks never differ by more than one entry. *)
Theorem comp_rank_scatter_balanced (Np numranks r : nat)
        (Hr : (r < numranks)%nat) :
  count_occ Z.eq_dec (comp_rank_scatter Np [] (Z.of_nat numranks)) (Z.of_nat r)
  = (Np / numranks + (if (r <? Np mod numranks)%nat then 1 else 0))%nat.
Proof.
  unfold comp_rank_scatter. cbn [app].
  induction Np as [|N IH].
  - cbn [seq map count_occ]. rewrite Nat.Div0.div_0_l, Nat.Div0.mod_0_l.
    reflexivity.
  - rewrite seq_S, map_app, count_occ_app, IH. cbn [Nat.add map count_occ].
    rewrite comp_rank_scatter_count_step by assumption.
    f_equal.
    rewrite Z.rem_mod_nonneg by lia.
    rewrite <- Nat2Z.inj_mod.
    destruct (Z.eq_dec (Z.of_nat (N mod numranks)) (Z.of_nat r)) as [E|E],
      (Nat.eqb_spec (N mod numranks) r); try reflexivity; lia.
Qed.

Lemma comp_rank_scatter_balanced_witness :
  count_occ Z.eq_dec (comp_rank_scatter 7 [] (Z.of_nat 3)) (Z.of_nat 0)
  = (7 / 3 + (if (0 <? 7 mod 3)%nat then 1 else 0))%nat.
Proof. apply (comp_rank_scatter_balanced 7 3 0). lia. Defined.

Lemma row_tokens_length (rows : list halo_row) :
  length (flat_map row_tokens rows) = (4 * length rows)%nat.
Proof.
  induction rows as [|[[[i x] y] z] rows IH]; [reflexivity|].
  cbn [flat_map row_tokens app length]. rewrite IH. lia.
Qed.

Lemma compact_fold (l : list string) (k : nat) :
  (k <= length l)%nat ->
  let r := fold_left (fun ids i => list_set i (nth (i * 4) ids EmptyString) ids)
                     (seq 0 k) l in
  length r = length l /\
  forall j, nth j r EmptyString
            = if (j <? k)%nat then nth (j * 4) l EmptyString
              else nth j l EmptyString.
Proof.
  cbv zeta. induction k as [|k IH]; intros Hk.
  - cbn [seq fold_left]. split; [reflexivity|]. intros j. reflexivity.
  - destruct IH as [IHl IHn]; [lia|].
    rewrite seq_S, fold_left_app. cbn [Nat.add fold_left].
    split; [now rewrite list_set_length|].
    intros j. destruct (Nat.eq_dec k j) as [<-|Hne].
    + rewrite list_set_nth_same by (rewrite IHl; lia).
      rewrite IHn.
      destruct (Nat.ltb_spec (k * 4) k), (Nat.ltb_spec k (S k)); try lia;
        reflexivity.
    + rewrite list_set_nth_other by assumption.
      rewrite IHn.
      destruct (Nat.ltb_spec j k), (Nat.ltb_spec j (S k)); try lia; reflexivity.
Qed.

Lemma row_tokens_nth_id (rows : list halo_row) (j : nat) :
  nth (j * 4) (flat_map row_tokens rows) EmptyString
  = nth j (map row_id rows) EmptyString.
Proof.
  revert j. induction rows as [|[[[i x] y] z] rows IH]; intros j.
  - cbn [flat_map map]. now destruct (j * 4)%nat, j.
  - destruct j as [|j]; [reflexivity|].
    cbn [flat_map row_tokens app map nth Nat.mul Nat.add]. apply IH.
Qed.

Lemma compact_ids_rows (rows : list halo_row) :
  compact_ids (flat_map row_tokens rows) = map row_id rows.
Proof.
  unfold compact_ids.
  rewrite row_tokens_length.
  replace (4 * length rows / 4)%nat with (length rows)
    by (rewrite Nat.mul_comm, Nat.div_mul; lia).
  destruct (compact_fold (flat_map row_tokens rows) (length rows)) as [Hl Hn].
  { rewrite row_tokens_length. lia. }
  apply (nth_ext _ _ EmptyString EmptyString).
  - rewrite length_firstn, Hl, row_tokens_length, length_map. lia.
  - intros j Hj. rewrite length_firstn, Hl, row_tokens_length in Hj.
    rewrite nth_firstn.
    destruct (Nat.ltb_spec j (length rows)); [|lia].
    rewrite Hn.
    destruct (Nat.ltb_spec j (length rows)); [|lia].
    apply row_tokens_nth_id.
Qed.

Lemma map_seq_3 {A : Type} (f : nat -> A) (n : nat) :
  map f (seq 0 (3 + n))
  = f 0%nat :: f 1%nat :: f 2%nat :: map (fun a => f (3 + a)%nat) (seq 0 n).
Proof.
  cbn [Nat.add seq map].
  now rewrite <- seq_shift, <- seq_shift, <- seq_shift, !map_map.
Qed.

Lemma position_tokens_rows (strtof : string -> float) (rows : list halo_row) :
  map (fun i => strtof (nth (i + 1 + i / 3) (flat_map row_tokens rows)
                            EmptyString))
      (seq 0 (length rows * 3))
  = flat_map (row_position strtof) rows.
Proof.
  induction rows as [|[[[i x] y] z] rows IH]; [reflexivity|].
  change (length ((i, x, y, z) :: rows) * 3)%nat
    with (3 + length rows * 3)%nat.
  rewrite map_seq_3.
  cbn [flat_map row_tokens row_position app].
  rewrite <- IH.
  do 3 (apply f_equal2; [reflexivity|]).
  apply map_ext. intros a.
  replace ((3 + a) / 3)%nat with (S (a / 3)).
  2:{ replace (3 + a)%nat with (a + 1 * 3)%nat by lia.
      rewrite Nat.div_add by lia. lia. }
  replace (3 + a + 1 + S (a / 3))%nat
    with (S (S (S (S (a + 1 + a / 3))))) by lia.
  reflexivity.
Qed.

(** X3. [readHaloFile] on a well-formed file, one halo [id x y z] per row:
    the ids come out one per row in file order (the in-place compaction
    [haloIds[i] = haloIds[i*4]] reads every id before it is overwritten),
    and the positions are appended as [x1 y1 z1 x2 y2 z2 ...], converted by
    [strtof]. *)
Theorem readHaloFile_rows (strtof : string -> float) (rows : list halo_row)
        (haloPos : list float) :
  readHaloFile strtof (flat_map row_tokens rows) haloPos []
  = Some (haloPos ++ flat_map (row_position strtof) rows, map row_id rows).
Proof.
  unfold readHaloFile.
  rewrite row_tokens_length.
  replace (4 * length rows mod 4)%nat with 0%nat
    by (rewrite Nat.mul_comm, Nat.Div0.mod_mul; reflexivity).
  cbn [Nat.eqb negb app].
  replace (4 * length rows / 4)%nat with (length rows)
    by (rewrite Nat.mul_comm, Nat.div_mul; lia).
  now rewrite position_tokens_rows, compact_ids_rows.
Qed.


Ltac eval_digit :=
  match goal with
  | |- context [digit_of ?c] =>
      let v := eval vm_compute in (digit_of c) in
      change (digit_of c) with v
  end; cbv beta iota.

Lemma atoi_digits_uint_acc (d : Decimal.uint) (acc : positive) :
  atoi_digits (NilEmpty.string_of_uint d) (Z.pos acc)
  = Z.pos (Pos.of_uint_acc d acc).
Proof.
  revert acc. induction d; intros acc;
    cbn [NilEmpty.string_of_uint atoi_digits Pos.of_uint_acc];
    try reflexivity;
    eval_digit; rewrite <- IHd; f_equal; lia.
Qed.

Lemma atoi_digits_uint (d : Decimal.uint) :
  atoi_digits (NilEmpty.string_of_uint d) 0 = Z.of_N (Pos.of_uint d).
Proof.
  induction d; cbn [NilEmpty.string_of_uint atoi_digits Pos.of_uint];
    try reflexivity; eval_digit;
    [exact IHd | ..];
    match goal with
    | |- atoi_digits _ ?a = _ =>
        let v := eval vm_compute in a in change a with v
    end; apply atoi_digits_uint_acc.
Qed.

Lemma atoi_digits_to_uint (p : positive) :
  atoi_digits (NilZero.string_of_uint (Pos.to_uint p)) 0 = Z.pos p.
Proof.
  pose proof (DecimalPos.Unsigned.of_to p) as H.
  destruct (Pos.to_uint p) eqn:E; [discriminate H|..];
    unfold NilZero.string_of_uint; rewrite atoi_digits_uint, H; reflexivity.
Qed.

Lemma skip_spaces_to_uint (p : positive) :
  exists c r, NilZero.string_of_uint (Pos.to_uint p) = String c r /\
              is_space c = false /\ c <> "-"%char /\ c <> "+"%char.
Proof.
  pose proof (DecimalPos.Unsigned.of_to p) as H.
  destruct (Pos.to_uint p) eqn:E; [discriminate H|..];
    cbn [NilZero.string_of_uint NilEmpty.string_of_uint];
    eexists _, _; (split; [reflexivity|]);
    (split; [reflexivity|split; discriminate]).
Qed.

Lemma atoi_unsigned (c : ascii) (r : string) :
  is_space c = false -> c <> "-"%char -> c <> "+"%char ->
  atoi (String c r) = wrap32 (atoi_digits (String c r) 0).
Proof.
  intros Hs Hm Hp. unfold atoi. cbn [skip_spaces]. rewrite Hs.
  destruct c as [[] [] [] [] [] [] [] []]; try reflexivity; congruence.
Qed.

(** X5. What [stream << step] prints, [atoi] reads back: for every value of
    an [int] the decimal string written by [getLCSteps] is parsed by
    [processLC] to the same value. *)
Theorem atoi_print_int (z : Z)
        (Hint : (- 2147483648 <= z <= INT_MAX)%Z) :
  atoi (print_int z) = z.
Proof.
  unfold print_int. destruct z as [|p|p]; cbn [Z.to_int NilZero.string_of_int].
  - reflexivity.
  - destruct (skip_spaces_to_uint p) as (c & r & E & Hs & Hm & Hp).
    rewrite E, atoi_unsigned by assumption.
    rewrite <- E, atoi_digits_to_uint. now apply wrap32_small.
  - destruct (skip_spaces_to_uint p) as (c & r & E & Hs & Hm & Hp).
    unfold atoi. cbn [skip_spaces].
    change (is_space "-"%char) with false. cbv iota.
    rewrite atoi_digits_to_uint. now apply wrap32_small.
Qed.

Lemma atoi_print_int_witness : atoi (print_int 487) = 487%Z.
Proof. apply (atoi_print_int 487). unfold INT_MAX. lia. Defined.

Lemma uint_string_digits (d : Decimal.uint) (t : string) (acc : Z) :
  atoi_digits (NilEmpty.string_of_uint d ++ t) acc
  = atoi_digits t (atoi_digits (NilEmpty.string_of_uint d) acc).
Proof.
  revert acc. induction d; intros acc;
    cbn [NilEmpty.string_of_uint String.append atoi_digits];
    try reflexivity; eval_digit; apply IHd.
Qed.

Lemma atoi_digits_stops (t : string) (acc : Z) :
  no_leading_digit t -> atoi_digits t acc = acc.
Proof.
  destruct t as [|c t]; [reflexivity|].
  unfold no_leading_digit, is_digit. cbn [atoi_digits].
  now destruct (digit_of c).
Qed.

Lemma print_int_nonneg (n : Z) :
  (0 <= n)%Z ->
  exists d, d <> Decimal.Nil /\ print_int n = NilEmpty.string_of_uint d /\
            atoi_digits (NilEmpty.string_of_uint d) 0 = n.
Proof.
  intros Hn. unfold print_int. destruct n as [|p|p]; [| |lia].
  - exists (Decimal.D0 Decimal.Nil). split; [discriminate|]. split; reflexivity.
  - exists (Pos.to_uint p). cbn [Z.to_int NilZero.string_of_int].
    pose proof (atoi_digits_to_uint p) as Hv.
    pose proof (DecimalPos.Unsigned.of_to p) as H.
    destruct (Pos.to_uint p) eqn:E; [discriminate H|..];
      (split; [discriminate|split; [reflexivity|exact Hv]]).
Qed.

Lemma uint_string_head (d : Decimal.uint) :
  d <> Decimal.Nil ->
  exists c r, NilEmpty.string_of_uint d = String c r /\ is_digit c = true /\
              is_space c = false /\ c <> "-"%char /\ c <> "+"%char.
Proof.
  intros Hd. destruct d; [congruence|..];
    cbn [NilEmpty.string_of_uint]; eexists _, _;
    (split; [reflexivity|]);
    (split; [reflexivity|split; [reflexivity|split; discriminate]]).
Qed.

Lemma step_of_subdir_parse (prefix suffix : string) (n : Z) :
  digit_free prefix -> (0 <= n <= INT_MAX)%Z -> no_leading_digit suffix ->
  step_of_subdir (prefix ++ print_int n ++ suffix) = Some n.
Proof.
  intros Hprefix Hn Hsuffix.
  destruct (print_int_nonneg n) as (d & Hd & -> & Hv); [lia|].
  induction prefix as [|c prefix IH].
  - cbn [String.append].
    destruct (uint_string_head d Hd) as (c & r & E & Hdig & Hs & Hm & Hp).
    pose proof (uint_string_digits d suffix 0) as Happ.
    rewrite E in *. cbn [String.append] in *. cbn [step_of_subdir].
    rewrite Hdig. f_equal.
    rewrite atoi_unsigned, Happ, atoi_digits_stops, Hv by assumption.
    apply wrap32_small. unfold INT_MAX in *. lia.
  - unfold digit_free in Hprefix. cbn [list_ascii_of_string] in Hprefix.
    inversion Hprefix as [|? ? Hc Hrest]; subst.
    cbn [String.append step_of_subdir]. rewrite Hc. now apply IH.
Qed.




Lemma insert_sorted_perm (x : Z) (l : list Z) :
  Permutation.Permutation (insert_sorted x l) (x :: l).
Proof.
  induction l as [|y t IH]; cbn [insert_sorted];
    [apply Permutation.Permutation_refl|].
  destruct (x <=? y)%Z; [apply Permutation.Permutation_refl|].
  eapply Permutation.perm_trans;
    [apply Permutation.perm_skip, IH|apply Permutation.perm_swap].
Qed.

Lemma sort_ints_perm (l : list Z) : Permutation.Permutation (sort_ints l) l.
Proof.
  induction l as [|x l IH]; cbn [sort_ints fold_right];
    [apply Permutation.Permutation_refl|].
  fold (sort_ints l).
  eapply Permutation.perm_trans;
    [apply insert_sorted_perm|apply Permutation.perm_skip, IH].
Qed.

Lemma insert_sorted_sorted (x : Z) (l : list Z) :
  Sorted.StronglySorted Z.le l ->
  Sorted.StronglySorted Z.le (insert_sorted x l).
Proof.
  induction 1 as [|y t Ht IH Hy]; cbn [insert_sorted].
  - repeat constructor.
  - destruct (Z.leb_spec x y).
    + constructor; [now constructor|].
      constructor; [assumption|].
      eapply Forall_impl; [|exact Hy]. intros; cbv beta in *; lia.
    + constructor; [assumption|].
      eapply Permutation.Permutation_Forall;
        [apply Permutation.Permutation_sym, insert_sorted_perm|].
      constructor; [lia|assumption].
Qed.

Lemma sort_ints_sorted (l : list Z) :
  Sorted.StronglySorted Z.le (sort_ints l).
Proof.
  induction l as [|x l IH]; cbn [sort_ints fold_right]; [constructor|].
  now apply insert_sorted_sorted.
Qed.

Lemma sorted_split (a b : list Z) (x : Z) :
  Sorted.StronglySorted Z.le (a ++ x :: b) ->
  Forall (fun t => (t <= x)%Z) a /\ Forall (fun t => (x <= t)%Z) b.
Proof.
  induction a as [|y a IH]; cbn [app]; intros H.
  - split; [constructor|]. now inversion H.
  - inversion H as [|? ? Hs Hall]; subst.
    destruct (IH Hs) as [Ha Hb]. split; [|assumption].
    constructor; [|assumption].
    rewrite Forall_app in Hall. destruct Hall as [_ Hx]. now inversion Hx.
Qed.

(** The steps from the largest down, as the loop of [getLCSteps] visits
    them: before a step come only steps at least as large. *)
Lemma descending_split (l pre post : list Z) (x : Z) :
  rev (sort_ints l) = pre ++ x :: post ->
  Forall (fun t => (x <= t)%Z) pre /\ Forall (fun t => (t <= x)%Z) post.
Proof.
  intros H.
  assert (E : sort_ints l = rev post ++ x :: rev pre).
  { rewrite <- (rev_involutive (sort_ints l)), H, rev_app_distr.
    cbn [rev]. now rewrite <- app_assoc. }
  pose proof (sort_ints_sorted l) as Hs. rewrite E in Hs.
  destruct (sorted_split _ _ _ Hs) as [Ha Hb].
  split.
  - apply Forall_forall. intros t Ht. rewrite Forall_forall in Hb.
    apply Hb. now apply -> in_rev.
  - apply Forall_forall. intros t Ht. rewrite Forall_forall in Ha.
    apply Ha. now apply -> in_rev.
Qed.

Lemma steps_loop_hit (maxStep minStep : Z) (D : list Z) (s : Z) :
  In s (steps_loop maxStep minStep D true) <->
  exists a b, D = a ++ s :: b /\ Forall (fun t => (minStep < t)%Z) a.
Proof.
  induction D as [|x D IH]; cbn [steps_loop negb].
  - split; [intros []|]. intros (a & b & E & _). now destruct a.
  - split.
    + intros [<-|H].
      * exists [], D. split; [reflexivity|constructor].
      * destruct (Z.leb_spec x minStep); [destruct H|].
        apply IH in H. destruct H as (a & b & -> & Ha).
        exists (x :: a), b. split; [reflexivity|]. now constructor.
    + intros (a & b & E & Ha). destruct a as [|y a]; cbn [app] in E.
      * injection E as -> ->. now left.
      * injection E as -> ->. inversion Ha; subst. right.
        destruct (Z.leb_spec y minStep); [lia|].
        apply IH. now exists a, b.
Qed.

Lemma steps_loop_scan (maxStep minStep : Z) (D : list Z) (s : Z) :
  In s (steps_loop maxStep minStep D false) <->
  exists pre top a b,
    D = pre ++ top :: a ++ s :: b /\
    Forall (fun t => (maxStep <= t)%Z) pre /\ (top < maxStep)%Z /\
    Forall (fun t => (minStep < t)%Z) a.
Proof.
  induction D as [|x D IH]; cbn [steps_loop negb].
  - split; [intros []|]. intros (pre & top & a & b & E & _).
    now destruct pre.
  - destruct (Z.ltb_spec x maxStep) as [Hx|Hx].
    + rewrite steps_loop_hit. split.
      * intros (a & b & -> & Ha). now exists [], x, a, b.
      * intros (pre & top & a & b & E & Hpre & Htop & Ha).
        destruct pre as [|y pre]; cbn [app] in E.
        -- injection E as -> ->. now exists a, b.
        -- injection E as -> ->. inversion Hpre; subst. lia.
    + rewrite IH. split.
      * intros (pre & top & a & b & -> & Hpre & Htop & Ha).
        exists (x :: pre), top, a, b. split; [reflexivity|].
        split; [now constructor|]. now split.
      * intros (pre & top & a & b & E & Hpre & Htop & Ha).
        destruct pre as [|y pre]; cbn [app] in E.
        -- injection E as -> ->. lia.
        -- injection E as -> ->. inversion Hpre; subst.
           now exists pre, top, a, b.
Qed.

Lemma steps_loop_selected (maxStep minStep : Z) (avail : list Z) (s : Z) :
  NoDup avail ->
  In s (steps_loop maxStep minStep (rev (sort_ints avail)) false) <->
  step_selected maxStep minStep avail s.
Proof.
  intros Hnd.
  assert (Hperm : Permutation.Permutation (rev (sort_ints avail)) avail).
  { eapply Permutation.perm_trans; [|apply sort_ints_perm].
    apply Permutation.Permutation_sym, Permutation.Permutation_rev. }
  assert (HndD : NoDup (rev (sort_ints avail))).
  { eapply Permutation.Permutation_NoDup;
      [apply Permutation.Permutation_sym; exact Hperm|exact Hnd]. }
  assert (Hin : forall t, In t avail <-> In t (rev (sort_ints avail))).
  { intros t. split; apply Permutation.Permutation_in;
      [apply Permutation.Permutation_sym|]; exact Hperm. }
  rewrite steps_loop_scan. unfold step_selected, top_step.
  remember (rev (sort_ints avail)) as D eqn:ED.
  split.
  - intros (pre & top & a & b & E & Hpre & Htop & Ha).
    assert (E2 : D = (pre ++ top :: a) ++ s :: b)
      by now rewrite <- app_assoc.
    rewrite ED in E, E2.
    destruct (descending_split _ _ _ _ E) as [_ Hafter].
    destruct (descending_split _ _ _ _ E2) as [Hbefore Hb].
    rewrite <- ED in E, E2.
    rewrite E in HndD.
    apply NoDup_remove in HndD. destruct HndD as [Hnd1 Hnotin].
    rewrite Forall_forall in Hpre, Hafter, Ha, Hb, Hbefore.
    split; [apply Hin; rewrite E2; apply in_elt|].
    exists top. split; [split; [|split]|split].
    + apply Hin. rewrite E. apply in_elt.
    + assumption.
    + intros t Ht Hlt. apply Hin in Ht. rewrite E in Ht.
      apply in_app_or in Ht. destruct Ht as [Ht|[<-|Ht]].
      * apply Hpre in Ht. lia.
      * lia.
      * now apply Hafter.
    + assert (Hs : (s <= top)%Z) by (apply Hafter, in_elt).
      assert (s <> top).
      { intros ->. apply Hnotin. apply in_or_app. right. apply in_elt. }
      lia.
    + intros t Ht Hlt. apply Hin in Ht. rewrite E in Ht.
      apply in_app_or in Ht. destruct Ht as [Ht|[<-|Ht]].
      * apply Hpre in Ht. lia.
      * lia.
      * apply in_app_or in Ht. destruct Ht as [Ht|[<-|Ht]].
        -- now apply Ha.
        -- lia.
        -- apply Hb in Ht. lia.
  - intros (Hs & top & (Htop & Hlt & Hmax) & Hst & Hbetween).
    apply Hin in Htop. apply in_split in Htop.
    destruct Htop as (pre & rest & E).
    pose proof E as E'. rewrite ED in E'.
    destruct (descending_split _ _ _ _ E') as [Hpre Hrest].
    rewrite Forall_forall in Hpre, Hrest.
    pose proof HndD as Hnd2. rewrite E in Hnd2.
    apply NoDup_remove in Hnd2. destruct Hnd2 as [Hnd2 Hnotin].
    assert (Hsrest : In s rest).
    { apply Hin in Hs. rewrite E in Hs. apply in_app_or in Hs.
      destruct Hs as [Hs|[<-|Hs]]; [apply Hpre in Hs; lia|lia|assumption]. }
    apply in_split in Hsrest. destruct Hsrest as (a & b & ->).
    exists pre, top, a, b. split; [exact E|].
    assert (E2 : rev (sort_ints avail) = (pre ++ top :: a) ++ s :: b).
    { rewrite <- ED, E, <- app_assoc. reflexivity. }
    destruct (descending_split _ _ _ _ E2) as [Hbefore _].
    rewrite Forall_forall in Hbefore.
    assert (Hnd3 : NoDup (a ++ s :: b)).
    { apply NoDup_app_remove_l in Hnd2. exact Hnd2. }
    apply NoDup_remove in Hnd3. destruct Hnd3 as [_ Hsnot].
    split; [|split; [assumption|]].
    + apply Forall_forall. intros t Ht.
      destruct (Z.le_gt_cases maxStep t) as [|Hc]; [assumption|].
      assert (In t avail).
      { apply Hin. rewrite E. apply in_or_app. now left. }
      pose proof (Hmax t H Hc). pose proof (Hpre t Ht).
      assert (t <> top).
      { intros ->. apply Hnotin. apply in_or_app. now left. }
      lia.
    + apply Forall_forall. intros t Ht.
      apply Hbetween.
      * apply Hin. rewrite E. apply in_or_app. right. right.
        apply in_or_app. now left.
      * assert (s <= t)%Z.
        { apply Hbefore. apply in_or_app. right. now right. }
        assert (t <= top)%Z.
        { apply Hrest. apply in_or_app. now left. }
        assert (t <> s).
        { intros ->. apply Hsnot. apply in_or_app. now left. }
        assert (t <> top).
        { intros ->. apply Hnotin. apply in_or_app. right.
          apply in_or_app. now left. }
        lia.
Qed.

(** X7. Which steps [getLCSteps] hands to [processLC], for a directory with
    distinct step numbers: exactly the decimal strings of the available
    steps that lie below the largest available step under [maxStep], down
    to and including the first one at or below [minStep]. *)
Theorem getLCSteps_selection (maxStep minStep : Z) (names : list string)
        (errno : Z) (str : string)
        (Hdistinct : NoDup (steps_available names)) :
  In str (getLCSteps maxStep minStep (Some names) errno []) <->
  exists s, str = print_int s /\
            step_selected maxStep minStep (steps_available names) s.
Proof.
  unfold getLCSteps. cbn [getLCSubdirs snd app].
  fold (steps_available names).
  rewrite in_map_iff. split.
  - intros (s & <- & Hs). exists s. split; [reflexivity|].
    now apply steps_loop_selected.
  - intros (s & -> & Hs). exists s. split; [reflexivity|].
    now apply steps_loop_selected.
Qed.

Lemma getLCSteps_selection_witness :
  In "475"%string
     (getLCSteps 500 470 (Some ["lc487"; "lc475"; "lc464"; "."]%string) 0 [])
  <->
  exists s, "475"%string = print_int s /\
            step_selected 500 470
              (steps_available ["lc487"; "lc475"; "lc464"; "."]%string) s.
Proof.
  apply (getLCSteps_selection 500 470
           ["lc487"; "lc475"; "lc464"; "."]%string 0 "475"%string).
  vm_compute.
  repeat (constructor; [intros H; repeat (destruct H as [H|H]; [discriminate|]);
                        exact H|]).
  constructor.
Defined.

Lemma sorted_snoc (l : list Z) (x : Z) :
  Sorted.StronglySorted Z.ge l -> Forall (fun t => (t >= x)%Z) l ->
  Sorted.StronglySorted Z.ge (l ++ [x]).
Proof.
  induction 1 as [|y l Hl IH Hy]; intros Hx; cbn [app].
  - repeat constructor.
  - inversion Hx; subst. constructor; [now apply IH|].
    apply Forall_app. split; [assumption|]. now repeat constructor.
Qed.

Lemma sorted_rev (l : list Z) :
  Sorted.StronglySorted Z.le l -> Sorted.StronglySorted Z.ge (rev l).
Proof.
  induction 1 as [|y l Hl IH Hy]; cbn [rev]; [constructor|].
  apply sorted_snoc; [assumption|].
  apply Forall_forall. intros t Ht. apply in_rev in Ht.
  rewrite Forall_forall in Hy. specialize (Hy t Ht). lia.
Qed.

Lemma sorted_segment (pre seg post : list Z) :
  Sorted.StronglySorted Z.ge (pre ++ seg ++ post) ->
  Sorted.StronglySorted Z.ge seg.
Proof.
  induction pre as [|x pre IH]; cbn [app].
  - induction seg as [|y seg IHs]; cbn [app]; intros H; [constructor|].
    inversion H as [|? ? Hs Hall]; subst.
    constructor; [now apply IHs|].
    rewrite Forall_app in Hall. tauto.
  - intros H. inversion H; subst. now apply IH.
Qed.

Lemma steps_loop_prefix (maxStep minStep : Z) (D : list Z) :
  exists post, D = steps_loop maxStep minStep D true ++ post.
Proof.
  induction D as [|x D IH]; cbn [steps_loop negb]; [now exists []|].
  destruct (x <=? minStep)%Z; [now exists D|].
  destruct IH as (post & E). exists post. cbn [app]. now f_equal.
Qed.

Lemma steps_loop_segment (maxStep minStep : Z) (D : list Z) :
  exists pre post, D = pre ++ steps_loop maxStep minStep D false ++ post.
Proof.
  induction D as [|x D IH]; cbn [steps_loop negb]; [now exists [], []|].
  destruct (x <? maxStep)%Z.
  - destruct (steps_loop_prefix maxStep minStep D) as (post & E).
    exists [x], post. cbn [app]. now f_equal.
  - destruct IH as (pre & post & E). exists (x :: pre), post.
    cbn [app]. now f_equal.
Qed.

Lemma steps_loop_stops (maxStep minStep : Z) (D : list Z) :
  Forall (fun s => (minStep < s)%Z)
         (removelast (steps_loop maxStep minStep D true)).
Proof.
  induction D as [|x D IH]; cbn [steps_loop negb]; [constructor|].
  destruct (Z.leb_spec x minStep); [constructor|].
  destruct (steps_loop maxStep minStep D true) as [|y O] eqn:E;
    [constructor|].
  change (removelast (x :: y :: O)) with (x :: removelast (y :: O)).
  now constructor.
Qed.

Lemma steps_loop_scan_stops (maxStep minStep : Z) (D : list Z) :
  Forall (fun s => (minStep < s)%Z)
         (removelast (steps_loop maxStep minStep D false)).
Proof.
  induction D as [|x D IH]; cbn [steps_loop negb]; [constructor|].
  destruct (x <? maxStep)%Z; [apply steps_loop_stops|exact IH].
Qed.

(** X8. The order in which [getLCSteps] delivers the steps: it keeps the
    strings it is handed and appends the decimal strings of available
    steps from larger to smaller, every one below [maxStep] and every one
    but the last above [minStep]; nothing is appended when the directory
    cannot be opened. *)
Theorem getLCSteps_descending (maxStep minStep : Z)
        (listing : option (list string)) (errno : Z)
        (step_strings : list string) :
  exists steps,
    getLCSteps maxStep minStep listing errno step_strings
    = step_strings ++ map print_int steps /\
    Sorted.StronglySorted Z.ge steps /\
    Forall (fun s => (s < maxStep)%Z) steps /\
    Forall (fun s => (minStep < s)%Z) (removelast steps) /\
    (listing = None -> steps = []).
Proof.
  unfold getLCSteps.
  set (avail := stepsAvail_of (snd (getLCSubdirs listing errno []))).
  exists (steps_loop maxStep minStep (rev (sort_ints avail)) false).
  split; [reflexivity|]. split; [|split; [|split]].
  - destruct (steps_loop_segment maxStep minStep (rev (sort_ints avail)))
      as (pre & post & E).
    apply (sorted_segment pre _ post). rewrite <- E.
    apply sorted_rev, sort_ints_sorted.
  - apply Forall_forall. intros s Hs.
    apply steps_loop_scan in Hs.
    destruct Hs as (pre & top & a & b & E & _ & Htop & _).
    destruct (descending_split _ _ _ _ E) as [_ Hafter].
    rewrite Forall_forall in Hafter.
    assert (s <= top)%Z by (apply Hafter, in_elt). lia.
  - apply steps_loop_scan_stops.
  - intros ->. reflexivity.
Qed.

Lemma prefix_spec (sub s : string) :
  String.prefix sub s = true <-> exists b, s = (sub ++ b)%string.
Proof.
  revert s. induction sub as [|c sub IH]; intros s.
  - split; [|now destruct s]. intros _. now exists s.
  - destruct s as [|d s]; cbn [String.prefix].
    + split; [discriminate|]. intros (b & E). discriminate E.
    + destruct (ascii_dec c d) as [->|Hne].
      * rewrite IH. split; intros (b & E); exists b.
        -- cbn [String.append]. now f_equal.
        -- cbn [String.append] in E. now injection E.
      * split; [discriminate|]. intros (b & E).
        cbn [String.append] in E. injection E as E1 _. congruence.
Qed.

Lemma contains_spec (sub s : string) :
  contains sub s = true <-> occurs_in sub s.
Proof.
  unfold occurs_in.
  induction s as [|c s IH]; cbn [contains].
  - destruct (String.prefix sub EmptyString) eqn:E.
    + split; [|reflexivity]. intros _. apply prefix_spec in E.
      destruct E as (b & E). now exists EmptyString, b.
    + split; [discriminate|]. intros ([|? a] & b & Eq); [|discriminate Eq].
      cbn [String.append] in Eq.
      assert (String.prefix sub EmptyString = true)
        by (apply prefix_spec; now exists b).
      congruence.
  - destruct (String.prefix sub (String c s)) eqn:E.
    + split; [|reflexivity]. intros _. apply prefix_spec in E.
      destruct E as (b & E). now exists EmptyString, b.
    + rewrite IH. split.
      * intros (a & b & ->). now exists (String c a), b.
      * intros ([|d a] & b & Eq); cbn [String.append] in Eq.
        -- assert (String.prefix sub (String c s) = true)
             by (apply prefix_spec; now exists b).
           congruence.
        -- injection Eq as _ ->. now exists a, b.
Qed.

Lemma filter_none {A : Type} (p : A -> bool) (l : list A) :
  filter p l = [] <-> Forall (fun y => p y = false) l.
Proof.
  induction l as [|y l IH]; cbn [filter].
  - split; [constructor|reflexivity].
  - destruct (p y) eqn:Ey.
    + split; [discriminate|]. intros H. inversion H; congruence.
    + rewrite IH. split; [now constructor|]. intros H. now inversion H.
Qed.

Lemma filter_single {A : Type} (p : A -> bool) (l : list A) (x : A) :
  filter p l = [x] <->
  exists before after,
    l = before ++ x :: after /\ p x = true /\
    Forall (fun y => p y = false) before /\
    Forall (fun y => p y = false) after.
Proof.
  induction l as [|y l IH]; cbn [filter].
  - split; [discriminate|]. intros (b & a & E & _). now destruct b.
  - destruct (p y) eqn:Ey.
    + split.
      * intros H. injection H as -> Hnil.
        exists [], l. split; [reflexivity|]. split; [assumption|].
        split; [constructor|]. now apply filter_none.
      * intros (b & a & E & Hx & Hb & Ha).
        destruct b as [|z b]; cbn [app] in E.
        -- injection E as -> ->. f_equal. now apply filter_none.
        -- injection E as -> ->. inversion Hb; subst. congruence.
    + rewrite IH. split.
      * intros (b & a & -> & Hx & Hb & Ha).
        exists (y :: b), a. split; [reflexivity|]. split; [assumption|].
        split; [now constructor|assumption].
      * intros (b & a & E & Hx & Hb & Ha).
        destruct b as [|z b]; cbn [app] in E.
        -- injection E as -> ->. congruence.
        -- injection E as -> ->. inversion Hb; subst. now exists b, a.
Qed.

Lemma header_name_test (n : string) :
  contains "lc" n && negb (contains "#" n) = true <-> header_name n.
Proof.
  unfold header_name. rewrite andb_true_iff, negb_true_iff.
  rewrite <- (contains_spec "lc"), <- (contains_spec "#").
  destruct (contains "#" n); intuition congruence.
Qed.

Lemma header_name_test_false (n : string) :
  contains "lc" n && negb (contains "#" n) = false <-> ~ header_name n.
Proof.
  rewrite <- header_name_test.
  destruct (contains "lc" n && negb (contains "#" n)); intuition congruence.
Qed.

(** X9. [getLCFile] on a directory that opens: it returns code 0 and the
    name [f] exactly when [f] is the one and only entry whose name has
    [lc] in it and no [#]; with no such entry or with several it aborts,
    and it never returns another code. *)
Theorem getLCFile_unique_header (names : list string) (errno : Z)
        (file f : string) (code : Z) :
  (getLCFile (Some names) errno file = Returned code f <->
   code = 0%Z /\
   exists before after,
     names = before ++ f :: after /\ header_name f /\
     Forall (fun n => ~ header_name n) before /\
     Forall (fun n => ~ header_name n) after) /\
  (getLCFile (Some names) errno file = Aborted \/
   exists f', getLCFile (Some names) errno file = Returned 0 f').
Proof.
  unfold getLCFile.
  set (p := fun n => contains "lc" n && negb (contains "#" n)).
  assert (Hforall : forall l, Forall (fun y => p y = false) l
                              <-> Forall (fun n => ~ header_name n) l).
  { intros l. rewrite !Forall_forall. split; intros H n Hn;
      apply header_name_test_false, H, Hn. }
  pose proof (filter_single p names f) as Hsingle.
  destruct (filter p names) as [|g [|h l]] eqn:E.
  - split.
    + split; [discriminate|]. intros (_ & b & a & Hn & Hf & Hb & Ha).
      exfalso.
      assert (H : [] = [f]); [|discriminate H].
      apply Hsingle. exists b, a. split; [assumption|].
      split; [now apply header_name_test|]. now rewrite !Hforall.
    + now left.
  - split.
    + split.
      * intros H. injection H as <- <-. split; [reflexivity|].
        destruct Hsingle as [Hs _].
        destruct (Hs eq_refl) as (b & a & Hn & Hf & Hb & Ha).
        exists b, a. split; [assumption|].
        split; [now apply header_name_test|]. now rewrite <- !Hforall.
      * intros (-> & b & a & Hn & Hf & Hb & Ha).
        assert (H : [g] = [f]); [|now injection H as ->].
        apply Hsingle. exists b, a. split; [assumption|].
        split; [now apply header_name_test|]. now rewrite !Hforall.
    + right. now exists g.
  - split.
    + split; [discriminate|]. intros (_ & b & a & Hn & Hf & Hb & Ha).
      exfalso.
      assert (H : g :: h :: l = [f]); [|discriminate H].
      apply Hsingle. exists b, a. split; [assumption|].
      split; [now apply header_name_test|]. now rewrite !Hforall.
    + now left.
Qed.

Lemma append_empty_r (s : string) : (s ++ EmptyString)%string = s.
Proof. induction s as [|c s IH]; cbn [String.append]; congruence. Qed.

Lemma prefix_scan_found (isdigit : ascii -> Z) (p : string) (c : ascii)
      (r : string) :
  Forall (fun a => isdigit a <> 1%Z) (list_ascii_of_string p) ->
  isdigit c = 1%Z ->
  prefix_scan isdigit (p ++ String c r) = Some p.
Proof.
  intros Hp Hc.
  induction p as [|a p IH]; cbn [String.append prefix_scan].
  - rewrite Hc. reflexivity.
  - cbn [list_ascii_of_string] in Hp. inversion Hp as [|? ? Ha Hrest]; subst.
    destruct (Z.eqb_spec (isdigit a) 1); [contradiction|].
    now rewrite IH.
Qed.

(** X10. The prefix [processLC] takes from the first subdirectory name
    depends on the value [isdigit] gives: the test [isdigit(c) == true]
    holds only for the value 1, so the prefix is the part of the name
    before the first character with that value, and it stays empty for
    every name when [isdigit] never yields 1. *)
Theorem subdirPrefix_needs_isdigit_one (isdigit : ascii -> Z) :
  (forall p c r,
      Forall (fun a => isdigit a <> 1%Z) (list_ascii_of_string p) ->
      isdigit c = 1%Z ->
      find_subdirPrefix isdigit (p ++ String c r) = p) /\
  ((forall c, isdigit c <> 1%Z) ->
   forall name, find_subdirPrefix isdigit name = EmptyString).
Proof.
  unfold find_subdirPrefix. split.
  - intros p c r Hp Hc. now rewrite prefix_scan_found.
  - intros Hnever name.
    assert (H : prefix_scan isdigit name = None); [|now rewrite H].
    induction name as [|a name IH]; cbn [prefix_scan]; [reflexivity|].
    destruct (Z.eqb_spec (isdigit a) 1) as [E|E]; [now apply Hnever in E|].
    now rewrite IH.
Qed.

Lemma subdirPrefix_needs_isdigit_one_witness :
  find_subdirPrefix (fun c => if is_digit c then 2048%Z else 0%Z) "lc487"
  = EmptyString.
Proof.
  apply (subdirPrefix_needs_isdigit_one
           (fun c => if is_digit c then 2048%Z else 0%Z)).
  intros c. destruct (is_digit c); discriminate.
Defined.

(** X11. [getLCSteps] and [processLC] take a subdirectory name apart in the
    same place when [isdigit] yields 1 on digits: for a name made of a
    digit-free prefix and the digits of a step, the prefix found by
    [processLC] followed by the step string of [getLCSteps] is the name
    again, so the input directory of the step is found. *)
Theorem subdir_name_recomposed (prefix : string) (n : Z)
        (Hprefix : digit_free prefix)
        (Hn : (0 <= n <= INT_MAX)%Z) :
  let name := (prefix ++ print_int n)%string in
  exists step,
    step_of_subdir name = Some step /\
    (find_subdirPrefix isdigit_one name ++ print_int step)%string = name.
Proof.
  cbv zeta. exists n. split.
  - pose proof (step_of_subdir_parse prefix EmptyString n) as H.
    rewrite append_empty_r in H. now apply H.
  - f_equal.
    destruct (print_int_nonneg n) as (d & Hd & -> & _); [lia|].
    destruct (uint_string_head d Hd) as (c & r & -> & Hdig & _).
    unfold find_subdirPrefix. rewrite prefix_scan_found; [reflexivity| |].
    + unfold digit_free in Hprefix.
      eapply Forall_impl; [|exact Hprefix]. intros a Ha.
      unfold isdigit_one. cbv beta in Ha. now rewrite Ha.
    + unfold isdigit_one. now rewrite Hdig.
Qed.

Lemma subdir_name_recomposed_witness :
  let name := ("lc" ++ print_int 487)%string in
  exists step,
    step_of_subdir name = Some step /\
    (find_subdirPrefix isdigit_one name ++ print_int step)%string = name.
Proof.
  apply (subdir_name_recomposed "lc" 487).
  - unfold digit_free. cbn [list_ascii_of_string]. repeat constructor.
  - unfold INT_MAX. lia.
Defined.

(** X12. [invert_3x3] undoes a matrix with non-zero determinant: applying
    the inverse to the image of a vector gives the vector back. *)
Theorem invert_3x3_undoes (a b c d e f g h i x y z : float)
        (Hdet : determinant_3x3 [[a; b; c]; [d; e; f]; [g; h; i]] <> 0) :
  let m := [[a; b; c]; [d; e; f]; [g; h; i]] in
  exists w,
    matVecMul m [x; y; z] = Some w /\
    matVecMul (invert_3x3 m) w = Some [x; y; z].
Proof.
  cbv zeta. eexists. split; [reflexivity|].
  revert Hdet.
  unfold invert_3x3, scale_adjoint_3x3, determinant_3x3, matVecMul, at2, at1.
  cbn [app length nth Nat.eqb negb seq map fold_left].
  intros Hdet.
  f_equal. f_equal; [|f_equal; [|f_equal]]; field; exact Hdet.
Qed.

Lemma invert_3x3_undoes_witness :
  let m := [[2; 0; 0]; [0; 1; 0]; [0; 0; 1]] in
  exists w,
    matVecMul m [1; 2; 3] = Some w /\
    matVecMul (invert_3x3 m) w = Some [1; 2; 3].
Proof.
  apply (invert_3x3_undoes 2 0 0 0 1 0 0 0 1 1 2 3).
  unfold determinant_3x3, at2. cbn [nth]. lra.
Defined.

(** X13. [cross] of two three-component vectors is perpendicular to both
    ([dot] gives 0), and its squared length is [|a|^2 |b|^2 - (a.b)^2]. *)
Theorem cross_perpendicular (a0 a1 a2 b0 b1 b2 : float) :
  let a := [a0; a1; a2] in
  let b := [b0; b1; b2] in
  exists c ab,
    cross a b [] = Some c /\
    dot c a = Some 0 /\ dot c b = Some 0 /\
    dot a b = Some ab /\
    dot c c = Some ((a0 * a0 + a1 * a1 + a2 * a2)
                    * (b0 * b0 + b1 * b1 + b2 * b2) - ab * ab).
Proof.
  cbv zeta. eexists. eexists.
  unfold cross, dot, at1.
  cbn [app length nth Nat.eqb negb seq map fold_left].
  split; [reflexivity|].
  cbn [app length nth Nat.eqb negb seq map fold_left].
  split; [f_equal; ring|]. split; [f_equal; ring|].
  split; [reflexivity|]. f_equal. ring.
Qed.

(** X14. The matrix of [cross_prod_matrix] does what its name says:
    multiplying it with a vector by [matVecMul] gives the vector that
    [cross] computes. *)
Theorem cross_prod_matrix_is_cross (k0 k1 k2 x y z : float) :
  matVecMul (cross_prod_matrix [k0; k1; k2] []) [x; y; z]
  = cross [k0; k1; k2] [x; y; z] [].
Proof.
  unfold cross_prod_matrix, matVecMul, cross, at2, at1.
  cbn [app length nth Nat.eqb negb seq map fold_left].
  f_equal. f_equal; [|f_equal; [|f_equal]]; ring.
Qed.

(** X15. The matrix of [rotation_matrix] leaves its axis where it is, for
    every axis and angle. *)
Theorem rotation_matrix_fixes_axis (k0 k1 k2 B : float) :
  matVecMul (rodrigues_matrix [k0; k1; k2] B) [k0; k1; k2]
  = Some [k0; k1; k2].
Proof.
  rewrite rodrigues_matrix_apply. cbv zeta.
  f_equal. f_equal; [|f_equal; [|f_equal]]; ring.
Qed.

(** X16. For a unit axis the matrices of [rotation_matrix] compose as
    rotations do: turning by [B2] and then by [B1] is turning by
    [B1 + B2]; in particular turning back by [- B] undoes turning by [B]. *)
Theorem rotation_matrix_composes (k0 k1 k2 B1 B2 x y z : float)
        (Hunit : k0 * k0 + k1 * k1 + k2 * k2 = 1) :
  let k := [k0; k1; k2] in
  exists v,
    matVecMul (rodrigues_matrix k B2) [x; y; z] = Some v /\
    matVecMul (rodrigues_matrix k B1) v
    = matVecMul (rodrigues_matrix k (B1 + B2)) [x; y; z].
Proof.
  cbv zeta. eexists. split; [apply rodrigues_matrix_apply|].
  rewrite !rodrigues_matrix_apply. cbv zeta.
  rewrite sin_plus, cos_plus.
  pose proof (sin_cos_unit B1) as H1. pose proof (sin_cos_unit B2) as H2.
  generalize dependent (sin B1). generalize dependent (cos B1).
  generalize dependent (sin B2). generalize dependent (cos B2).
  intros c2 s2 H2 c1 s1 H1.
  f_equal. f_equal; [|f_equal; [|f_equal]]; nsatz.
Qed.

Lemma rotation_matrix_composes_witness :
  let k := [0; 0; 1] in
  exists v,
    matVecMul (rodrigues_matrix k 2) [1; 2; 3] = Some v /\
    matVecMul (rodrigues_matrix k 1) v
    = matVecMul (rodrigues_matrix k (1 + 2)) [1; 2; 3].
Proof. apply (rotation_matrix_composes 0 0 1 1 2 1 2 3). lra. Defined.


(** X18. [squareMat] and [scalarMultiply] agree with [matVecMul] on 3 by 3
    matrices: the square applied to a vector is the matrix applied twice,
    and the scaled matrix applied to a vector is the scaled image. *)
Theorem squareMat_scalarMultiply_apply (a b c d e f g h i s x y z : float) :
  let m := [[a; b; c]; [d; e; f]; [g; h; i]] in
  exists w,
    matVecMul m [x; y; z] = Some w /\
    matVecMul (squareMat m) [x; y; z] = matVecMul m w /\
    matVecMul (scalarMultiply m s) [x; y; z] = Some (map (Rmult s) w).
Proof.
  cbv zeta. eexists. split; [reflexivity|].
  unfold squareMat, scalarMultiply, matVecMul, at2, at1.
  cbn [app length nth Nat.eqb negb seq map fold_left].
  split; f_equal; (f_equal; [|f_equal; [|f_equal]]); ring.
Qed.

Lemma floor_bounds (x : R) : IZR (floor x) <= x < IZR (floor x) + 1.
Proof.
  unfold floor. rewrite minus_IZR. destruct (archimed x). lra.
Qed.

Lemma floor_monotone (x y : R) : x <= y -> (floor x <= floor y)%Z.
Proof.
  intros H. pose proof (floor_bounds x). pose proof (floor_bounds y).
  assert (IZR (floor x) < IZR (floor y + 1)) by (rewrite plus_IZR; lra).
  apply lt_IZR in H2. lia.
Qed.

Lemma zToStep_scale_positive (totSteps : Z) (maxZ : R) :
  (2 <= totSteps)%Z -> 0 < maxZ ->
  0 < 1 / (maxZ + 1) < 1 /\ 0 < (1 - 1 / (maxZ + 1)) / IZR (totSteps - 1).
Proof.
  intros Hn Hz.
  assert (Hs : 1 <= IZR (totSteps - 1)) by (apply IZR_le; lia).
  assert (H1 : 0 < 1 / (maxZ + 1) < 1).
  { split.
    - apply Rdiv_lt_0_compat; lra.
    - apply Rmult_lt_reg_r with (maxZ + 1); [lra|]. field_simplify; lra. }
  split; [exact H1|]. apply Rdiv_lt_0_compat; lra.
Qed.

(** X19. [zToStep] stays within the steps of the simulation: for a redshift
    between 0 and the initial redshift [maxZ] the step it returns lies
    between 0 and [totSteps - 1]. *)
Theorem zToStep_in_range (z : float) (totSteps : Z) (maxZ : float)
        (Hsteps : (2 <= totSteps)%Z) (Hz : 0 <= z <= maxZ)
        (Hmax : 0 < maxZ) :
  0 <= zToStep z totSteps maxZ <= IZR (totSteps - 1).
Proof.
  unfold zToStep. cbv zeta.
  destruct (zToStep_scale_positive totSteps maxZ Hsteps Hmax) as [Ha Hd].
  set (amin := 1 / (maxZ + 1)) in *.
  set (adiff := (1 - amin) / IZR (totSteps - 1)) in *.
  assert (Hs : 1 <= IZR (totSteps - 1)) by (apply IZR_le; lia).
  assert (Hlo : amin <= 1 / (1 + z)).
  { unfold amin. unfold Rdiv. rewrite !Rmult_1_l.
    apply Rinv_le_contravar; lra. }
  assert (Hhi : 1 / (1 + z) <= 1).
  { apply Rmult_le_reg_r with (1 + z); [lra|]. field_simplify; lra. }
  assert (Hq0 : 0 <= (1 / (1 + z) - amin) / adiff).
  { unfold Rdiv at 1. apply Rmult_le_pos; [lra|].
    left. apply Rinv_0_lt_compat. lra. }
  assert (Hq1 : (1 / (1 + z) - amin) / adiff <= IZR (totSteps - 1)).
  { apply Rmult_le_reg_r with adiff; [lra|].
    replace ((1 / (1 + z) - amin) / adiff * adiff) with (1 / (1 + z) - amin)
      by (field; lra).
    replace (IZR (totSteps - 1) * adiff) with (1 - amin)
      by (unfold adiff; field; lra).
    lra. }
  pose proof (floor_bounds ((1 / (1 + z) - amin) / adiff)) as Hf.
  split.
  - apply IZR_le.
    assert (IZR (-1) < IZR (floor ((1 / (1 + z) - amin) / adiff))) by lra.
    apply lt_IZR in H. lia.
  - lra.
Qed.

Lemma zToStep_in_range_witness :
  0 <= zToStep 1 500 200 <= IZR (500 - 1).
Proof. apply (zToStep_in_range 1 500 200); [lia|lra|lra]. Defined.

(** X20. [aToZ] and [zToStep] keep the order of time: of two scale factors
    the later one has the smaller redshift and never the earlier step. *)
Theorem step_of_scale_factor_monotone (a1 a2 : float) (totSteps : Z)
        (maxZ : float)
        (Ha : 0 < a1 <= a2) (Hsteps : (2 <= totSteps)%Z) (Hmax : 0 < maxZ) :
  aToZ a2 <= aToZ a1 /\
  zToStep (aToZ a1) totSteps maxZ <= zToStep (aToZ a2) totSteps maxZ.
Proof.
  destruct (zToStep_scale_positive totSteps maxZ Hsteps Hmax) as [Hamin Hd].
  assert (Hinv : 1 / a2 <= 1 / a1).
  { unfold Rdiv. rewrite !Rmult_1_l. apply Rinv_le_contravar; lra. }
  split; [unfold aToZ; lra|].
  unfold zToStep. cbv zeta. apply IZR_le, floor_monotone.
  set (amin := 1 / (maxZ + 1)) in *.
  set (adiff := (1 - amin) / IZR (totSteps - 1)) in *.
  assert (E : forall a, 0 < a -> 1 / (1 + aToZ a) = a).
  { intros a H. unfold aToZ. field. lra. }
  rewrite !E by lra.
  apply Rmult_le_reg_r with adiff; [lra|].
  replace ((a1 - amin) / adiff * adiff) with (a1 - amin) by (field; lra).
  replace ((a2 - amin) / adiff * adiff) with (a2 - amin) by (field; lra).
  lra.
Qed.

Lemma step_of_scale_factor_monotone_witness :
  aToZ 1 <= aToZ (1 / 2) /\
  zToStep (aToZ (1 / 2)) 500 200 <= zToStep (aToZ 1) 500 200.
Proof.
  apply (step_of_scale_factor_monotone (1 / 2) 1 500 200); [lra|lia|lra].
Defined.

Section OutputDirectories.

Variables (subdirPrefix out_dir : string) (numranks : nat).
Variable reader : string -> nat -> nat * Buffers_read.
Variable cutting : Buffers_read -> nat -> Buffers_write -> option Buffers_write.






End OutputDirectories.







